(** * insider-assessment: scheduler and batch worker pool

    A shallow embedding of the scheduling core of the repository:

    - [internal/config/config.go]      (module [Config])
    - [internal/domain/message]        (module [Domain])
    - [internal/cache] key prefixes    (module [CacheKeys])
    - [internal/service] worker pool   (module [Service])
    - [internal/scheduler] owner loop  (module [Scheduler])

    Go's [int] and [time.Duration] are 64-bit signed integers; they are
    modelled as [Z], with the wrap-around written out where the code does
    arithmetic on them.  Collaborators reached through Go interfaces
    (repository, SMS client, cache, context) are records of functions over
    an abstract world, so every statement holds for every implementation. *)

From Stdlib Require Import ZArith Lia.
From stdpp Require Import gmap strings list.

Open Scope Z_scope.

(** ** Durations ([time.Duration], nanoseconds) *)

Definition Duration := Z.

Definition Millisecond : Duration := 1000000.
Definition Second : Duration := 1000000000.
Definition Minute : Duration := 60 * Second.
Definition Hour : Duration := 60 * Minute.

(** Go errors carry a message; [nil] is [None]. *)
Definition error := string.

Definition min_int64 : Z := - 2 ^ 63.
Definition max_int64 : Z := 2 ^ 63 - 1.

(** Two's-complement wrap-around of a 64-bit signed addition. *)
Definition wrap64 (z : Z) : Z := (z + 2 ^ 63) mod 2 ^ 64 - 2 ^ 63.

(** ** internal/config/config.go *)

Module Config.

(** The library functions [config.go] calls but does not define. *)
Record Lib := {
  TrimSpace : string -> string;            (* strings.TrimSpace *)
  Atoi : string -> option Z;               (* strconv.Atoi, None on error *)
  ParseDuration : string -> option Duration (* time.ParseDuration *)
}.

(** The process environment; [os.Getenv] yields the empty string for a
    variable that is not set. *)
Definition Getenv (env : gmap string string) (key : string) : string :=
  default "" (env !! key).

Record SchedulerCfg := { Interval : Duration; BatchTimeout : Duration }.

Record WorkerCfg := {
  BatchSize : Z;
  MaxWorkers : Z;
  PerMessageTimeout : Duration
}.

Record Config := { Scheduler : SchedulerCfg; Worker : WorkerCfg }.

Definition getInt (L : Lib) (env : gmap string string)
    (key : string) (def : Z) : Z :=
  let v := TrimSpace L (Getenv env key) in
  if decide (v = "") then def
  else match Atoi L v with
       | None => def
       | Some i => i
       end.

Definition getDuration (L : Lib) (env : gmap string string)
    (key : string) (def : Duration) : Duration :=
  let v := TrimSpace L (Getenv env key) in
  if decide (v = "") then def
  else match ParseDuration L v with
       | None => def
       | Some d => d
       end.

(** [New], restricted to the scheduler and worker settings. *)
Definition New (L : Lib) (env : gmap string string) : Config :=
  {| Scheduler :=
       {| Interval := getDuration L env "SCHEDULER_INTERVAL" (5 * Second);
          BatchTimeout :=
            getDuration L env "SCHEDULER_BATCH_TIMEOUT" (30 * Second) |};
     Worker :=
       {| BatchSize := getInt L env "MESSAGE_BATCH_SIZE" 100;
          MaxWorkers := getInt L env "MESSAGE_MAX_WORKERS" 4;
          PerMessageTimeout :=
            getDuration L env "MESSAGE_PER_MESSAGE_TIMEOUT" (5 * Second) |} |}.

(** A value is unset or invalid for [getInt]/[getDuration] when the
    trimmed variable is empty or the parser rejects it. *)
Definition unusable {A} (L : Lib) (parse : string -> option A)
    (env : gmap string string) (key : string) : Prop :=
  TrimSpace L (Getenv env key) = "" \/
  parse (TrimSpace L (Getenv env key)) = None.

(** The value a variable parses to, when it is set and parses. *)
Definition parsesTo {A} (L : Lib) (parse : string -> option A)
    (env : gmap string string) (key : string) (a : A) : Prop :=
  TrimSpace L (Getenv env key) <> "" /\
  parse (TrimSpace L (Getenv env key)) = Some a.

(** Unset, unparsable, or parsed to a value that the constructors
    replace. *)
Definition unusableOrNonPositive (L : Lib) (parse : string -> option Z)
    (env : gmap string string) (key : string) : Prop :=
  unusable L parse env key \/
  exists z, parsesTo L parse env key z /\ z <= 0.

End Config.

(** ** internal/domain/message *)

Module Domain.

Definition Status := string.

Definition StatusPending : Status := "PENDING".
Definition StatusSuccess : Status := "SUCCESS".
Definition StatusFailed : Status := "FAILED".

(** [ID] is a UUID, used only through [ID.String()]; times are instants.
    The field [Status] is [Status_] here, the name being taken by its
    type. *)
Record Message := {
  ID : string;
  To : string;
  Content : string;
  Status_ : Status;
  MessageID : string;
  RawResponse : string;
  SentAt : option Z;
  CreatedAt : Z;
  UpdatedAt : Z
}.

(** [MarkSent]; [now] is the value of [time.Now()]. *)
Definition MarkSent (now : Z) (msgID raw : string) (m : Message) : Message :=
  {| ID := ID m; To := To m; Content := Content m;
     Status_ := StatusSuccess;
     MessageID := msgID;
     RawResponse := raw;
     SentAt := Some now;
     CreatedAt := CreatedAt m; UpdatedAt := UpdatedAt m |}.

Definition MarkFailed (raw : string) (m : Message) : Message :=
  {| ID := ID m; To := To m; Content := Content m;
     Status_ := StatusFailed;
     MessageID := MessageID m;
     RawResponse := raw;
     SentAt := SentAt m;
     CreatedAt := CreatedAt m; UpdatedAt := UpdatedAt m |}.

(** [NewMessage] and its rules.  [TrimSpace] is [strings.TrimSpace];
    [newID] and [now] are the values of [uuid.New()] and [time.Now()];
    [len] counts bytes, as [String.length] does. *)
Definition MaxContentLength : Z := 255.

Definition ErrEmptyRecipient : error := "recipient phone number is required".
Definition ErrEmptyContent : error := "message content is required".
Definition ErrContentTooLong : error :=
  "message content exceeds maximum length".

(** The zero [time.Time]. *)
Definition zeroTime : Z := 0.

Definition NewMessage (TrimSpace : string -> string) (newID : string)
    (now : Z) (to content : string) : Message + error :=
  let to := TrimSpace to in
  let content := TrimSpace content in
  if decide (to = "") then inr ErrEmptyRecipient
  else if decide (content = "") then inr ErrEmptyContent
  else if decide (Z.of_nat (String.length content) > MaxContentLength) then
    inr ErrContentTooLong
  else
    inl {| ID := newID; To := to; Content := content;
           Status_ := StatusPending;
           MessageID := ""; RawResponse := ""; SentAt := None;
           CreatedAt := now; UpdatedAt := zeroTime |}.

End Domain.

(** ** internal/cache: key prefixes *)

Module CacheKeys.

Definition Prefix := string.

Definition SentMessages : Prefix := "sent_messages".

(** [fmt.Sprintf("%s:%s", p, id)] *)
Definition Key (p : Prefix) (id : string) : string := p +:+ ":" +:+ id.

End CacheKeys.

(** ** internal/service: batch processing with a worker pool *)

Module Service.
Import Domain.

(** *** Collaborators

    [W] is the state of everything outside the service (database, SMS
    provider, cache, clock); [C] is [context.Context].  Each call takes the
    world and returns its Go results with the new world. *)

Record Repository (W C : Type) := {
  GetPending : C -> Z -> W -> (list Message * option error) * W;
  UpdateStatus : C -> Message -> W -> option error * W
}.

Record SmsClient (W C : Type) := {
  Send : C -> string -> string -> W -> (string * string * option error) * W
}.

(** [Set_] is the method [Set]. *)
Record Cache (W C : Type) := {
  Set_ : C -> string -> string -> Duration -> W -> option error * W
}.

(** What the code uses of packages [context] and [time]. *)
Record Runtime (W C : Type) := {
  ctxErr : C -> W -> bool;              (* ctx.Err() != nil *)
  WithTimeout : C -> Duration -> W -> C; (* context.WithTimeout *)
  Now : W -> Z;                          (* time.Now() *)
  FormatRFC3339 : Z -> string            (* t.Format(time.RFC3339) *)
}.

Arguments GetPending {W C}.
Arguments UpdateStatus {W C}.
Arguments Send {W C}.
Arguments Set_ {W C}.
Arguments ctxErr {W C}.
Arguments WithTimeout {W C}.
Arguments Now {W C}.
Arguments FormatRFC3339 {W C}.

(** [cache] is [None] for a nil interface value. *)
Record messageService (W C : Type) := {
  repo : Repository W C;
  smsClient : SmsClient W C;
  cache : option (Cache W C);
  batchSize : Z;
  maxWorkers : Z;
  perMessageTimeout : Duration;
  runtime : Runtime W C
}.

Arguments repo {W C}.
Arguments smsClient {W C}.
Arguments cache {W C}.
Arguments batchSize {W C}.
Arguments maxWorkers {W C}.
Arguments perMessageTimeout {W C}.
Arguments runtime {W C}.

Definition NewMessageService {W C} (rt : Runtime W C)
    (repo : Repository W C) (smsClient : SmsClient W C)
    (cache : option (Cache W C))
    (batchSize maxWorkers : Z) (perMessageTimeout : Duration)
  : messageService W C :=
  let batchSize := if decide (batchSize <= 0) then 100 else batchSize in
  let maxWorkers := if decide (maxWorkers <= 0) then 4 else maxWorkers in
  let perMessageTimeout :=
    if decide (perMessageTimeout <= 0) then 5 * Second
    else perMessageTimeout in
  {| repo := repo; smsClient := smsClient; cache := cache;
     batchSize := batchSize; maxWorkers := maxWorkers;
     perMessageTimeout := perMessageTimeout; runtime := rt |}.

(** *** Observable effects

    Every collaborator call and every log line is appended to a trace, in
    program order. *)

Inductive LogLine :=
| LogNoPending
| LogProcessing (n batchSize maxWorkers : Z)
| LogWorkerCancelled (workerID : Z)
| LogWorkerIsProcessing (i : Z)
| LogWorkerFailed (workerID : Z) (id : string) (e : error)
| LogPoolCompleted
| LogSendFailed (id : string) (e : error)
| LogPersistFailedStatus (id : string) (e : error)
| LogPersistSuccessStatus (id : string) (e : error)
| LogCacheFailed (externalID : string) (e : error).

Inductive Event :=
| EvGetPending (limit : Z) (n : nat) (err : option error)
| EvSend (to content : string) (externalID raw : string) (err : option error)
| EvUpdateStatus (m : Message) (err : option error)
| EvCacheSet (key value : string) (ttl : Duration) (err : option error)
| EvGo (workerID start : Z)
| EvLog (l : LogLine).

Record Exec (W : Type) := { world : W; trace : list Event }.
Arguments world {W}.
Arguments trace {W}.
Arguments Build_Exec {W}.

(** A state monad over [Exec W]. *)
Definition M (W A : Type) : Type := Exec W -> A * Exec W.

Definition ret {W A} (a : A) : M W A := fun x => (a, x).

Definition bind {W A B} (c : M W A) (k : A -> M W B) : M W B :=
  fun x => let '(a, x') := c x in k a x'.

Definition emit {W} (e : Event) : M W unit :=
  fun x => (tt, {| world := world x; trace := trace x ++ [e] |}).

Definition logf {W} (l : LogLine) : M W unit := emit (EvLog l).

(** Run a collaborator call on the world. *)
Definition call {W A} (f : W -> A * W) : M W A :=
  fun x => let '(a, w) := f (world x) in
           (a, {| world := w; trace := trace x |}).

Definition timeNow {W C} (rt : Runtime W C) : M W Z :=
  fun x => (Now rt (world x), x).

Declare Scope go_scope.
Delimit Scope go_scope with go.
Notation "x <- c ;; k" := (bind c (fun x => k))
  (at level 100, c at next level, right associativity) : go_scope.
Notation "c ;; k" := (bind c (fun _ => k))
  (at level 100, right associativity) : go_scope.

Section WithWorld.
Context {W C : Type}.
Local Open Scope go_scope.

Definition callGetPending (s : messageService W C) (ctx : C) (limit : Z)
    : M W (list Message * option error) :=
  r <- call (GetPending (repo s) ctx limit) ;;
  emit (EvGetPending limit (length (fst r)) (snd r)) ;;
  ret r.

Definition callSend (s : messageService W C) (ctx : C) (to content : string)
    : M W (string * string * option error) :=
  r <- call (Send (smsClient s) ctx to content) ;;
  let '(externalID, raw, err) := r in
  emit (EvSend to content externalID raw err) ;;
  ret (externalID, raw, err).

Definition callUpdateStatus (s : messageService W C) (ctx : C) (m : Message)
    : M W (option error) :=
  err <- call (UpdateStatus (repo s) ctx m) ;;
  emit (EvUpdateStatus m err) ;;
  ret err.

Definition callCacheSet (c : Cache W C) (ctx : C)
    (key value : string) (ttl : Duration) : M W (option error) :=
  err <- call (Set_ c ctx key value ttl) ;;
  emit (EvCacheSet key value ttl err) ;;
  ret err.

(** [processMessage]; the message behind the pointer is returned with
    the error. *)
Definition processMessage (s : messageService W C) (ctx : C) (msg : Message)
    : M W (option error * Message) :=
  let id := ID msg in
  r <- callSend s ctx (To msg) (Content msg) ;;
  let '(externalID, rawResp, err) := r in
  match err with
  | Some e =>
      logf (LogSendFailed id e) ;;
      let msg := MarkFailed rawResp msg in
      uErr <- callUpdateStatus s ctx msg ;;
      match uErr with
      | Some ue => logf (LogPersistFailedStatus id ue)
      | None => ret tt
      end ;;
      ret (Some ("send message " +:+ id +:+ ": " +:+ e), msg)
  | None =>
      now <- timeNow (runtime s) ;;
      let msg := MarkSent now externalID rawResp msg in
      err <- callUpdateStatus s ctx msg ;;
      match err with
      | Some e =>
          logf (LogPersistSuccessStatus id e) ;;
          ret (Some ("update status for " +:+ id +:+ ": " +:+ e), msg)
      | None =>
          match cache s with
          | Some c =>
              if decide (externalID <> "") then
                now' <- timeNow (runtime s) ;;
                let sentAt :=
                  match SentAt msg with
                  | Some t => FormatRFC3339 (runtime s) t
                  | None => FormatRFC3339 (runtime s) now'
                  end in
                let key := CacheKeys.Key CacheKeys.SentMessages externalID in
                cErr <- callCacheSet c ctx key sentAt (24 * Hour) ;;
                match cErr with
                | Some e => logf (LogCacheFailed externalID e)
                | None => ret tt
                end
              else ret tt
          | None => ret tt
          end ;;
          ret (None, msg)
      end
  end.

(** The events added between two states of an execution. *)
Definition since (x x' : Exec W) : list Event :=
  drop (length (trace x)) (trace x').

Definition isCacheSet (e : Event) : bool :=
  match e with
  | EvCacheSet _ _ _ _ => true
  | _ => false
  end.

(** *** The worker pool *)

(** "Decide how many workers we need for this batch": [n] is
    [len(messages)]. *)
Definition workerCount (n maxWorkers : Z) : Z :=
  let workerCount := n in
  let workerCount :=
    if decide (workerCount > maxWorkers) then maxWorkers else workerCount in
  let workerCount :=
    if decide (workerCount <= 0) then 1 else workerCount in
  workerCount.

(** The indices a worker is assigned: those visited by its loop header
    [for i := start; i < n; i += workerCount].  [None] when the fuel runs
    out before the loop condition fails. *)
Fixpoint strideFrom (fuel : nat) (i n workerCount : Z) : option (list Z) :=
  match fuel with
  | O => None
  | S fuel =>
      if decide (i < n) then
        cons i <$> strideFrom fuel (wrap64 (i + workerCount)) n workerCount
      else Some []
  end.

(** The goroutine started as [go func(workerID, start int){...}(w+1, w)]
    for loop variable [w]. *)
Definition stride (w n workerCount : Z) : option (list Z) :=
  strideFrom (S (Z.to_nat n)) w n workerCount.

(** The ceiling of [a / b], for positive [b]. *)
Definition ceilDiv (a b : Z) : Z := (a + b - 1) / b.

(** Number of turns of that loop from [i] on. *)
Definition turns (i n workerCount : Z) : Z :=
  Z.max 0 (ceilDiv (n - i) workerCount).

(** All indices handed out, worker by worker. *)
Definition assignment (n workerCount : Z) : list Z :=
  seqZ 0 workerCount ≫= (fun w => default [] (stride w n workerCount)).

(** A bound no Go slice of pointers reaches; below it the additions
    [i += workerCount] do not overflow. *)
Definition maxLen : Z := 2 ^ 62.

(** A worker goroutine: its id, its loop variable [i], and whether it has
    returned (and so called [wg.Done]).  [visited] is bookkeeping that the
    code does not have: the indices whose items this worker has taken up, in
    order. *)
Record worker := {
  workerID : Z;
  next : Z;
  exited : bool;
  visited : list Z
}.

(** The shared state of a batch: the [messages] slice (each element is
    written by the worker that processes it), the goroutines, the effects so
    far, and whether a goroutine has panicked on an index out of range. *)
Record pool := {
  messages : list Message;
  workers : list worker;
  exec : Exec W;
  panicked : bool
}.

Definition exit (wk : worker) : worker :=
  {| workerID := workerID wk; next := next wk; exited := true;
     visited := visited wk |}.

(** One turn of worker number [k] (position in [workers]): the loop
    condition and, if it holds, one execution of the loop body. *)
Definition workerIter (s : messageService W C) (ctx : C) (workerCount : Z)
    (k : nat) (p : pool) : pool :=
  match workers p !! k with
  | None => p
  | Some wk =>
      if exited wk then p
      else
        let i := next wk in
        if decide (i < Z.of_nat (length (messages p))) then
          if ctxErr (runtime s) ctx (world (exec p)) then
            let '(_, x) := logf (LogWorkerCancelled (workerID wk)) (exec p) in
            {| messages := messages p;
               workers := <[k := exit wk]> (workers p);
               exec := x; panicked := panicked p |}
          else
            match (if decide (0 <= i) then messages p !! Z.to_nat i
                   else None) with
            | None =>
                {| messages := messages p;
                   workers := <[k := exit wk]> (workers p);
                   exec := exec p; panicked := true |}
            | Some msg =>
                let msgCtx :=
                  WithTimeout (runtime s) ctx (perMessageTimeout s)
                    (world (exec p)) in
                let '(r, x) :=
                  (logf (LogWorkerIsProcessing i) ;;
                   r <- processMessage s msgCtx msg ;;
                   match fst r with
                   | Some e => logf (LogWorkerFailed (workerID wk) (ID msg) e)
                   | None => ret tt
                   end ;;
                   ret r) (exec p) in
                {| messages := <[Z.to_nat i := snd r]> (messages p);
                   workers :=
                     <[k := {| workerID := workerID wk;
                               next := wrap64 (i + workerCount);
                               exited := false;
                               visited := visited wk ++ [i] |}]> (workers p);
                   exec := x; panicked := panicked p |}
            end
        else
          {| messages := messages p;
             workers := <[k := exit wk]> (workers p);
             exec := exec p; panicked := panicked p |}
  end.

(** [for w := 0; w < workerCount; w++ { wg.Add(1); go func(...)(w+1, w) }] *)
Definition spawn (workerCount : Z) (msgs : list Message) (x : Exec W) : pool :=
  {| messages := msgs;
     workers :=
       (fun w => {| workerID := w + 1; next := w; exited := false;
                    visited := [] |})
         <$> seqZ 0 workerCount;
     exec :=
       {| world := world x;
          trace := trace x ++ ((fun w => EvGo (w + 1) w) <$> seqZ 0 workerCount) |};
     panicked := false |}.

(** The goroutines run in some interleaving; [sched] lists which worker takes
    the next turn.  A turn, one pass through the loop of a worker, is taken
    as a whole. *)
Definition runSchedule (s : messageService W C) (ctx : C) (workerCount : Z)
    (sched : list nat) (p : pool) : pool :=
  foldl (fun p k => workerIter s ctx workerCount k p) p sched.

Fixpoint runWorker (s : messageService W C) (ctx : C) (workerCount : Z)
    (fuel : nat) (k : nat) (p : pool) : pool :=
  match fuel with
  | O => p
  | S fuel => runWorker s ctx workerCount fuel k (workerIter s ctx workerCount k p)
  end.

(** [wg.Wait()]: the caller blocks while the goroutines that have not
    returned yet take their remaining turns. *)
Definition wait (s : messageService W C) (ctx : C) (workerCount : Z)
    (p : pool) : pool :=
  foldl (fun p k => runWorker s ctx workerCount (S (length (messages p))) k p)
    p (seq 0 (length (workers p))).

Definition joined (p : pool) : Prop :=
  Forall (fun wk => exited wk = true) (workers p).

Definition noPool (x : Exec W) : pool :=
  {| messages := []; workers := []; exec := x; panicked := false |}.

(** [ProcessBatch], for the interleaving that starts with [sched]. *)
Definition ProcessBatch (s : messageService W C) (ctx : C) (sched : list nat)
    (w : W) : option error * pool :=
  let batchSize := batchSize s in
  let maxWorkers := maxWorkers s in
  let '((msgs, err), x) :=
    callGetPending s ctx batchSize {| world := w; trace := [] |} in
  match err with
  | Some e => (Some ("failed to fetch pending messages: " +:+ e), noPool x)
  | None =>
      if decide (length msgs = 0%nat) then
        let '(_, x) := logf LogNoPending x in
        (None, noPool x)
      else
        let n := Z.of_nat (length msgs) in
        let '(_, x) := logf (LogProcessing n batchSize maxWorkers) x in
        let workerCount := workerCount n maxWorkers in
        let p := spawn workerCount msgs x in
        let p := runSchedule s ctx workerCount sched p in
        let p := wait s ctx workerCount p in
        let '(_, x) := logf LogPoolCompleted (exec p) in
        (None, {| messages := messages p; workers := workers p;
                  exec := x; panicked := panicked p |})
  end.

(** The pool of a batch of [n] messages is in order: the slice keeps its
    length, no loop variable is negative, and nothing has panicked. *)
Definition wf (n : Z) (p : pool) : Prop :=
  Z.of_nat (length (messages p)) = n /\
  Forall (fun wk => 0 <= next wk) (workers p) /\
  panicked p = false.

(** Worker number [k] has returned. *)
Definition exitedAt (p : pool) (k : nat) : Prop :=
  exists wk, workers p !! k = Some wk /\ exited wk = true.

(** Item [i], fetched as [m0], is now Failed with a raw response that a
    failing [Send] for it returned, and [UpdateStatus] was called with it;
    if that call failed, the failure was logged. *)
Definition failedAt (p : pool) (i : nat) (m0 : Message) : Prop :=
  exists externalID raw e uErr,
    messages p !! i = Some (MarkFailed raw m0) /\
    EvSend (To m0) (Content m0) externalID raw (Some e) ∈ trace (exec p) /\
    EvUpdateStatus (MarkFailed raw m0) uErr ∈ trace (exec p) /\
    (forall ue, uErr = Some ue ->
       EvLog (LogPersistFailedStatus (ID m0) ue) ∈ trace (exec p)).

(** Item [i] was taken up by a worker. *)
Definition processed (p : pool) (i : nat) : Prop :=
  EvLog (LogWorkerIsProcessing (Z.of_nat i)) ∈ trace (exec p).

(** Of the fetched [msgs], those taken up so far are Failed and the others
    untouched. *)
Definition failedSoFar (msgs : list Message) (p : pool) : Prop :=
  forall i,
    (processed p i -> (i < length msgs)%nat) /\
    (forall m0, msgs !! i = Some m0 ->
       (messages p !! i = Some m0 /\ ~ processed p i) \/
       (processed p i /\ failedAt p i m0)).

(** The success path as the specification words it: after every
    successful [Send] the item is Success with the transport's identifier
    and raw response, [UpdateStatus] is called with it, and then a cache
    record [sent_messages:<externalID>] with a 24-hour expiry is written. *)
Definition cached_after_every_successful_send (s : messageService W C)
    (ctx : C) (msg : Message) (x : Exec W) : Prop :=
  forall externalID raw w1,
    Send (smsClient s) ctx (To msg) (Content msg) (world x)
      = ((externalID, raw, None), w1) ->
    let r := processMessage s ctx msg x in
    Status_ (snd (fst r)) = StatusSuccess /\
    MessageID (snd (fst r)) = externalID /\
    RawResponse (snd (fst r)) = raw /\
    (exists uErr, EvUpdateStatus (snd (fst r)) uErr ∈ since x (snd r)) /\
    (exists value cErr,
       EvCacheSet ("sent_messages:" +:+ externalID) value (24 * Hour) cErr
         ∈ since x (snd r)).

(** The parent context is never cancelled and never expires. *)
Definition neverCancelled (s : messageService W C) (ctx : C) : Prop :=
  forall w, ctxErr (runtime s) ctx w = false.

(** The first [c] indices of the stride of worker number [k]. *)
Definition strideTake (k workerCount c : Z) : list Z :=
  (fun j => k + j * workerCount) <$> seqZ 0 c.

(** Worker number [k] is on its stride: after some [c] turns of its loop
    body it has taken up the first [c] indices of the stride, all below
    [n], every one of them is logged, and if it has returned its loop
    variable has passed [n]. *)
Definition onStride (workerCount n : Z) (p : pool) (k : nat) (wk : worker)
  : Prop :=
  exists c,
    0 <= c /\
    next wk = Z.of_nat k + c * workerCount /\
    visited wk = strideTake (Z.of_nat k) workerCount c /\
    (0 < c -> Z.of_nat k + (c - 1) * workerCount < n) /\
    (exited wk = true -> n <= next wk) /\
    (forall z, z ∈ visited wk ->
       EvLog (LogWorkerIsProcessing z) ∈ trace (exec p)).

Definition allOnStride (workerCount n : Z) (p : pool) : Prop :=
  forall k wk, workers p !! k = Some wk -> onStride workerCount n p k wk.

(** Every [Send] fails. *)
Definition transportAlwaysFails (s : messageService W C) : Prop :=
  forall ctx to content w,
    exists externalID raw e w',
      Send (smsClient s) ctx to content w = ((externalID, raw, Some e), w').

(** The indices taken up according to the log, in order. *)
Definition procLog (t : list Event) : list Z :=
  omap (fun e => match e with
                 | EvLog (LogWorkerIsProcessing i) => Some i
                 | _ => None
                 end) t.

Definition isSend (e : Event) : bool :=
  match e with
  | EvSend _ _ _ _ _ => true
  | _ => false
  end.

(** Number of calls of [Send]. *)
Definition sends (t : list Event) : nat := length (List.filter isSend t).

(** A call made for an item: transport, persistence or cache. *)
Definition isItemCall (e : Event) : bool :=
  match e with
  | EvSend _ _ _ _ _ | EvUpdateStatus _ _ | EvCacheSet _ _ _ _ => true
  | _ => false
  end.

(** The parent context is cancelled, or past its deadline, throughout. *)
Definition alwaysCancelled (s : messageService W C) (ctx : C) : Prop :=
  forall w, ctxErr (runtime s) ctx w = true.

(** [m] is [m0] with nothing but its outcome changed. *)
Definition evolved (m0 m : Message) : Prop :=
  ID m = ID m0 /\ To m = To m0 /\ Content m = Content m0 /\
  CreatedAt m = CreatedAt m0 /\ UpdatedAt m = UpdatedAt m0 /\
  (m = m0 \/ Status_ m = StatusSuccess \/ Status_ m = StatusFailed).

(** Item [i], fetched as [m0], has been put through [Send] once, is marked
    by what that call returned, and [UpdateStatus] was called with it as it
    is now. *)
Definition settledAt (p : pool) (i : nat) (m0 : Message) : Prop :=
  exists externalID raw err uErr m,
    messages p !! i = Some m /\
    EvSend (To m0) (Content m0) externalID raw err ∈ trace (exec p) /\
    EvUpdateStatus m uErr ∈ trace (exec p) /\
    match err with
    | Some _ => m = MarkFailed raw m0
    | None => exists now, m = MarkSent now externalID raw m0
    end.

(** Of the fetched [msgs], those taken up so far are settled and the others
    untouched. *)
Definition settledSoFar (msgs : list Message) (p : pool) : Prop :=
  forall i m0, msgs !! i = Some m0 ->
    (messages p !! i = Some m0 /\ ~ processed p i) \/
    (processed p i /\ settledAt p i m0).

(** Every worker is somewhere on its stride, and the log lists the indices
    taken up, each once. *)
Definition tracked (workerCount n : Z) (p : pool) : Prop :=
  Z.of_nat (length (workers p)) = workerCount /\
  (forall k wk, workers p !! k = Some wk ->
     exists c, 0 <= c /\ next wk = Z.of_nat k + c * workerCount /\
               visited wk = strideTake (Z.of_nat k) workerCount c) /\
  NoDup (procLog (trace (exec p))) /\
  (forall i, i ∈ procLog (trace (exec p)) ->
     0 <= i < n /\
     exists k wk, workers p !! k = Some wk /\ i ∈ visited wk) /\
  sends (trace (exec p)) = length (procLog (trace (exec p))).

End WithWorld.

Arguments pool : clear implicits.

End Service.

(** ** internal/scheduler: the owning loop and its callers *)

Module Scheduler.

Definition DefaultInterval : Duration := 2 * Minute.
Definition DefaultBatchTimeout : Duration := 30 * Second.
Definition controlTimeout : Duration := 2 * Second.

Inductive controlOp := opStart | opStop | opStatus.

(** A reply channel [make(chan bool)], known by its identity. *)
Definition chan := nat.

Record controlMsg := { op : controlOp; resp : chan }.

(** The configuration fields of [schedulerService]. *)
Record schedulerService := { interval : Duration; batchTimeout : Duration }.

Definition NewSchedulerService (interval batchTimeout : Duration)
  : schedulerService :=
  let interval := if decide (interval <= 0) then DefaultInterval else interval in
  let batchTimeout :=
    if decide (batchTimeout <= 0) then DefaultBatchTimeout else batchTimeout in
  {| interval := interval; batchTimeout := batchTimeout |}.

(** *** The loop's turns

    The local variables of [loop], and what each [select] case does to
    them.  A turn also yields the values it sends on reply channels. *)

Record loopVars := {
  running : bool;
  inBatch : bool;
  pendingStop : option chan
}.

Definition loopInit : loopVars :=
  {| running := false; inBatch := false; pendingStop := None |}.

(** [case msg := <-s.ctrl] *)
Definition onCtrl (v : loopVars) (msg : controlMsg)
  : loopVars * list (chan * bool) :=
  match op msg with
  | opStart =>
      ({| running := true; inBatch := inBatch v;
          pendingStop := pendingStop v |},
       [(resp msg, true)])
  | opStop =>
      if negb (running v) && negb (inBatch v) then (v, [(resp msg, true)])
      else if inBatch v then
        ({| running := false; inBatch := inBatch v;
            pendingStop := Some (resp msg) |}, [])
      else
        ({| running := false; inBatch := inBatch v;
            pendingStop := pendingStop v |},
         [(resp msg, true)])
  | opStatus => (v, [(resp msg, running v)])
  end.

(** [case <-ticker.C], up to the call of [ProcessBatch]: [None] when the
    tick is ignored ([continue]). *)
Definition onTick (v : loopVars) : option loopVars :=
  if negb (running v) || inBatch v then None
  else Some {| running := running v; inBatch := true;
               pendingStop := pendingStop v |}.

(** The rest of the tick case, after [ProcessBatch] has returned [err]
    (which is only logged). *)
Definition onBatchReturn (v : loopVars) (err : option error)
  : loopVars * list (chan * bool) :=
  match pendingStop v with
  | Some c =>
      ({| running := running v; inBatch := false; pendingStop := None |},
       [(c, true)])
  | None =>
      ({| running := running v; inBatch := false;
          pendingStop := pendingStop v |}, [])
  end.

(** *** The loop goroutine together with a calling goroutine

    One goroutine calls Start, Stop and IsRunning, one call after the other;
    the channels are unbuffered, so a send and its receive happen together.
    Time is explicit, in nanoseconds.  The loop is either blocked in its
    [select], inside the synchronous call of [ProcessBatch] (which will take
    [remaining] more time), or blocked forever sending a reply nobody
    receives. *)

Inductive loopPc :=
| AtSelect
| InProcessBatch (remaining : Duration)
| BlockedOnReply (c : chan).

Inductive result :=
| RetNil
| RetErr (e : error)
| RetBool (b : bool).

(** The caller: not in a call, blocked in [s.ctrl <- msg] or in [<-resp]
    for [waited] so far, or returned after having been blocked for
    [waited] in its last blocking operation. *)
Inductive callPc :=
| Idle
| Sending (m : controlMsg) (waited : Duration)
| Awaiting (m : controlMsg) (waited : Duration)
| Returned (m : controlMsg) (r : result) (waited : Duration).

(** [started] and [finished] count the calls of [ProcessBatch] and their
    returns; batch number [started] is the one executing.  [calledDuring]
    remembers, for the caller's current call, the batch that was executing
    when the call began and how long it still had to run.  [held] lists the
    reply channels the loop has received and not yet answered;
    [stopDuring] tells whether a Stop was received since the current batch
    began. *)
Record system := {
  vars : loopVars;
  pc : loopPc;
  client : callPc;
  nextChan : chan;
  started : nat;
  finished : nat;
  calledDuring : option (nat * Duration);
  held : list chan;
  stopDuring : bool
}.

Definition init : system :=
  {| vars := loopInit; pc := AtSelect; client := Idle; nextChan := 0%nat;
     started := 0; finished := 0; calledDuring := None; held := [];
     stopDuring := false |}.

Inductive event :=
| EvCall (o : controlOp)       (* the caller enters Start, Stop or IsRunning *)
| EvAccept                     (* the loop receives the caller's message *)
| EvTimeout                    (* a [time.After(controlTimeout)] case fires *)
| EvTick (d : Duration)        (* the loop receives from [ticker.C]; the
                                  batch it may start runs for [d] *)
| EvElapse (dt : Duration)     (* time passes *)
| EvBatchReturn (err : option error). (* [ProcessBatch] returns *)

(** What the caller's function returns when [b] arrives on its reply
    channel. *)
Definition onReply (o : controlOp) (b : bool) : result :=
  match o with
  | opStart | opStop => RetNil
  | opStatus => RetBool b
  end.

(** The loop sends its replies: a reply is taken by the caller blocked on
    that channel; otherwise the send blocks the loop for good (the channels
    are unbuffered). *)
Fixpoint deliver (rs : list (chan * bool)) (pc : loopPc) (cl : callPc)
  : loopPc * callPc :=
  match rs with
  | [] => (pc, cl)
  | (c, b) :: rs =>
      match pc, cl with
      | AtSelect, Awaiting m w =>
          if decide (resp m = c)
          then deliver rs pc (Returned m (onReply (op m) b) w)
          else (BlockedOnReply c, cl)
      | AtSelect, _ => (BlockedOnReply c, cl)
      | _, _ => (pc, cl)
      end
  end.

Definition answered (rs : list (chan * bool)) (c : chan) : bool :=
  bool_decide (c ∈ rs.*1).

(** Only Start and Stop guard their channel operations with
    [time.After(controlTimeout)]. *)
Definition hasTimeout (o : controlOp) : bool :=
  match o with
  | opStart | opStop => true
  | opStatus => false
  end.

Definition timeoutError (o : controlOp) (sending : bool) : error :=
  match o, sending with
  | opStart, true => "[Scheduler] Start: control loop not responding"
  | opStart, false => "[Scheduler] Start: acknowledgement timeout"
  | _, true => "[Scheduler] Stop: control loop not responding"
  | _, false => "[Scheduler] Stop: acknowledgement timeout"
  end.

(** A blocked caller's wait after [dt] more time; a pending timeout fires
    no later than [controlTimeout] after the operation began. *)
Definition waitMore (cl : callPc) (dt : Duration) : option callPc :=
  match cl with
  | Sending m w =>
      if hasTimeout (op m) && bool_decide (controlTimeout < w + dt) then None
      else Some (Sending m (w + dt))
  | Awaiting m w =>
      if hasTimeout (op m) && bool_decide (controlTimeout < w + dt) then None
      else Some (Awaiting m (w + dt))
  | _ => Some cl
  end.

Definition step (s : system) (e : event) : option system :=
  match e with
  | EvCall o =>
      match client s with
      | Idle | Returned _ _ _ =>
          Some {| vars := vars s; pc := pc s;
                  client := Sending {| op := o; resp := nextChan s |} 0;
                  nextChan := S (nextChan s);
                  started := started s; finished := finished s;
                  calledDuring :=
                    match pc s with
                    | InProcessBatch r => Some (started s, r)
                    | _ => None
                    end;
                  held := held s; stopDuring := stopDuring s |}
      | _ => None
      end
  | EvAccept =>
      match pc s, client s with
      | AtSelect, Sending m _ =>
          let '(v, rs) := onCtrl (vars s) m in
          let '(pc', cl) := deliver rs AtSelect (Awaiting m 0) in
          Some {| vars := v; pc := pc'; client := cl;
                  nextChan := nextChan s;
                  started := started s; finished := finished s;
                  calledDuring := calledDuring s;
                  held := filter (fun c => answered rs c = false)
                            (resp m :: held s);
                  stopDuring :=
                    match op m with
                    | opStop => stopDuring s || inBatch (vars s)
                    | _ => stopDuring s
                    end |}
      | _, _ => None
      end
  | EvTimeout =>
      match client s with
      | Sending m w =>
          if hasTimeout (op m) && bool_decide (controlTimeout <= w) then
            Some {| vars := vars s; pc := pc s;
                    client := Returned m (RetErr (timeoutError (op m) true)) w;
                    nextChan := nextChan s;
                    started := started s; finished := finished s;
                    calledDuring := calledDuring s;
                    held := held s; stopDuring := stopDuring s |}
          else None
      | Awaiting m w =>
          if hasTimeout (op m) && bool_decide (controlTimeout <= w) then
            Some {| vars := vars s; pc := pc s;
                    client := Returned m (RetErr (timeoutError (op m) false)) w;
                    nextChan := nextChan s;
                    started := started s; finished := finished s;
                    calledDuring := calledDuring s;
                    held := held s; stopDuring := stopDuring s |}
          else None
      | _ => None
      end
  | EvTick d =>
      match pc s with
      | AtSelect =>
          match onTick (vars s) with
          | None => Some s
          | Some v =>
              if bool_decide (0 <= d) then
                Some {| vars := v; pc := InProcessBatch d; client := client s;
                        nextChan := nextChan s;
                        started := S (started s); finished := finished s;
                        calledDuring := calledDuring s;
                        held := held s; stopDuring := false |}
              else None
          end
      | _ => None
      end
  | EvElapse dt =>
      if bool_decide (0 < dt) then
        match waitMore (client s) dt with
        | None => None
        | Some cl =>
            match pc s with
            | InProcessBatch r =>
                if bool_decide (dt <= r) then
                  Some {| vars := vars s; pc := InProcessBatch (r - dt);
                          client := cl; nextChan := nextChan s;
                          started := started s; finished := finished s;
                          calledDuring := calledDuring s;
                          held := held s; stopDuring := stopDuring s |}
                else None
            | _ =>
                Some {| vars := vars s; pc := pc s;
                        client := cl; nextChan := nextChan s;
                        started := started s; finished := finished s;
                        calledDuring := calledDuring s;
                        held := held s; stopDuring := stopDuring s |}
            end
        end
      else None
  | EvBatchReturn err =>
      match pc s with
      | InProcessBatch r =>
          if bool_decide (r = 0) then
            let '(v, rs) := onBatchReturn (vars s) err in
            let '(pc', cl) := deliver rs AtSelect (client s) in
            Some {| vars := v; pc := pc'; client := cl;
                    nextChan := nextChan s;
                    started := started s; finished := S (finished s);
                    calledDuring := calledDuring s;
                    held := filter (fun c => answered rs c = false) (held s);
                    stopDuring := stopDuring s |}
          else None
      | _ => None
      end
  end.

(** Run a sequence of events; [None] if one of them cannot happen. *)
Fixpoint run (s : system) (tr : list event) : option system :=
  match tr with
  | [] => Some s
  | e :: tr =>
      match step s e with
      | None => None
      | Some s' => run s' tr
      end
  end.

Definition reachable (s : system) : Prop := exists tr, run init tr = Some s.

(** The number of batches executing. *)
Definition active (s : system) : nat := (started s - finished s)%nat.

(** Whether the caller is blocked in a channel operation of a call, and
    for how long. *)
Definition blocked (s : system) : option (controlMsg * Duration) :=
  match client s with
  | Sending m w | Awaiting m w => Some (m, w)
  | _ => None
  end.

(** The invariant of the specification's data model: a stop-ack is held
    only during a batch in which a Stop was requested. *)
Definition heldOnlyInBatch (s : system) : Prop :=
  pendingStop (vars s) <> None ->
  inBatch (vars s) = true /\ stopDuring s = true.

(** What is true of the caller's current call when it began while batch
    number [b], with [d0] left to run, was executing and that batch has not
    returned yet. *)
Definition callInv (s : system) : Prop :=
  match calledDuring s with
  | None => True
  | Some (b, d0) =>
      (b <= started s)%nat /\
      ((finished s < b)%nat ->
       match client s with
       | Idle => True
       | Sending m w => exists r, pc s = InProcessBatch r /\ r + w = d0
       | Awaiting m w => False
       | Returned m res w =>
           (exists e, res = RetErr e) /\ controlTimeout <= w <= d0
       end)
  end.

(** What holds in every reachable state. *)
Definition Inv (s : system) : Prop :=
  pendingStop (vars s) = None /\ held s = [] /\ stopDuring s = false /\
  match pc s with
  | AtSelect => inBatch (vars s) = false /\ started s = finished s
  | InProcessBatch r =>
      inBatch (vars s) = true /\ 0 <= r /\ started s = S (finished s)
  | BlockedOnReply _ => False
  end /\
  callInv s.

(** The two temporal claims as the specification words them.  A Stop
    issued during a batch has not returned while that batch is executing;
    and a caller of IsRunning is never blocked for longer than
    [controlTimeout]. *)
Definition Stop_outlasts_batch : Prop :=
  forall s, reachable s ->
    forall m res w b d0,
      client s = Returned m res w -> op m = opStop ->
      calledDuring s = Some (b, d0) -> (b <= finished s)%nat.

Definition IsRunning_bounded : Prop :=
  forall s, reachable s ->
    forall m w, blocked s = Some (m, w) -> op m = opStatus ->
      w <= controlTimeout.

(** What holds of the caller in every reachable state: it is never left
    waiting for an acknowledgement, a call with a timeout has been blocked
    for at most [controlTimeout], and an error comes from the first
    [select] of Start or Stop, exactly at [controlTimeout]. *)
Definition ackInv (s : system) : Prop :=
  match client s with
  | Idle => True
  | Sending m w =>
      0 <= w /\ (hasTimeout (op m) = true -> w <= controlTimeout)
  | Awaiting _ _ => False
  | Returned m res w =>
      match res with
      | RetErr e =>
          hasTimeout (op m) = true /\ e = timeoutError (op m) true /\
          w = controlTimeout
      | RetNil => hasTimeout (op m) = true
      | RetBool _ => op m = opStatus
      end
  end.

(** The value of [running] that a call of [o] leaves behind when the loop
    has served it. *)
Definition runningAfter (o : controlOp) (before : bool) : bool :=
  match o with
  | opStart => true
  | opStop => false
  | opStatus => before
  end.

(** What the call on reply channel [c0], of operation [o], begun when
    [running] was [r0], has done so far. *)
Definition callTrack (o : controlOp) (c0 : chan) (r0 : bool) (s : system)
  : Prop :=
  (c0 < nextChan s)%nat /\
  match client s with
  | Idle => True
  | Sending m w => resp m = c0 -> op m = o /\ running (vars s) = r0
  | Awaiting m w => resp m <> c0
  | Returned m res w =>
      resp m = c0 ->
      op m = o /\
      match res with
      | RetErr _ => running (vars s) = r0
      | RetNil =>
          o <> opStatus /\ running (vars s) = runningAfter o r0 /\
          (o = opStop -> pc s = AtSelect)
      | RetBool b =>
          o = opStatus /\ b = r0 /\ running (vars s) = r0
      end
  end.

(** *** The loop together with its ticker

    [time.NewTicker(s.interval)] fires every [interval] and delivers on
    [ticker.C], which holds one tick: a tick that fires while one is held is
    dropped by the runtime, and a held tick stays until the loop receives
    it.  [untilFire] is the time left to the next firing. *)
Record tsystem := {
  sys : system;
  tickHeld : bool;
  untilFire : Duration
}.

Definition tinit (cfg : schedulerService) : tsystem :=
  {| sys := init; tickHeld := false; untilFire := interval cfg |}.

Inductive tevent :=
| TFire                 (* the ticker fires *)
| TRecv (d : Duration)  (* the loop takes [case <-ticker.C]; the batch it
                           may start runs for [d] *)
| TEv (e : event).      (* an event of the loop and its caller, or time
                           passing *)

Definition tstep (cfg : schedulerService) (t : tsystem) (e : tevent)
  : option tsystem :=
  match e with
  | TFire =>
      if bool_decide (untilFire t = 0) then
        Some {| sys := sys t; tickHeld := true; untilFire := interval cfg |}
      else None
  | TRecv d =>
      if tickHeld t then
        match step (sys t) (EvTick d) with
        | Some s' =>
            Some {| sys := s'; tickHeld := false; untilFire := untilFire t |}
        | None => None
        end
      else None
  | TEv (EvTick _) => None
  | TEv (EvElapse dt) =>
      if bool_decide (dt <= untilFire t) then
        match step (sys t) (EvElapse dt) with
        | Some s' =>
            Some {| sys := s'; tickHeld := tickHeld t;
                    untilFire := untilFire t - dt |}
        | None => None
        end
      else None
  | TEv e =>
      match step (sys t) e with
      | Some s' =>
          Some {| sys := s'; tickHeld := tickHeld t;
                  untilFire := untilFire t |}
      | None => None
      end
  end.

Fixpoint trun (cfg : schedulerService) (t : tsystem) (tr : list tevent)
  : option tsystem :=
  match tr with
  | [] => Some t
  | e :: tr =>
      match tstep cfg t e with
      | Some t' => trun cfg t' tr
      | None => None
      end
  end.

Definition treachable (cfg : schedulerService) (t : tsystem) : Prop :=
  exists tr, trun cfg (tinit cfg) tr = Some t.

(** The claim about ticks during a batch, as the specification words it: a
    tick that fires while a batch is executing is dropped and never queued,
    so unless the ticker fires again no batch starts after it. *)
Definition tick_during_batch_dropped : Prop :=
  forall cfg t, treachable cfg t ->
    (exists r, pc (sys t) = InProcessBatch r) ->
    forall tr t', trun cfg t (TFire :: tr) = Some t' -> TFire ∉ tr ->
      started (sys t') = started (sys t).

(** The caller is not in the middle of handing a Start to the loop. *)
Definition notStarting (s : system) : Prop :=
  match client s with
  | Sending m _ => op m <> opStart
  | _ => True
  end.

End Scheduler.

(** ** cmd/api: wiring of configuration into the two services *)

Module Main.
Import Service Scheduler.

(** [main]: the configuration is loaded once and its values are passed to
    the two constructors. *)
Definition wire {W C} (rt : Runtime W C) (repo : Repository W C)
    (smsClient : SmsClient W C) (cache : option (Cache W C))
    (L : Config.Lib) (env : gmap string string)
  : messageService W C * schedulerService :=
  let cfg := Config.New L env in
  let msgSvc :=
    NewMessageService rt repo smsClient cache
      (Config.BatchSize (Config.Worker cfg))
      (Config.MaxWorkers (Config.Worker cfg))
      (Config.PerMessageTimeout (Config.Worker cfg)) in
  let cron :=
    NewSchedulerService
      (Config.Interval (Config.Scheduler cfg))
      (Config.BatchTimeout (Config.Scheduler cfg)) in
  (msgSvc, cron).

(** The five settings in force after start-up. *)
Record settings := {
  tickInterval : Duration;
  batchDeadline : Duration;
  batchSize_ : Z;
  maxWorkers_ : Z;
  perItemTimeout : Duration
}.

Definition effective {W C} (p : messageService W C * schedulerService)
  : settings :=
  {| tickInterval := interval (snd p);
     batchDeadline := batchTimeout (snd p);
     batchSize_ := batchSize (fst p);
     maxWorkers_ := maxWorkers (fst p);
     perItemTimeout := perMessageTimeout (fst p) |}.

(** The defaults as the specification lists them: each of the five
    settings falls back to the listed value when its variable is unset or
    does not parse. *)
Definition defaults_as_specified (eff : settings) (L : Config.Lib)
    (env : gmap string string) : Prop :=
  (Config.unusable L (Config.ParseDuration L) env "SCHEDULER_INTERVAL" ->
     tickInterval eff = 2 * Minute) /\
  (Config.unusable L (Config.ParseDuration L) env "SCHEDULER_BATCH_TIMEOUT" ->
     batchDeadline eff = 30 * Second) /\
  (Config.unusable L (Config.Atoi L) env "MESSAGE_BATCH_SIZE" ->
     batchSize_ eff = 100) /\
  (Config.unusable L (Config.Atoi L) env "MESSAGE_MAX_WORKERS" ->
     maxWorkers_ eff = 4) /\
  (Config.unusable L (Config.ParseDuration L) env "MESSAGE_PER_MESSAGE_TIMEOUT" ->
     perItemTimeout eff = 5 * Second).

End Main.

(** ** internal/sms: the webhook client *)

Module Sms.

(** [request.WebhookRequest] and [response.WebhookResponse]. *)
Record WebhookRequest := { To : string; Content : string }.
Record WebhookResponse := { Message : string; MessageID : string }.

Inductive Method := MethodGet | MethodPost.

(** What [Send] uses of packages [context], [encoding/json],
    [net/http], [io], [errors] and [fmt].  [R] is [*http.Request] and [Resp]
    is [*http.Response]; a Go result [(v, err)] is [inl v] when [err] is nil
    and [inr err] otherwise.  [Do] is [c.httpClient.Do]. *)
Record Lib (W C R Resp : Type) := {
  hasDeadline : C -> bool;                 (* _, ok := ctx.Deadline() *)
  WithTimeout : C -> Duration -> W -> C;   (* context.WithTimeout *)
  Marshal : WebhookRequest -> string + error;
  NewRequestWithContext : C -> Method -> string -> option string -> R + error;
  HeaderSet : R -> string -> string -> R;  (* req.Header.Set *)
  Do : R -> W -> (Resp + error) * W;
  StatusCode : Resp -> Z;
  ReadAll : Resp -> W -> (string + error) * W;
  Unmarshal : string -> WebhookResponse + error;
  isDeadlineOrCanceled : error -> bool;
    (* errors.Is(err, context.DeadlineExceeded) || errors.Is(err, context.Canceled) *)
  formatInt : Z -> string                  (* the verb %d *)
}.

Arguments hasDeadline {W C R Resp}.
Arguments WithTimeout {W C R Resp}.
Arguments Marshal {W C R Resp}.
Arguments NewRequestWithContext {W C R Resp}.
Arguments HeaderSet {W C R Resp}.
Arguments Do {W C R Resp}.
Arguments StatusCode {W C R Resp}.
Arguments ReadAll {W C R Resp}.
Arguments Unmarshal {W C R Resp}.
Arguments isDeadlineOrCanceled {W C R Resp}.
Arguments formatInt {W C R Resp}.

Record WebhookClient := { endpoint : string; authKey : string }.

Definition NewWebhookClient (endpoint authKey : string) : WebhookClient :=
  {| endpoint := endpoint; authKey := authKey |}.

Section WithLib.
Context {W C R Resp : Type} (L : Lib W C R Resp).

(** [withTimeout]; the cancel function has no effect that is modelled. *)
Definition withTimeout (ctx : C) (d : Duration) (w : W) : C :=
  if hasDeadline L ctx then ctx else WithTimeout L ctx d w.

(** [if c.authKey != "" { req.Header.Set("x-ins-auth-key", c.authKey) }] *)
Definition withAuth (c : WebhookClient) (req : R) : R :=
  if decide (authKey c <> "") then HeaderSet L req "x-ins-auth-key" (authKey c)
  else req.

Definition Send (c : WebhookClient) (ctx : C) (to content : string) (w : W)
  : (string * string * option error) * W :=
  let ctx := withTimeout ctx (5 * Second) w in
  let payload := {| To := to; Content := content |} in
  match Marshal L payload with
  | inr err =>
      (("", "", Some ("failed to marshal webhook payload: " +:+ err)), w)
  | inl body =>
      match NewRequestWithContext L ctx MethodPost (endpoint c) (Some body) with
      | inr err => (("", "", Some ("failed to create request: " +:+ err)), w)
      | inl req =>
          let req := HeaderSet L req "Content-Type" "application/json" in
          let req := withAuth c req in
          let '(resp, w) := Do L req w in
          match resp with
          | inr err =>
              if isDeadlineOrCanceled L err then
                (("", "",
                  Some ("webhook request timeout or canceled: " +:+ err)), w)
              else (("", "", Some ("webhook request failed: " +:+ err)), w)
          | inl resp =>
              let '(rawBytes, w) := ReadAll L resp w in
              match rawBytes with
              | inr err =>
                  (("", "",
                    Some ("failed to read webhook response: " +:+ err)), w)
              | inl raw =>
                  if decide (StatusCode L resp < 200 \/ StatusCode L resp >= 300)
                  then
                    (("", raw,
                      Some ("webhook returned non-2xx status: "
                            +:+ formatInt L (StatusCode L resp))), w)
                  else
                    match Unmarshal L raw with
                    | inr err =>
                        (("", raw,
                          Some ("failed to parse webhook response: " +:+ err)),
                         w)
                    | inl parsed =>
                        if decide (MessageID parsed = "") then
                          (("", raw,
                            Some "webhook response missing messageId"), w)
                        else ((MessageID parsed, raw, None), w)
                    end
              end
          end
      end
  end.

(** The client as the transport of the message service: [WebhookClient]
    implements the interface [Client]. *)
Definition asClient (c : WebhookClient) : Service.SmsClient W C :=
  {| Service.Send := Send c |}.

End WithLib.

End Sms.

(** ** internal/repository/gorm/message: the mappers *)

Module Gorm.

(** [MessageModel]; [DeletedAt] is [None] for the zero [gorm.DeletedAt]. *)
Record MessageModel := {
  ID : string;
  To : string;
  Content : string;
  Status : string;
  RawResponse : string;
  MessageID : string;
  SentAt : option Z;
  CreatedAt : Z;
  UpdatedAt : Z;
  DeletedAt : option Z
}.

Definition toDomain (m : MessageModel) : Domain.Message :=
  {| Domain.ID := ID m; Domain.To := To m; Domain.Content := Content m;
     Domain.Status_ := Status m;
     Domain.MessageID := MessageID m;
     Domain.RawResponse := RawResponse m;
     Domain.SentAt := SentAt m;
     Domain.CreatedAt := CreatedAt m; Domain.UpdatedAt := UpdatedAt m |}.

(** [toDomainMany]: [out] is made with [len(models)] nil pointers and the
    loop [for i := range models] stores into [out[i]]. *)
Definition toDomainMany (models : list MessageModel)
  : list (option Domain.Message) :=
  let out := replicate (length models) None in
  foldl (fun out '(i, m) => <[i := Some (toDomain m)]> out) out
    (zip (seq 0 (length models)) models).

Definition fromDomain (d : Domain.Message) : MessageModel :=
  {| ID := Domain.ID d; To := Domain.To d; Content := Domain.Content d;
     Status := Domain.Status_ d;
     MessageID := Domain.MessageID d;
     RawResponse := Domain.RawResponse d;
     SentAt := Domain.SentAt d;
     CreatedAt := Domain.CreatedAt d; UpdatedAt := Domain.UpdatedAt d;
     DeletedAt := None |}.

End Gorm.

(** ** internal/response *)

Module Response.

Record MessageDTO := {
  ID : string;
  To : string;
  Content : string;
  Status : string;
  MessageID : string;
  SentAt : option Z;
  CreatedAt : Z;
  UpdatedAt : Z
}.

(** The zero [MessageDTO], of which [make] builds the slice. *)
Definition zeroDTO : MessageDTO :=
  {| ID := ""; To := ""; Content := ""; Status := ""; MessageID := "";
     SentAt := None; CreatedAt := Domain.zeroTime;
     UpdatedAt := Domain.zeroTime |}.

(** The value stored in [out[i]]. *)
Definition dtoOf (m : Domain.Message) : MessageDTO :=
  {| ID := Domain.ID m; To := Domain.To m; Content := Domain.Content m;
     Status := Domain.Status_ m;
     MessageID := Domain.MessageID m;
     SentAt := Domain.SentAt m;
     CreatedAt := Domain.CreatedAt m; UpdatedAt := Domain.UpdatedAt m |}.

(** [FromDomainMessages]: [for i, m := range msgs { out[i] = ... }]. *)
Definition FromDomainMessages (msgs : list Domain.Message) : list MessageDTO :=
  let out := replicate (length msgs) zeroDTO in
  foldl (fun out '(i, m) => <[i := dtoOf m]> out) out
    (zip (seq 0 (length msgs)) msgs).

Inductive Payload :=
| SchedulerControlPayload (Message : string)
| SentMessagesPayload (Items : list MessageDTO) (Total : Z) (Page Limit : Z).

(** What a handler writes: one call of [RespondJSON] or of
    [RespondError], with its arguments. *)
Inductive Reply :=
| RespondJSON (status : Z) (payload : Payload)
| RespondError (status : Z) (msg : string).

Definition statusOf (r : Reply) : Z :=
  match r with
  | RespondJSON status _ | RespondError status _ => status
  end.

End Response.

(** ** internal/handler: the two endpoints of [MessageHandler] *)

Module Handler.
Import Response.

Definition StatusOK : Z := 200.
Definition StatusBadRequest : Z := 400.
Definition StatusInternalServerError : Z := 500.

(** [request.SchedulerRequest] *)
Record SchedulerRequest := { Action : string }.

(** [Decode] is [json.NewDecoder(r.Body).Decode(&req)] on the request
    body, [Atoi] is [strconv.Atoi]. *)
Record Lib := {
  Decode : string -> SchedulerRequest + error;
  Atoi : string -> option Z
}.

(** The interfaces the handler is given, as far as it calls them. *)
Record MessageService (W C : Type) := {
  GetSent : C -> Z -> Z -> W -> (list Domain.Message * Z * option error) * W
}.

Record SchedulerService (W : Type) := {
  Start : W -> option error * W;
  Stop : W -> option error * W
}.

Arguments GetSent {W C}.
Arguments Start {W}.
Arguments Stop {W}.

Record MessageHandler (W C : Type) := {
  msgSvc : MessageService W C;
  schSvc : SchedulerService W
}.

Arguments msgSvc {W C}.
Arguments schSvc {W C}.

Definition NewMessageHandler {W C} (msgSvc : MessageService W C)
    (schSvc : SchedulerService W) : MessageHandler W C :=
  {| msgSvc := msgSvc; schSvc := schSvc |}.

Section WithLib.
Context {W C : Type} (L : Lib).

(** [StartStopScheduler], on the request body. *)
Definition StartStopScheduler (h : MessageHandler W C) (body : string) (w : W)
  : Reply * W :=
  match Decode L body with
  | inr _ => (RespondError StatusBadRequest "invalid JSON body", w)
  | inl req =>
      if decide (Action req = "start") then
        let '(err, w) := Start (schSvc h) w in
        match err with
        | Some e => (RespondError StatusBadRequest e, w)
        | None =>
            (RespondJSON StatusOK (SchedulerControlPayload "scheduler started"),
             w)
        end
      else if decide (Action req = "stop") then
        let '(err, w) := Stop (schSvc h) w in
        match err with
        | Some e => (RespondError StatusBadRequest e, w)
        | None =>
            (RespondJSON StatusOK (SchedulerControlPayload "scheduler stopped"),
             w)
        end
      else
        (RespondError StatusBadRequest "action must be 'start' or 'stop'", w)
  end.

(** [GetSentMessages]; [pageStr] and [limitStr] are the query parameters,
    empty when absent, and [ctx] is [r.Context()]. *)
Definition GetSentMessages (h : MessageHandler W C) (ctx : C)
    (pageStr limitStr : string) (w : W) : Reply * W :=
  let page := 1 in
  let limit := 20 in
  let page :=
    match Atoi L pageStr with
    | Some v => if decide (v > 0) then v else page
    | None => page
    end in
  let limit :=
    match Atoi L limitStr with
    | Some v => if decide (v > 0 /\ v <= 100) then v else limit
    | None => limit
    end in
  let '((items, total, err), w) := GetSent (msgSvc h) ctx page limit w in
  match err with
  | Some e => (RespondError StatusInternalServerError e, w)
  | None =>
      (RespondJSON StatusOK
         (SentMessagesPayload (FromDomainMessages items) total page limit), w)
  end.

End WithLib.

End Handler.

(** ** internal/server: the middleware chain *)

Module Server.

(** The loop [for i := len(m) - 1; i >= 0; i--] of [Chain], entered with
    [i + 1] in [k]; indexing out of range does not happen and would leave
    the loop. *)
Fixpoint chainLoop {H : Type} (k : nat) (h : H) (m : list (H -> H)) : H :=
  match k with
  | O => h
  | S i =>
      match m !! i with
      | Some mi => chainLoop i (mi h) m
      | None => h
      end
  end.

Definition Chain {H : Type} (h : H) (m : list (H -> H)) : H :=
  chainLoop (length m) h m.

End Server.

(** ** Concrete collaborators, for evaluating the code on examples *)

Module Fixtures.
Import Domain Service.

(** A library in which only a few literals parse. *)
Definition lib : Config.Lib :=
  {| Config.TrimSpace := fun s => s;
     Config.Atoi := fun s =>
       if decide (s = "0") then Some 0
       else if decide (s = "2") then Some 2 else None;
     Config.ParseDuration := fun s =>
       if decide (s = "0s") then Some 0
       else if decide (s = "2m") then Some (2 * Minute) else None |}.

(** The world is a clock reading; contexts carry no information. *)
Definition rt : Runtime Z unit :=
  {| ctxErr := fun _ _ => false;
     WithTimeout := fun c _ _ => c;
     Now := fun w => w;
     FormatRFC3339 := fun _ => "2024-01-01T00:00:00Z" |}.

Definition repoOf (pending : list Message) (fetchErr updateErr : option error)
  : Repository Z unit :=
  {| GetPending := fun _ _ w => ((pending, fetchErr), w);
     UpdateStatus := fun _ _ w => (updateErr, w) |}.

Definition smsOf (externalID raw : string) (err : option error)
  : SmsClient Z unit :=
  {| Send := fun _ _ _ w => ((externalID, raw, err), w) |}.

Definition cacheOf (err : option error) : Cache Z unit :=
  {| Set_ := fun _ _ _ _ w => (err, w) |}.

Definition msgA : Message :=
  {| ID := "a"; To := "+100"; Content := "hello"; Status_ := StatusPending;
     MessageID := ""; RawResponse := ""; SentAt := None;
     CreatedAt := 0; UpdatedAt := 0 |}.

Definition msgB : Message :=
  {| ID := "b"; To := "+200"; Content := "world"; Status_ := StatusPending;
     MessageID := ""; RawResponse := ""; SentAt := None;
     CreatedAt := 1; UpdatedAt := 1 |}.

Definition svc (pending : list Message) (fetchErr : option error)
    (externalID raw : string) (sendErr updateErr : option error)
    (cache : option (Cache Z unit)) : messageService Z unit :=
  NewMessageService rt (repoOf pending fetchErr updateErr)
    (smsOf externalID raw sendErr) cache 2 2 (5 * Second).

Definition start : Exec Z := {| world := 0; trace := [] |}.

(** A runtime whose contexts are all cancelled. *)
Definition rtCancelled : Runtime Z unit :=
  {| ctxErr := fun _ _ => true;
     WithTimeout := fun c _ _ => c;
     Now := fun w => w;
     FormatRFC3339 := fun _ => "2024-01-01T00:00:00Z" |}.

(** Runs of the scheduler.  Start is called and acknowledged, and a tick
    starts a batch that runs for [d]. *)
Definition batchOf (d : Duration) : list Scheduler.event :=
  [Scheduler.EvCall Scheduler.opStart; Scheduler.EvAccept; Scheduler.EvTick d].

(** Stop is called as a 3-second batch begins, and gives up after 2
    seconds. *)
Definition stopTimesOut : list Scheduler.event :=
  batchOf (3 * Second) ++
  [Scheduler.EvCall Scheduler.opStop; Scheduler.EvElapse (2 * Second);
   Scheduler.EvTimeout].

(** Stop is called as a 1-second batch begins, and is served after it. *)
Definition stopIsServed : list Scheduler.event :=
  batchOf (1 * Second) ++
  [Scheduler.EvCall Scheduler.opStop; Scheduler.EvElapse (1 * Second);
   Scheduler.EvBatchReturn None; Scheduler.EvAccept].

(** IsRunning is called as a 5-second batch begins; 3 seconds later. *)
Definition statusWaits : list Scheduler.event :=
  batchOf (5 * Second) ++
  [Scheduler.EvCall Scheduler.opStatus; Scheduler.EvElapse (3 * Second)].

Definition afterStopTimesOut : Scheduler.system :=
  Eval vm_compute in default Scheduler.init (Scheduler.run Scheduler.init stopTimesOut).

Definition afterStopIsServed : Scheduler.system :=
  Eval vm_compute in default Scheduler.init (Scheduler.run Scheduler.init stopIsServed).

Definition whileStatusWaits : Scheduler.system :=
  Eval vm_compute in default Scheduler.init (Scheduler.run Scheduler.init statusWaits).

(** An HTTP layer whose every request is answered with [status] and
    [body]; two bodies parse, one with the identifier X and one without
    identifier. *)
Definition httpOf (status : Z) (body : string)
  : Sms.Lib Z unit (list (string * string)) (Z * string) :=
  {| Sms.hasDeadline := fun _ => true;
     Sms.WithTimeout := fun c _ _ => c;
     Sms.Marshal := fun p => inl (Sms.To p +:+ "|" +:+ Sms.Content p);
     Sms.NewRequestWithContext := fun _ _ _ _ => inl [];
     Sms.HeaderSet := fun r k v => (k, v) :: r;
     Sms.Do := fun _ w => (inl (status, body), w);
     Sms.StatusCode := fst;
     Sms.ReadAll := fun r w => (inl (snd r), w);
     Sms.Unmarshal := fun s =>
       if decide (s = "{'messageId':'X'}") then
         inl {| Sms.Message := ""; Sms.MessageID := "X" |}
       else if decide (s = "{}") then
         inl {| Sms.Message := ""; Sms.MessageID := "" |}
       else inr "invalid character";
     Sms.isDeadlineOrCanceled := fun _ => false;
     Sms.formatInt := fun z => if decide (z = 500) then "500" else "?" |}.

Definition hook : Sms.WebhookClient :=
  Sms.NewWebhookClient "http://provider.test/hook" "key".

(** The message service over the webhook client. *)
Definition svcOver (status : Z) (body : string) (updateErr : option error)
    (cache : option (Cache Z unit)) : messageService Z unit :=
  NewMessageService rt (repoOf [] None updateErr)
    (Sms.asClient (httpOf status body) hook) cache 2 2 (5 * Second).

(** The ticker fires every second and every batch takes a second and a
    half.  Start; the first tick starts batch 1; the second tick fires half
    a second before batch 1 returns. *)
Definition everySecond : Scheduler.schedulerService :=
  Scheduler.NewSchedulerService (1 * Second) (30 * Second).

Definition secondTickFires : list Scheduler.tevent :=
  [Scheduler.TEv (Scheduler.EvCall Scheduler.opStart);
   Scheduler.TEv Scheduler.EvAccept;
   Scheduler.TEv (Scheduler.EvElapse (1 * Second));
   Scheduler.TFire;
   Scheduler.TRecv (1500 * Millisecond);
   Scheduler.TEv (Scheduler.EvElapse (1 * Second))].

(** Batch 1 returns, and the loop is back at its [select]. *)
Definition batchOneReturns : list Scheduler.tevent :=
  [Scheduler.TEv (Scheduler.EvElapse (500 * Millisecond));
   Scheduler.TEv (Scheduler.EvBatchReturn None);
   Scheduler.TRecv (1500 * Millisecond)].

Definition duringBatchOne : Scheduler.tsystem :=
  Eval vm_compute in
    default (Scheduler.tinit everySecond)
      (Scheduler.trun everySecond (Scheduler.tinit everySecond) secondTickFires).

Definition afterBatchOne : Scheduler.tsystem :=
  Eval vm_compute in
    default (Scheduler.tinit everySecond)
      (Scheduler.trun everySecond duringBatchOne
         (Scheduler.TFire :: batchOneReturns)).

End Fixtures.

(** * Properties *)

(** ** Configuration defaults *)

Module ConfigFacts.
Import Config Service Scheduler Main.

Lemma getInt_unusable L env key def :
  unusable L (Atoi L) env key -> getInt L env key def = def.
Proof.
  unfold unusable, getInt. intros [-> | ->]; [done|].
  by case_decide.
Qed.

Lemma getDuration_unusable L env key def :
  unusable L (ParseDuration L) env key -> getDuration L env key def = def.
Proof.
  unfold unusable, getDuration. intros [-> | ->]; [done|].
  by case_decide.
Qed.

Lemma getInt_cases L env key def :
  unusable L (Atoi L) env key /\ getInt L env key def = def \/
  Atoi L (TrimSpace L (Getenv env key)) = Some (getInt L env key def).
Proof.
  unfold unusable, getInt. case_decide as Hv; [by left; split; [left|]|].
  destruct (Atoi L _) eqn:E; [by right | by left; split; [right|]].
Qed.

Lemma getDuration_cases L env key def :
  unusable L (ParseDuration L) env key /\ getDuration L env key def = def \/
  ParseDuration L (TrimSpace L (Getenv env key))
    = Some (getDuration L env key def).
Proof.
  unfold unusable, getDuration. case_decide as Hv; [by left; split; [left|]|].
  destruct (ParseDuration L _) eqn:E; [by right | by left; split; [right|]].
Qed.

Lemma getInt_parsed L env key def i :
  parsesTo L (Atoi L) env key i -> getInt L env key def = i.
Proof. unfold parsesTo, getInt. intros [? ->]. by case_decide. Qed.

Lemma getDuration_parsed L env key def d :
  parsesTo L (ParseDuration L) env key d -> getDuration L env key def = d.
Proof. unfold parsesTo, getDuration. intros [? ->]. by case_decide. Qed.

Section Defaults.
Context {W C : Type} (rt : Runtime W C) (repo : Repository W C)
  (sms : SmsClient W C) (cache : option (Cache W C)).
Context (L : Lib) (env : gmap string string).

Let eff : settings := effective (wire rt repo sms cache L env).

Lemma tickInterval_unset :
  unusable L (ParseDuration L) env "SCHEDULER_INTERVAL" ->
  tickInterval eff = 5 * Second.
Proof.
  intros H. unfold eff, effective, wire, NewSchedulerService; simpl.
  rewrite (getDuration_unusable _ _ _ _ H). by case_decide.
Qed.

Lemma tickInterval_nonpositive d :
  parsesTo L (ParseDuration L) env "SCHEDULER_INTERVAL" d -> d <= 0 ->
  tickInterval eff = 2 * Minute.
Proof.
  intros H Hd. unfold eff, effective, wire, NewSchedulerService; simpl.
  rewrite (getDuration_parsed _ _ _ _ _ H). by case_decide.
Qed.

Lemma batchDeadline_default :
  unusableOrNonPositive L (ParseDuration L) env "SCHEDULER_BATCH_TIMEOUT" ->
  batchDeadline eff = 30 * Second.
Proof.
  unfold eff, effective, wire, NewSchedulerService; simpl.
  intros [H | (d & H & Hd)].
  - rewrite (getDuration_unusable _ _ _ _ H). by case_decide.
  - rewrite (getDuration_parsed _ _ _ _ _ H). by case_decide.
Qed.

Lemma batchSize_default :
  unusableOrNonPositive L (Atoi L) env "MESSAGE_BATCH_SIZE" ->
  batchSize_ eff = 100.
Proof.
  unfold eff, effective, wire, NewMessageService; simpl.
  intros [H | (d & H & Hd)].
  - rewrite (getInt_unusable _ _ _ _ H). by case_decide.
  - rewrite (getInt_parsed _ _ _ _ _ H). by case_decide.
Qed.

Lemma maxWorkers_default :
  unusableOrNonPositive L (Atoi L) env "MESSAGE_MAX_WORKERS" ->
  maxWorkers_ eff = 4.
Proof.
  unfold eff, effective, wire, NewMessageService; simpl.
  intros [H | (d & H & Hd)].
  - rewrite (getInt_unusable _ _ _ _ H). by case_decide.
  - rewrite (getInt_parsed _ _ _ _ _ H). by case_decide.
Qed.

Lemma perItemTimeout_default :
  unusableOrNonPositive L (ParseDuration L) env "MESSAGE_PER_MESSAGE_TIMEOUT" ->
  perItemTimeout eff = 5 * Second.
Proof.
  unfold eff, effective, wire, NewMessageService; simpl.
  intros [H | (d & H & Hd)].
  - rewrite (getDuration_unusable _ _ _ _ H). by case_decide.
  - rewrite (getDuration_parsed _ _ _ _ _ H). by case_decide.
Qed.

End Defaults.

(** C7 (as amended). The settings in force at start-up: the tick interval
    is 5 seconds when SCHEDULER_INTERVAL is unset or does not parse, and 2
    minutes when it parses to a duration that is not positive; the batch
    deadline is 30 seconds, the batch size 100, the number of workers 4 and
    the per-item timeout 5 seconds whenever their variable is unset, does
    not parse, or parses to a value that is not positive. *)
Theorem effective_defaults {W C} (rt : Runtime W C) (repo : Repository W C)
    (sms : SmsClient W C) (cache : option (Cache W C))
    (L : Lib) (env : gmap string string) :
  (unusable L (ParseDuration L) env "SCHEDULER_INTERVAL" ->
     tickInterval (effective (wire rt repo sms cache L env)) = 5 * Second) /\
  (forall d, parsesTo L (ParseDuration L) env "SCHEDULER_INTERVAL" d -> d <= 0 ->
     tickInterval (effective (wire rt repo sms cache L env)) = 2 * Minute) /\
  (unusableOrNonPositive L (ParseDuration L) env "SCHEDULER_BATCH_TIMEOUT" ->
     batchDeadline (effective (wire rt repo sms cache L env)) = 30 * Second) /\
  (unusableOrNonPositive L (Atoi L) env "MESSAGE_BATCH_SIZE" ->
     batchSize_ (effective (wire rt repo sms cache L env)) = 100) /\
  (unusableOrNonPositive L (Atoi L) env "MESSAGE_MAX_WORKERS" ->
     maxWorkers_ (effective (wire rt repo sms cache L env)) = 4) /\
  (unusableOrNonPositive L (ParseDuration L) env "MESSAGE_PER_MESSAGE_TIMEOUT" ->
     perItemTimeout (effective (wire rt repo sms cache L env)) = 5 * Second).
Proof.
  split_and!.
  - apply tickInterval_unset.
  - apply tickInterval_nonpositive.
  - apply batchDeadline_default.
  - apply batchSize_default.
  - apply maxWorkers_default.
  - apply perItemTimeout_default.
Qed.

(** With nothing set, and with the interval set to zero, on the fixture
    library. *)
Lemma effective_defaults_witness :
  tickInterval
    (effective (wire Fixtures.rt (Fixtures.repoOf [] None None)
                  (Fixtures.smsOf "" "" None) None Fixtures.lib ∅))
  = 5 * Second /\
  tickInterval
    (effective (wire Fixtures.rt (Fixtures.repoOf [] None None)
                  (Fixtures.smsOf "" "" None) None Fixtures.lib
                  {[ "SCHEDULER_INTERVAL" := "0s" ]}))
  = 2 * Minute /\
  maxWorkers_
    (effective (wire Fixtures.rt (Fixtures.repoOf [] None None)
                  (Fixtures.smsOf "" "" None) None Fixtures.lib ∅))
  = 4.
Proof.
  pose proof (effective_defaults Fixtures.rt (Fixtures.repoOf [] None None)
                (Fixtures.smsOf "" "" None) None Fixtures.lib ∅)
    as (H1 & _ & _ & _ & H5 & _).
  pose proof (effective_defaults Fixtures.rt (Fixtures.repoOf [] None None)
                (Fixtures.smsOf "" "" None) None Fixtures.lib
                {[ "SCHEDULER_INTERVAL" := "0s" ]})
    as (_ & H2 & _).
  split; [|split].
  - apply H1. left. reflexivity.
  - apply (H2 0); [split; [vm_compute; discriminate | reflexivity] | lia].
  - apply H5. left. left. reflexivity.
Defined.

(** C7, counterexample. With SCHEDULER_INTERVAL unset the scheduler ticks
    every 5 seconds, not every 2 minutes. *)
Lemma defaults_as_specified_fails :
  ~ defaults_as_specified
      (effective (wire Fixtures.rt (Fixtures.repoOf [] None None)
                    (Fixtures.smsOf "" "" None) None Fixtures.lib ∅))
      Fixtures.lib ∅.
Proof.
  intros (H & _).
  assert (Hu : unusable Fixtures.lib (ParseDuration Fixtures.lib) ∅
                 "SCHEDULER_INTERVAL") by (left; reflexivity).
  specialize (H Hu). vm_compute in H. discriminate.
Qed.

End ConfigFacts.

(** ** The stride assignment of the worker pool *)

Module StrideFacts.
Import Service.

Lemma wrap64_id z : min_int64 <= z <= max_int64 -> wrap64 z = z.
Proof.
  unfold wrap64, min_int64, max_int64. intros H.
  rewrite Z.mod_small by lia. lia.
Qed.

Lemma workerCount_max_min n maxWorkers :
  workerCount n maxWorkers = Z.max 1 (Z.min maxWorkers n).
Proof. unfold workerCount. repeat case_decide; lia. Qed.

Lemma workerCount_bounds n maxWorkers :
  0 < n -> 1 <= workerCount n maxWorkers <= n.
Proof. rewrite workerCount_max_min. lia. Qed.

Lemma turns_done i n wc : 0 < wc -> n <= i -> turns i n wc = 0.
Proof.
  intros Hwc Hi. unfold turns, ceilDiv.
  assert ((n - i + wc - 1) / wc <= 0); [|lia].
  assert ((n - i + wc - 1) / wc < 1); [|lia].
  apply Z.div_lt_upper_bound; lia.
Qed.

Lemma turns_step i n wc :
  0 < wc -> i < n -> turns i n wc = 1 + turns (i + wc) n wc.
Proof.
  intros Hwc Hi. unfold turns, ceilDiv.
  replace (n - i + wc - 1) with ((n - (i + wc) + wc - 1) + 1 * wc) by lia.
  rewrite Z.div_add by lia.
  assert (0 <= (n - (i + wc) + wc - 1) / wc); [|lia].
  apply Z.div_pos; lia.
Qed.

Lemma turns_mono i j n wc : 0 < wc -> i <= j -> turns j n wc <= turns i n wc.
Proof.
  intros Hwc Hij. unfold turns, ceilDiv.
  assert ((n - j + wc - 1) / wc <= (n - i + wc - 1) / wc); [|lia].
  apply Z.div_le_mono; lia.
Qed.

(** What the loop header visits, provided the additions do not overflow and
    the fuel covers the distance to [n]. *)
Lemma strideFrom_spec fuel i n wc :
  0 < wc -> 0 <= i -> n + wc <= max_int64 ->
  (Z.to_nat (n - i) < fuel)%nat ->
  exists l,
    strideFrom fuel i n wc = Some l /\
    (forall x, x ∈ l <-> (exists j, 0 <= j /\ x = i + j * wc /\ x < n)) /\
    NoDup l /\
    Z.of_nat (length l) = turns i n wc.
Proof.
  intros Hwc. revert i. induction fuel as [|fuel IH]; intros i Hi Hn Hf; [lia|].
  simpl. case_decide as Hlt.
  - rewrite wrap64_id by (unfold min_int64, max_int64 in *; lia).
    destruct (IH (i + wc)) as (l & -> & Hin & Hnd & Hlen); [lia..|].
    exists (i :: l). split_and!; [done| | |].
    + intros x. rewrite elem_of_cons, Hin. split.
      * intros [-> | (j & Hj & -> & Hx)].
        -- exists 0. lia.
        -- exists (j + 1). lia.
      * intros (j & Hj & -> & Hx).
        destruct (decide (j = 0)) as [-> | Hj0]; [left; lia|].
        right. exists (j - 1). lia.
    + constructor; [|done]. rewrite Hin. intros (j & Hj & Hx & _). nia.
    + rewrite (turns_step i) by lia. simpl length. lia.
  - exists []. split_and!; [done| | constructor |].
    + intros x. split; [by intros ?%elem_of_nil|].
      intros (j & Hj & -> & Hx). nia.
    + rewrite turns_done by lia. done.
Qed.

Lemma stride_spec k n wc :
  0 < wc -> 0 <= k -> 0 < n -> n + wc <= max_int64 ->
  exists l,
    stride k n wc = Some l /\
    (forall x, x ∈ l <-> (exists j, 0 <= j /\ x = k + j * wc /\ x < n)) /\
    NoDup l /\
    Z.of_nat (length l) = turns k n wc.
Proof.
  intros. unfold stride. apply strideFrom_spec; lia.
Qed.

Lemma stride_member k n wc x :
  0 < wc -> 0 <= k < wc ->
  (exists j, 0 <= j /\ x = k + j * wc /\ x < n) <->
  (0 <= x < n /\ x mod wc = k).
Proof.
  intros Hwc Hk. split.
  - intros (j & Hj & -> & Hx). split; [nia|].
    rewrite Z.mod_add by lia. apply Z.mod_small. lia.
  - intros [Hx <-]. exists (x / wc). split_and!.
    + apply Z.div_pos; lia.
    + rewrite (Z.div_mod x wc) at 1 by lia. lia.
    + lia.
Qed.

Lemma strideTake_cons i wc t :
  0 <= t -> strideTake i wc (1 + t) = i :: strideTake (i + wc) wc t.
Proof.
  intros Ht. unfold strideTake.
  rewrite seqZ_app by lia. rewrite fmap_app.
  replace (seqZ (0 + 1) t) with (Z.add 1 <$> seqZ 0 t)
    by (by rewrite fmap_add_seqZ).
  rewrite <- list_fmap_compose. simpl.
  f_equal; [lia|]. apply list_fmap_ext. intros _ j _. simpl. lia.
Qed.

Lemma strideTake_snoc k wc c :
  0 <= c -> strideTake k wc (c + 1) = strideTake k wc c ++ [k + c * wc].
Proof.
  intros Hc. unfold strideTake. rewrite seqZ_app by lia. by rewrite fmap_app.
Qed.

Lemma elem_of_strideTake k wc c z :
  z ∈ strideTake k wc c <-> exists j, 0 <= j < c /\ z = k + j * wc.
Proof.
  unfold strideTake. rewrite list_elem_of_fmap. split.
  - intros (j & -> & Hj%elem_of_seqZ). exists j. split; [lia|done].
  - intros (j & Hj & ->). exists j. split; [done|]. apply elem_of_seqZ. lia.
Qed.

(** The loop header in closed form. *)
Lemma strideFrom_closed fuel i n wc :
  0 < wc -> 0 <= i -> n + wc <= max_int64 ->
  (Z.to_nat (n - i) < fuel)%nat ->
  strideFrom fuel i n wc = Some (strideTake i wc (turns i n wc)).
Proof.
  intros Hwc. revert i. induction fuel as [|fuel IH]; intros i Hi Hn Hf; [lia|].
  simpl. case_decide as Hlt.
  - rewrite wrap64_id by (unfold min_int64, max_int64 in *; lia).
    rewrite IH by lia. simpl. f_equal.
    rewrite (turns_step i) by lia. rewrite strideTake_cons; [done|].
    unfold turns. lia.
  - by rewrite turns_done by lia.
Qed.

(** After [c] turns, the last below [n] and the next not: [c] is the
    number of turns the loop makes. *)
Lemma turns_unique k n wc c :
  0 < wc -> 0 <= c ->
  (0 < c -> k + (c - 1) * wc < n) -> n <= k + c * wc ->
  turns k n wc = c.
Proof.
  intros Hwc Hc Hlast Hnext. unfold turns, ceilDiv.
  destruct (decide (c = 0)) as [-> | Hc0].
  - assert ((n - k + wc - 1) / wc < 1); [|lia].
    apply Z.div_lt_upper_bound; lia.
  - assert ((n - k + wc - 1) / wc = c); [|lia].
    symmetry. apply (Z.div_unique _ _ _ (n - k + wc - 1 - wc * c)); lia.
Qed.

Lemma ceilDiv_is_ceiling a b :
  0 < b -> a <= ceilDiv a b * b < a + b.
Proof.
  intros Hb. unfold ceilDiv.
  pose proof (Z.div_mod (a + b - 1) b ltac:(lia)).
  pose proof (Z.mod_pos_bound (a + b - 1) b Hb). nia.
Qed.

Lemma turns_le_ceilDiv k n wc :
  0 < wc -> 0 <= k -> 0 < n -> turns k n wc <= ceilDiv n wc.
Proof.
  intros Hwc Hk Hn. unfold turns, ceilDiv.
  assert (0 <= (n + wc - 1) / wc) by (apply Z.div_pos; lia).
  assert ((n - k + wc - 1) / wc <= (n + wc - 1) / wc)
    by (apply Z.div_le_mono; lia).
  lia.
Qed.

(** The share of worker [k] in a batch of [n]. *)
Lemma share_spec k n wc :
  1 <= wc <= n -> n < maxLen -> 0 <= k < wc ->
  exists l,
    stride k n wc = Some l /\
    (forall x, x ∈ l <-> 0 <= x < n /\ x mod wc = k) /\
    NoDup l /\
    Z.of_nat (length l) <= ceilDiv n wc.
Proof.
  intros Hwc Hn Hk.
  destruct (stride_spec k n wc) as (l & Hl & Hin & Hnd & Hlen);
    [unfold max_int64, maxLen in *; lia..|].
  exists l. split_and!; [done| |done|].
  - intros x. rewrite Hin. apply stride_member; lia.
  - rewrite Hlen. apply turns_le_ceilDiv; lia.
Qed.

Lemma assignment_elem n wc x :
  1 <= wc <= n -> n < maxLen ->
  x ∈ assignment n wc <-> 0 <= x < n.
Proof.
  intros Hwc Hn. unfold assignment. rewrite list_elem_of_bind. split.
  - intros (k & Hx & Hk%elem_of_seqZ).
    destruct (share_spec k n wc) as (l & Hl & Hin & _); [lia..|].
    rewrite Hl in Hx. simpl in Hx. by apply Hin in Hx as [? _].
  - intros Hx. exists (x mod wc).
    pose proof (Z.mod_pos_bound x wc ltac:(lia)) as Hm.
    split; [|apply elem_of_seqZ; lia].
    destruct (share_spec (x mod wc) n wc) as (l & Hl & Hin & _); [lia..|].
    rewrite Hl. simpl. by apply Hin.
Qed.

Lemma assignment_NoDup n wc :
  1 <= wc <= n -> n < maxLen -> NoDup (assignment n wc).
Proof.
  intros Hwc Hn. unfold assignment. apply NoDup_bind.
  - intros k1 k2 y Hk1%elem_of_seqZ Hk2%elem_of_seqZ Hy1 Hy2.
    destruct (share_spec k1 n wc) as (l1 & Hl1 & Hin1 & _); [lia..|].
    destruct (share_spec k2 n wc) as (l2 & Hl2 & Hin2 & _); [lia..|].
    rewrite Hl1 in Hy1. rewrite Hl2 in Hy2. simpl in *.
    apply Hin1 in Hy1 as [_ <-]. by apply Hin2 in Hy2 as [_ <-].
  - intros k Hk%elem_of_seqZ.
    destruct (share_spec k n wc) as (l & Hl & _ & Hnd & _); [lia..|].
    by rewrite Hl.
  - apply NoDup_seqZ.
Qed.

End StrideFacts.

(** ** Processing one message *)

Module MessageFacts.
Import Domain Service.

(** Membership in a trace given as appended and explicit lists. *)
Ltac in_trace :=
  rewrite ?elem_of_app, ?elem_of_cons, ?elem_of_nil in *;
  intuition (subst; simpl in *; try congruence; eauto).

Ltac run_go :=
  unfold processMessage, callGetPending, callSend, callUpdateStatus,
    callCacheSet, call, emit, logf, timeNow, bind, ret; simpl.

Lemma since_app {W} (x : Exec W) w l :
  since x {| world := w; trace := trace x ++ l |} = l.
Proof. unfold since; simpl. by rewrite drop_app_length. Qed.

Lemma Key_SentMessages id :
  CacheKeys.Key CacheKeys.SentMessages id = "sent_messages:" +:+ id.
Proof. reflexivity. Qed.

Lemma day : 24 * Hour = 86400 * Second.
Proof. reflexivity. Qed.

Section OneMessage.
Context {W C : Type} (s : messageService W C) (ctx : C) (msg : Message)
  (x : Exec W).

(** Transport failure. *)
Lemma processMessage_send_failed externalID raw e w1 uErr w2 :
  Send (smsClient s) ctx (To msg) (Content msg) (world x)
    = ((externalID, raw, Some e), w1) ->
  UpdateStatus (repo s) ctx (MarkFailed raw msg) w1 = (uErr, w2) ->
  processMessage s ctx msg x =
    ((Some ("send message " +:+ ID msg +:+ ": " +:+ e), MarkFailed raw msg),
     {| world := w2;
        trace := trace x ++
          [EvSend (To msg) (Content msg) externalID raw (Some e);
           EvLog (LogSendFailed (ID msg) e);
           EvUpdateStatus (MarkFailed raw msg) uErr] ++
          match uErr with
          | Some ue => [EvLog (LogPersistFailedStatus (ID msg) ue)]
          | None => []
          end |}).
Proof.
  intros HS HU. run_go. rewrite HS; simpl. rewrite HU; simpl.
  destruct uErr; simpl; by rewrite <- !(assoc_L (++)).
Qed.

(** Transport success, persistence failure. *)
Lemma processMessage_persist_failed externalID raw w1 e w2 :
  Send (smsClient s) ctx (To msg) (Content msg) (world x)
    = ((externalID, raw, None), w1) ->
  UpdateStatus (repo s) ctx (MarkSent (Now (runtime s) w1) externalID raw msg) w1
    = (Some e, w2) ->
  processMessage s ctx msg x =
    ((Some ("update status for " +:+ ID msg +:+ ": " +:+ e),
      MarkSent (Now (runtime s) w1) externalID raw msg),
     {| world := w2;
        trace := trace x ++
          [EvSend (To msg) (Content msg) externalID raw None;
           EvUpdateStatus (MarkSent (Now (runtime s) w1) externalID raw msg)
             (Some e);
           EvLog (LogPersistSuccessStatus (ID msg) e)] |}).
Proof.
  intros HS HU. run_go. rewrite HS; simpl. rewrite HU; simpl.
  by rewrite <- !(assoc_L (++)).
Qed.

(** Transport and persistence success, nothing to cache. *)
Lemma processMessage_no_cache externalID raw w1 w2 :
  Send (smsClient s) ctx (To msg) (Content msg) (world x)
    = ((externalID, raw, None), w1) ->
  UpdateStatus (repo s) ctx (MarkSent (Now (runtime s) w1) externalID raw msg) w1
    = (None, w2) ->
  cache s = None \/ externalID = "" ->
  processMessage s ctx msg x =
    ((None, MarkSent (Now (runtime s) w1) externalID raw msg),
     {| world := w2;
        trace := trace x ++
          [EvSend (To msg) (Content msg) externalID raw None;
           EvUpdateStatus (MarkSent (Now (runtime s) w1) externalID raw msg)
             None] |}).
Proof.
  intros HS HU Hc. run_go. rewrite HS; simpl. rewrite HU; simpl.
  destruct (cache s) as [c|]; simpl.
  - destruct Hc as [? | ->]; [done|]. simpl.
    by rewrite <- !(assoc_L (++)).
  - by rewrite <- !(assoc_L (++)).
Qed.

(** Transport and persistence success, cache written. *)
Lemma processMessage_cached externalID raw w1 w2 c cErr w3 :
  Send (smsClient s) ctx (To msg) (Content msg) (world x)
    = ((externalID, raw, None), w1) ->
  UpdateStatus (repo s) ctx (MarkSent (Now (runtime s) w1) externalID raw msg) w1
    = (None, w2) ->
  cache s = Some c -> externalID <> "" ->
  Set_ c ctx ("sent_messages:" +:+ externalID)
    (FormatRFC3339 (runtime s) (Now (runtime s) w1)) (24 * Hour) w2
    = (cErr, w3) ->
  processMessage s ctx msg x =
    ((None, MarkSent (Now (runtime s) w1) externalID raw msg),
     {| world := w3;
        trace := trace x ++
          [EvSend (To msg) (Content msg) externalID raw None;
           EvUpdateStatus (MarkSent (Now (runtime s) w1) externalID raw msg)
             None;
           EvCacheSet ("sent_messages:" +:+ externalID)
             (FormatRFC3339 (runtime s) (Now (runtime s) w1)) (24 * Hour) cErr]
          ++ match cErr with
             | Some e => [EvLog (LogCacheFailed externalID e)]
             | None => []
             end |}).
Proof.
  intros HS HU Hc Hid HC. run_go. rewrite HS; simpl. rewrite HU; simpl.
  rewrite Hc; simpl. case_decide; [|done]. simpl.
  rewrite Key_SentMessages. rewrite HC; simpl.
  destruct cErr; simpl; by rewrite <- !(assoc_L (++)).
Qed.

(** [processMessage] only adds to the trace. *)
Lemma processMessage_extends :
  exists l, trace (snd (processMessage s ctx msg x)) = trace x ++ l.
Proof.
  destruct (Send (smsClient s) ctx (To msg) (Content msg) (world x))
    as [[[externalID raw] [e|]] w1] eqn:HS.
  - destruct (UpdateStatus (repo s) ctx (MarkFailed raw msg) w1)
      as [uErr w2] eqn:HU.
    rewrite (processMessage_send_failed _ _ _ _ _ _ HS HU). by eexists.
  - destruct (UpdateStatus (repo s) ctx
                (MarkSent (Now (runtime s) w1) externalID raw msg) w1)
      as [[ue|] w2] eqn:HU.
    + rewrite (processMessage_persist_failed _ _ _ _ _ HS HU). by eexists.
    + destruct (cache s) as [c|] eqn:Hc; [destruct (decide (externalID = ""))|].
      * rewrite (processMessage_no_cache _ _ _ _ HS HU) by (by right).
        by eexists.
      * destruct (Set_ c ctx ("sent_messages:" +:+ externalID)
                    (FormatRFC3339 (runtime s) (Now (runtime s) w1))
                    (24 * Hour) w2) as [cErr w3] eqn:HC.
        rewrite (processMessage_cached _ _ _ _ _ _ _ HS HU Hc ltac:(done) HC).
        by eexists.
      * rewrite (processMessage_no_cache _ _ _ _ HS HU) by (by left).
        by eexists.
Qed.

End OneMessage.

End MessageFacts.

(** ** The worker pool *)

Module PoolFacts.
Import Domain Service StrideFacts MessageFacts.

Section Pool.
Context {W C : Type} (s : messageService W C) (ctx : C).
Context (wc n : Z) (Hwc : 1 <= wc <= n) (Hn : n < maxLen).

(** Whatever holds of the pool and is kept by every turn of every worker
    holds at the end of every interleaving. *)
Lemma runSchedule_invariant (P : pool W -> Prop) :
  (forall k p, P p -> P (workerIter s ctx wc k p)) ->
  forall sched p, P p -> P (runSchedule s ctx wc sched p).
Proof.
  intros Hstep sched. unfold runSchedule.
  induction sched as [|k sched IH]; intros p Hp; simpl; [done|].
  apply IH, Hstep, Hp.
Qed.

Lemma runWorker_invariant (P : pool W -> Prop) :
  (forall k p, P p -> P (workerIter s ctx wc k p)) ->
  forall fuel k p, P p -> P (runWorker s ctx wc fuel k p).
Proof.
  intros Hstep fuel k. induction fuel as [|fuel IH]; intros p Hp; simpl; [done|].
  apply IH, Hstep, Hp.
Qed.

Lemma wait_invariant (P : pool W -> Prop) :
  (forall k p, P p -> P (workerIter s ctx wc k p)) ->
  forall p, P p -> P (wait s ctx wc p).
Proof.
  intros Hstep p. unfold wait. generalize (seq 0 (length (workers p))).
  intros ks. revert p. induction ks as [|k ks IH]; intros p Hp; simpl; [done|].
  apply IH. apply (runWorker_invariant P); auto.
Qed.

(** The body of the worker loop, in terms of [processMessage]. *)
Lemma workerBody (c : C) (wk : worker) (i : Z) (msg : Message) (x : Exec W) :
  (logf (LogWorkerIsProcessing i) ;;
   r <- processMessage s c msg ;;
   match fst r with
   | Some e => logf (LogWorkerFailed (workerID wk) (ID msg) e)
   | None => ret tt
   end ;;
   ret r)%go x
  = let r := processMessage s c msg
               {| world := world x;
                  trace := trace x ++ [EvLog (LogWorkerIsProcessing i)] |} in
    (fst r,
     {| world := world (snd r);
        trace := trace (snd r) ++
          match fst (fst r) with
          | Some e => [EvLog (LogWorkerFailed (workerID wk) (ID msg) e)]
          | None => []
          end |}).
Proof.
  unfold bind, logf, emit, ret; simpl.
  destruct (processMessage _ _ _ _) as [[[e|] m] [w t]]; simpl; [done|].
  by rewrite (right_id_L [] (++)).
Qed.

Lemma workerIter_wf k p : wf n p -> wf n (workerIter s ctx wc k p).
Proof.
  intros (Hlen & Hnext & Hpanic). unfold workerIter.
  destruct (workers p !! k) as [wk|] eqn:Hk; [|done].
  destruct (exited wk); [done|].
  pose proof (Forall_lookup_1 _ _ _ _ Hnext Hk) as Hi; simpl in Hi.
  case_decide as Hlt.
  - destruct (ctxErr _ _ _).
    + split_and!; simpl; [done| |done].
      apply Forall_insert; [done|]. done.
    + rewrite decide_True by done.
      destruct (lookup_lt_is_Some_2 (messages p) (Z.to_nat (next wk)))
        as [msg Hmsg]; [lia|].
      rewrite Hmsg.
      destruct ((_ ;; _)%go (exec p)) as [r x'].
      split_and!; simpl; [by rewrite length_insert| |done].
      apply Forall_insert; [done|]. simpl.
      rewrite wrap64_id by (unfold min_int64, max_int64, maxLen in *; lia).
      lia.
  - split_and!; simpl; [done| |done].
    apply Forall_insert; [done|]. done.
Qed.

Lemma workerIter_length_workers k p :
  length (workers (workerIter s ctx wc k p)) = length (workers p).
Proof.
  unfold workerIter.
  destruct (workers p !! k) as [wk|] eqn:Hk; [|done].
  destruct (exited wk); [done|].
  case_decide.
  - destruct (ctxErr _ _ _); simpl; [by rewrite length_insert|].
    destruct (if decide _ then _ else _); simpl.
    + destruct ((_ ;; _)%go (exec p)) as [r x']; simpl.
      by rewrite length_insert.
    + by rewrite length_insert.
  - simpl. by rewrite length_insert.
Qed.

Lemma workerIter_other k j p :
  k <> j -> workers (workerIter s ctx wc k p) !! j = workers p !! j.
Proof.
  intros Hkj. unfold workerIter.
  destruct (workers p !! k) as [wk|] eqn:Hk; [|done].
  destruct (exited wk); [done|].
  case_decide.
  - destruct (ctxErr _ _ _); simpl; [by rewrite list_lookup_insert_ne|].
    destruct (if decide _ then _ else _); simpl.
    + destruct ((_ ;; _)%go (exec p)) as [r x']; simpl.
      by rewrite list_lookup_insert_ne.
    + by rewrite list_lookup_insert_ne.
  - simpl. by rewrite list_lookup_insert_ne.
Qed.

(** A worker that has returned takes no further turn. *)
Lemma workerIter_exited k wk p :
  workers p !! k = Some wk -> exited wk = true -> workerIter s ctx wc k p = p.
Proof. intros Hk He. unfold workerIter. by rewrite Hk, He. Qed.

Lemma workerIter_exitedAt k j p : exitedAt p j -> exitedAt (workerIter s ctx wc k p) j.
Proof.
  intros (wk & Hj & He). destruct (decide (k = j)) as [-> | Hkj].
  - rewrite (workerIter_exited _ _ _ Hj He). by exists wk.
  - exists wk. by rewrite workerIter_other.
Qed.

(** A turn of a worker that has not returned either makes it return or
    moves its loop variable on by [wc]. *)
Lemma workerIter_progress k wk p :
  wf n p -> workers p !! k = Some wk -> exited wk = false ->
  exists wk',
    workers (workerIter s ctx wc k p) !! k = Some wk' /\
    (exited wk' = true \/
     (exited wk' = false /\ next wk < n /\ next wk' = next wk + wc)).
Proof.
  intros (Hlen & Hnext & Hpanic) Hk He.
  pose proof (Forall_lookup_1 _ _ _ _ Hnext Hk) as Hi; simpl in Hi.
  pose proof (lookup_lt_Some _ _ _ Hk) as Hklt.
  unfold workerIter. rewrite Hk, He.
  case_decide as Hlt.
  - destruct (ctxErr _ _ _); simpl.
    + eexists. rewrite list_lookup_insert_eq by done. split; [done|]. by left.
    + rewrite decide_True by done.
      destruct (lookup_lt_is_Some_2 (messages p) (Z.to_nat (next wk)))
        as [msg Hmsg]; [lia|].
      rewrite Hmsg.
      destruct ((_ ;; _)%go (exec p)) as [r x']; simpl.
      eexists. rewrite list_lookup_insert_eq by done. split; [done|].
      right. simpl. split_and!; [done|lia|].
      apply wrap64_id. unfold min_int64, max_int64, maxLen in *. lia.
  - simpl. eexists. rewrite list_lookup_insert_eq by done.
    split; [done|]. by left.
Qed.

(** Enough turns make a worker return. *)
Lemma runWorker_exits fuel k wk p :
  wf n p -> workers p !! k = Some wk ->
  (exited wk = true \/ (Z.to_nat (n - next wk) < fuel)%nat) ->
  exitedAt (runWorker s ctx wc fuel k p) k.
Proof.
  revert wk p. induction fuel as [|fuel IH]; intros wk p Hwf Hk Hm.
  - destruct Hm as [He | ?]; [|lia]. by exists wk.
  - simpl. destruct (exited wk) eqn:He.
    + rewrite (workerIter_exited _ _ _ Hk He). eapply IH; eauto.
    + destruct Hm as [? | Hm]; [done|].
      destruct (workerIter_progress k wk p Hwf Hk He)
        as (wk' & Hk' & [He' | (He' & Hlt & Hnext)]).
      * eapply IH; [by apply workerIter_wf| exact Hk' | by left].
      * eapply IH; [by apply workerIter_wf| exact Hk' |]. right. lia.
Qed.

Lemma runWorker_exitedAt fuel k j p :
  exitedAt p j -> exitedAt (runWorker s ctx wc fuel k p) j.
Proof.
  apply (runWorker_invariant (fun p => exitedAt p j)).
  intros k' p'. apply workerIter_exitedAt.
Qed.

Lemma runWorker_wf fuel k p : wf n p -> wf n (runWorker s ctx wc fuel k p).
Proof. apply (runWorker_invariant (wf n)). intros ??. apply workerIter_wf. Qed.

Lemma runWorker_length_workers fuel k p :
  length (workers (runWorker s ctx wc fuel k p)) = length (workers p).
Proof.
  revert p. induction fuel as [|fuel IH]; intros p; simpl; [done|].
  by rewrite IH, workerIter_length_workers.
Qed.

Lemma wait_fold_exits ks p j :
  wf n p -> (forall k, k ∈ ks -> (k < length (workers p))%nat) ->
  j ∈ ks \/ exitedAt p j ->
  exitedAt
    (foldl (fun p k => runWorker s ctx wc (S (length (messages p))) k p) p ks) j.
Proof.
  revert p. induction ks as [|k ks IH]; intros p Hwf Hks Hj; cbn [foldl].
  - destruct Hj as [?%elem_of_nil | ?]; done.
  - apply IH.
    + by apply runWorker_wf.
    + intros k' Hk'. rewrite runWorker_length_workers.
      apply Hks. by right.
    + destruct Hj as [[-> | Hj]%elem_of_cons | Hj]; [right|by left|right].
      * destruct (lookup_lt_is_Some_2 (workers p) k) as [wk Hk];
          [apply Hks; by left|].
        eapply runWorker_exits; [done|exact Hk|]. right.
        destruct Hwf as (Hlen & Hnext & _).
        pose proof (Forall_lookup_1 _ _ _ _ Hnext Hk) as Hi; simpl in Hi.
        lia.
      * by apply runWorker_exitedAt.
Qed.

(** [wg.Wait()] returns with every goroutine done. *)
Lemma wait_joined p : wf n p -> joined (wait s ctx wc p).
Proof.
  intros Hwf. unfold joined. apply Forall_lookup_2. intros j wk Hj.
  assert (Hlen : length (workers (wait s ctx wc p)) = length (workers p)).
  { unfold wait. generalize (seq 0 (length (workers p))). intros ks.
    revert p Hwf Hj.
    induction ks as [|k ks IH]; intros p Hwf Hj; cbn [foldl]; [done|].
    assert (Hnoop : forall q : pool W,
      length (workers (foldl
        (fun p k => runWorker s ctx wc (S (length (messages p))) k p) q ks))
      = length (workers q)).
    { clear. induction ks as [|k ks IH]; intros q; cbn [foldl]; [done|].
      by rewrite IH, runWorker_length_workers. }
    by rewrite Hnoop, runWorker_length_workers. }
  pose proof (lookup_lt_Some _ _ _ Hj) as Hjlt. rewrite Hlen in Hjlt.
  destruct (wait_fold_exits (seq 0 (length (workers p))) p j Hwf)
    as (wk' & Hj' & He).
  - intros k Hk%elem_of_seq. lia.
  - left. apply elem_of_seq. lia.
  - unfold wait in Hj. rewrite Hj in Hj'. by injection Hj' as <-.
Qed.

Lemma failedAt_mono (p p' : pool W) i m0 :
  messages p' !! i = messages p !! i ->
  (forall e, e ∈ trace (exec p) -> e ∈ trace (exec p')) ->
  failedAt p i m0 -> failedAt p' i m0.
Proof.
  intros Hm Ht (externalID & raw & e & uErr & H1 & H2 & H3 & H4).
  exists externalID, raw, e, uErr. rewrite Hm. split_and!; auto.
Qed.

(** While every [Send] fails, a turn of a worker leaves the items taken up
    so far Failed and the others untouched. *)
Lemma workerIter_failedSoFar msgs k p :
  transportAlwaysFails s -> Z.of_nat (length msgs) = n ->
  wf n p -> failedSoFar msgs p -> failedSoFar msgs (workerIter s ctx wc k p).
Proof.
  intros Hfail Hlen (Hlenp & Hnext & Hpanic) Hinv. unfold workerIter.
  destruct (workers p !! k) as [wk|] eqn:Hk; [|done].
  destruct (exited wk); [done|].
  pose proof (Forall_lookup_1 _ _ _ _ Hnext Hk) as Hi; simpl in Hi.
  case_decide as Hlt; [|done].
  destruct (ctxErr _ _ _).
  { intros i. destruct (Hinv i) as [Hp Hm]. unfold processed in *. simpl.
    split.
    - rewrite elem_of_app, list_elem_of_singleton. intros [? | ?]; [auto|done].
    - intros m0 Hm0. destruct (Hm m0 Hm0) as [[Hmsg Hnp] | [Hpr Hf]].
      + left. split; [done|].
        rewrite elem_of_app, list_elem_of_singleton. intros [? | ?]; done.
      + right. split; [apply elem_of_app; by left|].
        eapply failedAt_mono; [| |exact Hf]; simpl; [done|].
        intros e He. apply elem_of_app. by left. }
  rewrite decide_True by done.
  destruct (lookup_lt_is_Some_2 (messages p) (Z.to_nat (next wk)))
    as [msg Hmsg]; [lia|].
  rewrite Hmsg, workerBody. cbn zeta.
  set (msgCtx := WithTimeout _ _ _ _).
  destruct (Hfail msgCtx (To msg) (Content msg) (world (exec p)))
    as (externalID & raw & e & w1 & HS).
  destruct (UpdateStatus (repo s) msgCtx (MarkFailed raw msg) w1)
    as [uErr w2] eqn:HU.
  rewrite (processMessage_send_failed s msgCtx msg
             {| world := world (exec p);
                trace := trace (exec p) ++ [EvLog (LogWorkerIsProcessing (next wk))] |}
             externalID raw e w1 uErr w2 HS HU).
  simpl.
  set (T' := (_ ++ [EvLog (LogWorkerFailed _ _ _)])).
  assert (Hold : forall ev, ev ∈ trace (exec p) -> ev ∈ T').
  { intros ev Hev. unfold T'. rewrite !elem_of_app. auto. }
  assert (Hnew : forall z, EvLog (LogWorkerIsProcessing z) ∈ T' ->
            EvLog (LogWorkerIsProcessing z) ∈ trace (exec p) \/ z = next wk).
  { intros z. unfold T'. destruct uErr; in_trace. }
  assert (Hsend : EvSend (To msg) (Content msg) externalID raw (Some e) ∈ T').
  { unfold T'. in_trace. }
  assert (Hupd : EvUpdateStatus (MarkFailed raw msg) uErr ∈ T').
  { unfold T'. in_trace. }
  assert (Hlog : forall ue, uErr = Some ue ->
            EvLog (LogPersistFailedStatus (ID msg) ue) ∈ T').
  { intros ue ->. unfold T'. in_trace. }
  assert (Hnow : EvLog (LogWorkerIsProcessing (next wk)) ∈ T').
  { unfold T'. in_trace. }
  clearbody T'.
  intros i. destruct (Hinv i) as [Hp Hm]. unfold processed in *. simpl.
  split.
  - intros [? | Hz]%Hnew; [auto|]. lia.
  - intros m0 Hm0. destruct (decide (i = Z.to_nat (next wk))) as [-> | Hne].
    + right.
      assert (Hmsg0 : MarkFailed raw msg = MarkFailed raw m0 /\
                      To msg = To m0 /\ Content msg = Content m0 /\
                      ID msg = ID m0).
      { destruct (Hm m0 Hm0)
          as [[Hmsg' _] | [_ (? & raw' & ? & ? & Hmsg' & _)]];
          rewrite Hmsg in Hmsg'; injection Hmsg' as ->; done. }
      destruct Hmsg0 as (HM & HTo & HCo & HID).
      rewrite HM, HTo, HCo, HID in *.
      split; [by rewrite Z2Nat.id by done|].
      exists externalID, raw, e, uErr. simpl.
      rewrite list_lookup_insert_eq by lia. split_and!; auto.
    + destruct (Hm m0 Hm0) as [[Hmsg' Hnp] | [Hpr Hf]].
      * left. simpl. rewrite list_lookup_insert_ne by done.
        split; [done|]. intros [? | Hz]%Hnew; [done|]. lia.
      * right. split; [by apply Hold|].
        eapply failedAt_mono; [| |exact Hf]; simpl; [|done].
        by rewrite list_lookup_insert_ne.
Qed.

(** A turn in which the worker takes up the item at its loop variable. *)
Lemma workerIter_turn k wk p msg :
  workers p !! k = Some wk -> exited wk = false ->
  next wk < Z.of_nat (length (messages p)) ->
  ctxErr (runtime s) ctx (world (exec p)) = false ->
  0 <= next wk -> messages p !! Z.to_nat (next wk) = Some msg ->
  exists m' x' l,
    workerIter s ctx wc k p =
      {| messages := <[Z.to_nat (next wk) := m']> (messages p);
         workers :=
           <[k := {| workerID := workerID wk;
                     next := wrap64 (next wk + wc);
                     exited := false;
                     visited := visited wk ++ [next wk] |}]> (workers p);
         exec := x'; panicked := panicked p |} /\
    trace x' = trace (exec p) ++ EvLog (LogWorkerIsProcessing (next wk)) :: l.
Proof.
  intros Hk He Hlt Hctx Hi Hmsg. unfold workerIter.
  rewrite Hk, He, decide_True, Hctx, decide_True, Hmsg, workerBody by done.
  cbn zeta.
  set (msgCtx := WithTimeout _ _ _ _).
  destruct (processMessage_extends s msgCtx msg
              {| world := world (exec p);
                 trace := trace (exec p) ++ [EvLog (LogWorkerIsProcessing (next wk))] |})
    as [l Hl].
  eexists _, _, _. split; [done|]. simpl. rewrite Hl. simpl.
  rewrite <- !(assoc_L (++)). done.
Qed.

(** A turn only adds to the trace. *)
Lemma workerIter_trace_mono k p e :
  wf n p -> e ∈ trace (exec p) -> e ∈ trace (exec (workerIter s ctx wc k p)).
Proof.
  intros (Hlen & Hnext & Hpanic) He.
  destruct (workers p !! k) as [wk|] eqn:Hk;
    [|by unfold workerIter; rewrite Hk].
  destruct (exited wk) eqn:Hex; [by unfold workerIter; rewrite Hk, Hex|].
  pose proof (Forall_lookup_1 _ _ _ _ Hnext Hk) as Hi; simpl in Hi.
  destruct (decide (next wk < Z.of_nat (length (messages p)))) as [Hlt|Hge].
  - destruct (ctxErr (runtime s) ctx (world (exec p))) eqn:Hctx.
    + unfold workerIter. rewrite Hk, Hex, decide_True, Hctx by done. simpl.
      apply elem_of_app. by left.
    + destruct (lookup_lt_is_Some_2 (messages p) (Z.to_nat (next wk)))
        as [msg Hmsg]; [lia|].
      destruct (workerIter_turn k wk p msg Hk Hex Hlt Hctx Hi Hmsg)
        as (m' & x' & l & -> & Hx'). simpl. rewrite Hx'.
      apply elem_of_app. by left.
  - unfold workerIter. by rewrite Hk, Hex, decide_False by done.
Qed.

Lemma onStride_mono (p p' : pool W) k wk :
  (forall e, e ∈ trace (exec p) -> e ∈ trace (exec p')) ->
  onStride wc n p k wk -> onStride wc n p' k wk.
Proof.
  intros Hmono (c & ? & ? & ? & ? & ? & Hlog).
  exists c. split_and!; auto.
Qed.

(** While the context is not cancelled every worker stays on its stride. *)
Lemma workerIter_allOnStride k p :
  neverCancelled s ctx -> wf n p ->
  allOnStride wc n p -> allOnStride wc n (workerIter s ctx wc k p).
Proof.
  intros Hnc Hwf Hall j wj Hj.
  assert (Hmono : forall e, e ∈ trace (exec p) ->
                    e ∈ trace (exec (workerIter s ctx wc k p)))
    by (intros e; by apply workerIter_trace_mono).
  destruct (decide (k = j)) as [<- | Hkj].
  2: { rewrite workerIter_other in Hj by done.
       eapply onStride_mono; [exact Hmono|]. by apply Hall. }
  destruct Hwf as (Hlen & Hnext & Hpanic).
  destruct (workers p !! k) as [wk|] eqn:Hk.
  2: { unfold workerIter in Hj. rewrite Hk in Hj. congruence. }
  pose proof (lookup_lt_Some _ _ _ Hk) as Hklt.
  destruct (exited wk) eqn:Hex.
  { rewrite (workerIter_exited _ _ _ Hk Hex) in Hj |- *. by apply Hall. }
  pose proof (Forall_lookup_1 _ _ _ _ Hnext Hk) as Hi; simpl in Hi.
  destruct (Hall k wk Hk) as (c & Hc & Hnx & Hv & Hlast & _ & Hlog).
  destruct (decide (next wk < Z.of_nat (length (messages p)))) as [Hlt|Hge].
  - destruct (lookup_lt_is_Some_2 (messages p) (Z.to_nat (next wk)))
      as [msg Hmsg]; [lia|].
    destruct (workerIter_turn k wk p msg Hk Hex Hlt (Hnc _) Hi Hmsg)
      as (m' & x' & l & Heq & Hx').
    rewrite Heq in Hj |- *. simpl in Hj.
    rewrite list_lookup_insert_eq in Hj by done. injection Hj as <-.
    exists (c + 1). simpl.
    rewrite wrap64_id by (unfold min_int64, max_int64, maxLen in *; lia).
    split_and!; [lia|lia| |intros _; lia|done|].
    + rewrite strideTake_snoc by done. by rewrite Hv, Hnx.
    + intros z [Hz | ->%list_elem_of_singleton]%elem_of_app; rewrite Hx'.
      * apply elem_of_app. left. by apply Hlog.
      * apply elem_of_app. right. apply list_elem_of_here.
  - unfold workerIter in Hj |- *.
    rewrite Hk, Hex, decide_False in Hj |- * by done. simpl in Hj.
    rewrite list_lookup_insert_eq in Hj by done. injection Hj as <-.
    exists c. simpl. split_and!; auto. intros _. lia.
Qed.

Lemma spawn_allOnStride (msgs : list Message) (x : Exec W) :
  allOnStride wc n (spawn wc msgs x).
Proof.
  intros k wk Hk. simpl in Hk. rewrite list_lookup_fmap in Hk.
  destruct (seqZ 0 wc !! k) as [z|] eqn:E; simpl in Hk; [|done].
  apply lookup_seqZ in E as [-> Hlt]. injection Hk as <-.
  exists 0. simpl. split_and!; [lia|lia|done|lia|done|].
  by intros z ?%elem_of_nil.
Qed.

(** Once every worker has returned, uncancelled, all indices below [n]
    have been taken up. *)
Lemma joined_all_processed (p : pool W) i :
  allOnStride wc n p -> joined p ->
  Z.of_nat (length (workers p)) = wc -> Z.of_nat i < n ->
  processed p i.
Proof.
  intros Hall Hj Hlen Hi.
  pose proof (Z.mod_pos_bound (Z.of_nat i) wc ltac:(lia)) as Hm.
  destruct (lookup_lt_is_Some_2 (workers p) (Z.to_nat (Z.of_nat i mod wc)))
    as [wk Hk]; [lia|].
  destruct (Hall _ _ Hk) as (c & Hc & Hnx & Hv & _ & Hex & Hlog).
  rewrite Z2Nat.id in Hnx, Hv by lia.
  apply Hlog. rewrite Hv. apply elem_of_strideTake.
  pose proof (Forall_lookup_1 _ _ _ _ Hj Hk) as He; simpl in He.
  specialize (Hex He).
  pose proof (Z.div_mod (Z.of_nat i) wc ltac:(lia)) as Hdm.
  exists (Z.of_nat i / wc). split; [|lia]. split.
  - apply Z.div_pos; lia.
  - nia.
Qed.

(** And each worker has then taken up exactly its stride. *)
Lemma joined_visited_stride (p : pool W) k wk :
  allOnStride wc n p -> joined p ->
  workers p !! k = Some wk -> Z.of_nat k < wc ->
  stride (Z.of_nat k) n wc = Some (visited wk).
Proof.
  intros Hall Hj Hk Hkwc.
  destruct (Hall _ _ Hk) as (c & Hc & Hnx & Hv & Hlast & Hex & _).
  pose proof (Forall_lookup_1 _ _ _ _ Hj Hk) as He; simpl in He.
  specialize (Hex He). unfold stride.
  rewrite strideFrom_closed by (unfold max_int64, maxLen in *; lia).
  rewrite Hv. do 2 f_equal. apply turns_unique; lia.
Qed.

Lemma spawn_wf (msgs : list Message) (x : Exec W) :
  Z.of_nat (length msgs) = n -> wf n (spawn wc msgs x).
Proof.
  intros Hlen. split_and!; simpl; [done| |done].
  apply Forall_fmap, Forall_forall. intros w Hw%elem_of_seqZ. simpl. lia.
Qed.

Lemma spawn_workers (msgs : list Message) (x : Exec W) :
  Z.of_nat (length (workers (spawn wc msgs x))) = wc.
Proof. simpl. rewrite length_fmap, length_seqZ. lia. Qed.

End Pool.

(** *** The three ways through [ProcessBatch] *)

Section Batch.
Context {W C : Type} (s : messageService W C) (ctx : C) (sched : list nat)
  (w : W).

Lemma ProcessBatch_fetch_failed msgs e w' :
  GetPending (repo s) ctx (batchSize s) w = ((msgs, Some e), w') ->
  ProcessBatch s ctx sched w =
    (Some ("failed to fetch pending messages: " +:+ e),
     noPool {| world := w';
               trace := [EvGetPending (batchSize s) (length msgs) (Some e)] |}).
Proof. intros H. unfold ProcessBatch. run_go. by rewrite H. Qed.

Lemma ProcessBatch_nothing_pending w' :
  GetPending (repo s) ctx (batchSize s) w = (([], None), w') ->
  ProcessBatch s ctx sched w =
    (None,
     noPool {| world := w';
               trace := [EvGetPending (batchSize s) 0 None;
                         EvLog LogNoPending] |}).
Proof. intros H. unfold ProcessBatch. run_go. by rewrite H. Qed.

Lemma ProcessBatch_pool msgs w' :
  GetPending (repo s) ctx (batchSize s) w = ((msgs, None), w') ->
  msgs <> [] ->
  ProcessBatch s ctx sched w =
    let n := Z.of_nat (length msgs) in
    let wc := workerCount n (maxWorkers s) in
    let p :=
      wait s ctx wc
        (runSchedule s ctx wc sched
           (spawn wc msgs
              {| world := w';
                 trace := [EvGetPending (batchSize s) (length msgs) None;
                           EvLog (LogProcessing n (batchSize s) (maxWorkers s))]
              |})) in
    (None,
     {| messages := messages p; workers := workers p;
        exec := {| world := world (exec p);
                   trace := trace (exec p) ++ [EvLog LogPoolCompleted] |};
        panicked := panicked p |}).
Proof.
  intros H Hne. unfold ProcessBatch. run_go. rewrite H; simpl.
  case_decide as Hlen; [by destruct msgs|]. done.
Qed.

(** With the fetch done, the call returns nil, whatever happens to the
    items, once every goroutine has returned. *)
Lemma ProcessBatch_joins msgs w' :
  GetPending (repo s) ctx (batchSize s) w = ((msgs, None), w') ->
  Z.of_nat (length msgs) < maxLen ->
  fst (ProcessBatch s ctx sched w) = None /\
  joined (snd (ProcessBatch s ctx sched w)) /\
  panicked (snd (ProcessBatch s ctx sched w)) = false /\
  (msgs <> [] ->
   Z.of_nat (length (workers (snd (ProcessBatch s ctx sched w))))
   = workerCount (Z.of_nat (length msgs)) (maxWorkers s)).
Proof.
  intros H Hmax. destruct (decide (msgs = [])) as [-> | Hne].
  - rewrite (ProcessBatch_nothing_pending _ H). simpl.
    split_and!; [done|constructor|done|done].
  - rewrite (ProcessBatch_pool _ _ H Hne). cbn zeta. simpl.
    assert (Hpos : 0 < Z.of_nat (length msgs)) by (destruct msgs; simpl; [done|lia]).
    pose proof (workerCount_bounds _ (maxWorkers s) Hpos) as Hwc.
    set (n := Z.of_nat (length msgs)) in *.
    set (wc := workerCount n (maxWorkers s)) in *.
    set (p0 := spawn wc msgs _).
    assert (Hwf0 : wf n p0) by (by apply (spawn_wf wc n)).
    assert (Hwf1 : wf n (runSchedule s ctx wc sched p0)).
    { apply (runSchedule_invariant s ctx wc (wf n)); [|done].
      intros ??. by apply workerIter_wf. }
    assert (Hwf2 : wf n (wait s ctx wc (runSchedule s ctx wc sched p0))).
    { apply (wait_invariant s ctx wc (wf n)); [|done].
      intros ??. by apply workerIter_wf. }
    split_and!; [done| |by destruct Hwf2 as (_ & _ & ?)|].
    + by apply (wait_joined s ctx wc n).
    + intros _.
      assert (Hl : forall q, length (workers (wait s ctx wc q)) = length (workers q)).
      { intros q.
        apply (wait_invariant s ctx wc
                 (fun q' => length (workers q') = length (workers q))); [|done].
        intros k q' <-. apply workerIter_length_workers. }
      assert (Hl' : forall q,
        length (workers (runSchedule s ctx wc sched q)) = length (workers q)).
      { intros q.
        apply (runSchedule_invariant s ctx wc
                 (fun q' => length (workers q') = length (workers q))); [|done].
        intros k q' <-. apply workerIter_length_workers. }
      rewrite Hl, Hl'. by apply (spawn_workers wc n).
Qed.

End Batch.

End PoolFacts.

(** ** Claims about one message *)

Module ItemClaims.
Import Domain Service MessageFacts PoolFacts.

(** C10. After a successful [Send]: when [UpdateStatus] fails,
    [processMessage] returns that error and writes nothing to the cache;
    nothing is written either when the service has no cache or the external
    identifier is empty; and whenever [processMessage] does write a cache
    record, [Send] had succeeded with a non-empty identifier, the Success
    status had been persisted, and the record is the one for that
    identifier. *)
Theorem cache_only_after_persisted_success {W C} (s : messageService W C)
    (ctx : C) (msg : Message) (x : Exec W) externalID raw sErr w1 :
  Send (smsClient s) ctx (To msg) (Content msg) (world x)
    = ((externalID, raw, sErr), w1) ->
  let m' := MarkSent (Now (runtime s) w1) externalID raw msg in
  let uErr := fst (UpdateStatus (repo s) ctx m' w1) in
  let r := processMessage s ctx msg x in
  (sErr = None -> forall e, uErr = Some e ->
     fst (fst r) = Some ("update status for " +:+ ID msg +:+ ": " +:+ e) /\
     Forall (fun ev => isCacheSet ev = false) (since x (snd r))) /\
  (sErr = None -> cache s = None \/ externalID = "" ->
     Forall (fun ev => isCacheSet ev = false) (since x (snd r))) /\
  (forall ev, ev ∈ since x (snd r) -> isCacheSet ev = true ->
     sErr = None /\ uErr = None /\ externalID <> "" /\ is_Some (cache s) /\
     EvUpdateStatus m' None ∈ since x (snd r) /\
     Status_ m' = StatusSuccess /\ MessageID m' = externalID /\
     exists value cErr,
       ev = EvCacheSet ("sent_messages:" +:+ externalID) value (24 * Hour) cErr).
Proof.
  intros HS m' uErr r. subst uErr r.
  destruct sErr as [se|].
  { destruct (UpdateStatus (repo s) ctx (MarkFailed raw msg) w1)
      as [fErr w2] eqn:HF.
    rewrite (processMessage_send_failed s ctx msg x _ _ _ _ _ _ HS HF).
    cbn [fst snd]; rewrite since_app. split_and!; [done|done|].
    intros ev Hev Hc. destruct fErr; in_trace. }
  destruct (UpdateStatus (repo s) ctx m' w1) as [[ue|] w2] eqn:HU; simpl.
  { rewrite (processMessage_persist_failed s ctx msg x _ _ _ _ _ HS HU).
    cbn [fst snd]; rewrite since_app. split_and!.
    - intros _ e [= <-]. split; [done|]. by repeat constructor.
    - intros _ _. by repeat constructor.
    - intros ev Hev Hc. in_trace. }
  destruct (cache s) as [c|] eqn:Hc.
  2: { rewrite (processMessage_no_cache s ctx msg x _ _ _ _ HS HU)
         by (by left).
       cbn [fst snd]; rewrite since_app. split_and!; [done| |].
       - intros _ _. by repeat constructor.
       - intros ev Hev Hcs. in_trace. }
  destruct (decide (externalID = "")) as [Hid | Hid].
  { rewrite (processMessage_no_cache s ctx msg x _ _ _ _ HS HU)
      by (by right).
    cbn [fst snd]; rewrite since_app. split_and!; [done| |].
    - intros _ _. by repeat constructor.
    - intros ev Hev Hcs. in_trace. }
  destruct (Set_ c ctx ("sent_messages:" +:+ externalID)
              (FormatRFC3339 (runtime s) (Now (runtime s) w1)) (24 * Hour) w2)
    as [cErr w3] eqn:HC.
  rewrite (processMessage_cached s ctx msg x _ _ _ _ _ _ _ HS HU Hc Hid HC).
  cbn [fst snd]; rewrite since_app. split_and!; [done| |].
  - intros _ [? | ?]; done.
  - intros ev Hev Hcs. split_and!; try done.
    + in_trace.
    + destruct cErr; in_trace.
Qed.

(** The database is down: the item is Success in memory, the error comes
    back, and the trace holds no cache write. *)
Lemma cache_only_after_persisted_success_witness :
  fst (fst (processMessage
              (Fixtures.svc [] None "X" "ok" None (Some "db down")
                 (Some (Fixtures.cacheOf None)))
              tt Fixtures.msgA Fixtures.start))
  = Some "update status for a: db down" /\
  Forall (fun ev => isCacheSet ev = false)
    (since Fixtures.start
       (snd (processMessage
               (Fixtures.svc [] None "X" "ok" None (Some "db down")
                  (Some (Fixtures.cacheOf None)))
               tt Fixtures.msgA Fixtures.start))).
Proof.
  pose proof (cache_only_after_persisted_success
                (Fixtures.svc [] None "X" "ok" None (Some "db down")
                   (Some (Fixtures.cacheOf None)))
                tt Fixtures.msgA Fixtures.start "X" "ok" None 0 eq_refl)
    as (H & _ & _).
  exact (H eq_refl "db down" eq_refl).
Defined.

(** C5 (as amended). After a successful [Send] the item is marked Success
    with the transport's external identifier and raw response and
    [UpdateStatus] is called with it.  When that call succeeds, the service
    has a cache and the identifier is not empty, one cache record is then
    written, with key [sent_messages:<externalID>] and an expiry of 24
    hours; whether or not the write fails, [processMessage] returns nil, a
    failure adding only a log line. *)
Theorem send_success_effects {W C} (s : messageService W C)
    (ctx : C) (msg : Message) (x : Exec W) externalID raw w1 uErr w2 :
  Send (smsClient s) ctx (To msg) (Content msg) (world x)
    = ((externalID, raw, None), w1) ->
  UpdateStatus (repo s) ctx (MarkSent (Now (runtime s) w1) externalID raw msg) w1
    = (uErr, w2) ->
  let m' := MarkSent (Now (runtime s) w1) externalID raw msg in
  let r := processMessage s ctx msg x in
  (snd (fst r) = m' /\ Status_ m' = StatusSuccess /\
   MessageID m' = externalID /\ RawResponse m' = raw) /\
  take 2 (since x (snd r)) =
    [EvSend (To msg) (Content msg) externalID raw None;
     EvUpdateStatus m' uErr] /\
  (uErr = None -> forall c cErr w3,
     cache s = Some c -> externalID <> "" ->
     Set_ c ctx ("sent_messages:" +:+ externalID)
       (FormatRFC3339 (runtime s) (Now (runtime s) w1)) (24 * Hour) w2
       = (cErr, w3) ->
     fst (fst r) = None /\
     since x (snd r) =
       [EvSend (To msg) (Content msg) externalID raw None;
        EvUpdateStatus m' None;
        EvCacheSet ("sent_messages:" +:+ externalID)
          (FormatRFC3339 (runtime s) (Now (runtime s) w1)) (24 * Hour) cErr]
       ++ match cErr with
          | Some e => [EvLog (LogCacheFailed externalID e)]
          | None => []
          end).
Proof.
  intros HS HU m' r. subst r.
  destruct uErr as [ue|].
  { rewrite (processMessage_persist_failed s ctx msg x _ _ _ _ _ HS HU).
    cbn [fst snd]; rewrite since_app. done. }
  split; [|split].
  - destruct (cache s) as [c|] eqn:Hc; [destruct (decide (externalID = ""))|].
    + by rewrite (processMessage_no_cache s ctx msg x _ _ _ _ HS HU)
        by (by right).
    + destruct (Set_ c ctx ("sent_messages:" +:+ externalID)
                  (FormatRFC3339 (runtime s) (Now (runtime s) w1))
                  (24 * Hour) w2) as [cErr w3] eqn:HC.
      by rewrite (processMessage_cached s ctx msg x _ _ _ _ _ _ _
                    HS HU Hc ltac:(done) HC).
    + by rewrite (processMessage_no_cache s ctx msg x _ _ _ _ HS HU)
        by (by left).
  - destruct (cache s) as [c|] eqn:Hc; [destruct (decide (externalID = ""))|].
    + rewrite (processMessage_no_cache s ctx msg x _ _ _ _ HS HU)
        by (by right).
      cbn [fst snd]; by rewrite since_app.
    + destruct (Set_ c ctx ("sent_messages:" +:+ externalID)
                  (FormatRFC3339 (runtime s) (Now (runtime s) w1))
                  (24 * Hour) w2) as [cErr w3] eqn:HC.
      rewrite (processMessage_cached s ctx msg x _ _ _ _ _ _ _
                 HS HU Hc ltac:(done) HC).
      cbn [fst snd]; by rewrite since_app.
    + rewrite (processMessage_no_cache s ctx msg x _ _ _ _ HS HU)
        by (by left).
      cbn [fst snd]; by rewrite since_app.
  - intros _ c cErr w3 Hc Hid HC.
    rewrite (processMessage_cached s ctx msg x _ _ _ _ _ _ _ HS HU Hc Hid HC).
    cbn [fst snd]; by rewrite since_app.
Qed.

(** Transport and database work, the cache is down. *)
Lemma send_success_effects_witness :
  fst (fst (processMessage
              (Fixtures.svc [] None "X" "ok" None None
                 (Some (Fixtures.cacheOf (Some "redis down"))))
              tt Fixtures.msgA Fixtures.start))
  = None /\
  since Fixtures.start
    (snd (processMessage
            (Fixtures.svc [] None "X" "ok" None None
               (Some (Fixtures.cacheOf (Some "redis down"))))
            tt Fixtures.msgA Fixtures.start))
  = [EvSend "+100" "hello" "X" "ok" None;
     EvUpdateStatus (MarkSent 0 "X" "ok" Fixtures.msgA) None;
     EvCacheSet "sent_messages:X" "2024-01-01T00:00:00Z" (24 * Hour)
       (Some "redis down");
     EvLog (LogCacheFailed "X" "redis down")].
Proof.
  pose proof (send_success_effects
                (Fixtures.svc [] None "X" "ok" None None
                   (Some (Fixtures.cacheOf (Some "redis down"))))
                tt Fixtures.msgA Fixtures.start "X" "ok" 0 None 0
                eq_refl eq_refl) as (_ & _ & H).
  exact (H eq_refl (Fixtures.cacheOf (Some "redis down")) (Some "redis down") 0
           eq_refl ltac:(discriminate) eq_refl).
Defined.

(** C5, counterexample. [Send] succeeds with identifier X but the status
    update fails: no cache record is written. *)
Lemma cached_after_every_successful_send_fails :
  ~ cached_after_every_successful_send
      (Fixtures.svc [] None "X" "ok" None (Some "db down")
         (Some (Fixtures.cacheOf None)))
      tt Fixtures.msgA Fixtures.start.
Proof.
  intros H.
  destruct (H "X" "ok" 0 eq_refl) as (_ & _ & _ & _ & value & cErr & Hin).
  vm_compute in Hin. apply list_elem_of_In in Hin. simpl in Hin.
  intuition discriminate.
Qed.

End ItemClaims.

(** ** Claims about a batch *)

Module BatchClaims.
Import Domain Service StrideFacts MessageFacts PoolFacts.

Section Batch.
Context {W C : Type} (s : messageService W C) (ctx : C) (sched : list nat)
  (w : W).

Lemma failedSoFar_event msgs (p p' : pool W) ev :
  messages p' = messages p ->
  trace (exec p') = trace (exec p) ++ [ev] ->
  (forall z, ev <> EvLog (LogWorkerIsProcessing z)) ->
  failedSoFar msgs p -> failedSoFar msgs p'.
Proof.
  intros Hm Ht Hev Hinv i. destruct (Hinv i) as [Hp Hf].
  unfold processed in *. rewrite Ht. split.
  - rewrite elem_of_app, list_elem_of_singleton.
    intros [? | ?]; [auto|]. by edestruct Hev.
  - intros m0 Hm0. destruct (Hf m0 Hm0) as [[Hmsg Hnp] | [Hpr Hfa]].
    + left. rewrite Hm. split; [done|].
      rewrite elem_of_app, list_elem_of_singleton.
      intros [? | ?]; [done|]. by edestruct Hev.
    + right. split; [apply elem_of_app; by left|].
      eapply failedAt_mono; [| |exact Hfa].
      * by rewrite Hm.
      * intros e He. rewrite Ht, elem_of_app. by left.
Qed.

Lemma spawn_failedSoFar wc msgs lim len n bs mw (w' : W) :
  failedSoFar msgs
    (spawn wc msgs
       {| world := w';
          trace := [EvGetPending lim len None;
                    EvLog (LogProcessing n bs mw)] |}).
Proof.
  intros i. unfold processed. simpl. split.
  - intros [? | [? | (z & ? & _)%list_elem_of_fmap]%elem_of_cons]%elem_of_cons;
      done.
  - intros m0 Hm0. left. split; [done|].
    intros [? | [? | (z & ? & _)%list_elem_of_fmap]%elem_of_cons]%elem_of_cons;
      done.
Qed.

Lemma ProcessBatch_failedSoFar msgs w' :
  transportAlwaysFails s ->
  GetPending (repo s) ctx (batchSize s) w = ((msgs, None), w') ->
  Z.of_nat (length msgs) < maxLen ->
  failedSoFar msgs (snd (ProcessBatch s ctx sched w)).
Proof.
  intros Hfail H Hmax. destruct (decide (msgs = [])) as [-> | Hne].
  - rewrite (ProcessBatch_nothing_pending _ _ _ _ _ H). simpl.
    intros i. unfold processed; simpl. split.
    + intros [? | [? | ?%elem_of_nil]%elem_of_cons]%elem_of_cons; done.
    + intros m0 Hm0. done.
  - rewrite (ProcessBatch_pool _ _ _ _ _ _ H Hne). cbn zeta. cbn [snd].
    assert (Hpos : 0 < Z.of_nat (length msgs))
      by (destruct msgs; simpl; [done|lia]).
    pose proof (workerCount_bounds _ (maxWorkers s) Hpos) as Hwc.
    set (n := Z.of_nat (length msgs)) in *.
    set (wc := workerCount n (maxWorkers s)) in *.
    set (p0 := spawn wc msgs _).
    set (P := fun q : pool W => wf n q /\ failedSoFar msgs q).
    assert (Hstep : forall k q, P q -> P (workerIter s ctx wc k q)).
    { intros k q [Hwf Hinv]. split.
      - by apply workerIter_wf.
      - by apply (workerIter_failedSoFar s ctx wc n). }
    assert (H0 : P p0).
    { split; [by apply (spawn_wf wc n)|]. apply spawn_failedSoFar. }
    assert (H1 : P (wait s ctx wc (runSchedule s ctx wc sched p0))).
    { apply (wait_invariant s ctx wc P Hstep).
      by apply (runSchedule_invariant s ctx wc P Hstep). }
    destruct H1 as [_ H1].
    eapply failedSoFar_event; [..|exact H1]; done.
Qed.

(** A batch whose context is never cancelled: every fetched item is taken
    up, and each worker has taken up exactly its stride. *)
Lemma ProcessBatch_uncancelled msgs w' :
  neverCancelled s ctx ->
  GetPending (repo s) ctx (batchSize s) w = ((msgs, None), w') ->
  Z.of_nat (length msgs) < maxLen ->
  (forall i, (i < length msgs)%nat ->
     processed (snd (ProcessBatch s ctx sched w)) i) /\
  (forall k wk,
     workers (snd (ProcessBatch s ctx sched w)) !! k = Some wk ->
     stride (Z.of_nat k) (Z.of_nat (length msgs))
       (workerCount (Z.of_nat (length msgs)) (maxWorkers s))
     = Some (visited wk)).
Proof.
  intros Hnc H Hmax. destruct (decide (msgs = [])) as [-> | Hne].
  { rewrite (ProcessBatch_nothing_pending _ _ _ _ _ H). simpl.
    split; [intros i ?; lia | by intros k wk ?]. }
  rewrite (ProcessBatch_pool _ _ _ _ _ _ H Hne). cbn zeta. cbn [snd].
  assert (Hpos : 0 < Z.of_nat (length msgs))
    by (destruct msgs; simpl; [done|lia]).
  pose proof (workerCount_bounds _ (maxWorkers s) Hpos) as Hwc.
  set (n := Z.of_nat (length msgs)) in *.
  set (wc := workerCount n (maxWorkers s)) in *.
  set (p0 := spawn wc msgs _).
  set (P := fun q : pool W =>
              wf n q /\ allOnStride wc n q /\
              Z.of_nat (length (workers q)) = wc).
  assert (Hstep : forall k q, P q -> P (workerIter s ctx wc k q)).
  { intros k q (Hwf & Hall & Hl). split_and!.
    - by apply workerIter_wf.
    - by apply workerIter_allOnStride.
    - by rewrite workerIter_length_workers. }
  assert (H0 : P p0).
  { split_and!; [by apply (spawn_wf wc n)|apply spawn_allOnStride|].
    by apply (spawn_workers wc n). }
  assert (H1 : wf n (runSchedule s ctx wc sched p0)).
  { by apply (runSchedule_invariant s ctx wc P Hstep). }
  assert (H2 : P (wait s ctx wc (runSchedule s ctx wc sched p0))).
  { apply (wait_invariant s ctx wc P Hstep).
    by apply (runSchedule_invariant s ctx wc P Hstep). }
  pose proof (wait_joined s ctx wc n Hwc Hmax _ H1) as Hj.
  destruct H2 as (_ & Hall & Hl).
  split.
  - intros i Hi. unfold processed. simpl. apply elem_of_app. left.
    apply (joined_all_processed wc n Hwc); try done. unfold n. lia.
  - intros k wk Hk. simpl in Hk.
    apply (joined_visited_stride wc n Hwc Hmax _ _ _ Hall Hj Hk).
    apply lookup_lt_Some in Hk. lia.
Qed.

End Batch.

(** C6. When every [Send] fails, [ProcessBatch] returns nil, with all
    workers joined; every item a worker took up is then in status Failed
    holding the raw response of a failed [Send] for it, and [UpdateStatus]
    was called with it, a failure of that call being only logged; the items
    no worker took up are untouched, and there are none when the context is
    never cancelled. *)
Theorem transport_failure_marks_failed {W C} (s : messageService W C)
    (ctx : C) (sched : list nat) (w : W) msgs w' :
  transportAlwaysFails s ->
  GetPending (repo s) ctx (batchSize s) w = ((msgs, None), w') ->
  Z.of_nat (length msgs) < maxLen ->
  fst (ProcessBatch s ctx sched w) = None /\
  joined (snd (ProcessBatch s ctx sched w)) /\
  (forall i, processed (snd (ProcessBatch s ctx sched w)) i ->
     exists m0 m externalID raw e uErr,
       msgs !! i = Some m0 /\
       messages (snd (ProcessBatch s ctx sched w)) !! i = Some m /\
       Status_ m = StatusFailed /\ RawResponse m = raw /\
       m = MarkFailed raw m0 /\
       EvSend (To m0) (Content m0) externalID raw (Some e)
         ∈ trace (exec (snd (ProcessBatch s ctx sched w))) /\
       EvUpdateStatus m uErr
         ∈ trace (exec (snd (ProcessBatch s ctx sched w))) /\
       (forall ue, uErr = Some ue ->
          EvLog (LogPersistFailedStatus (ID m0) ue)
            ∈ trace (exec (snd (ProcessBatch s ctx sched w))))) /\
  (forall i m0, msgs !! i = Some m0 ->
     ~ processed (snd (ProcessBatch s ctx sched w)) i ->
     messages (snd (ProcessBatch s ctx sched w)) !! i = Some m0) /\
  (neverCancelled s ctx ->
   forall i, (i < length msgs)%nat ->
     processed (snd (ProcessBatch s ctx sched w)) i).
Proof.
  intros Hfail H Hmax.
  destruct (ProcessBatch_joins s ctx sched w msgs w' H Hmax) as (He & Hj & _).
  pose proof (ProcessBatch_failedSoFar s ctx sched w msgs w' Hfail H Hmax)
    as Hinv.
  split; [done|]. split; [done|]. split; [|split].
  3: { intros Hnc.
       by destruct (ProcessBatch_uncancelled s ctx sched w msgs w' Hnc H Hmax). }
  - intros i Hp. destruct (Hinv i) as [Hlt Hf].
    destruct (lookup_lt_is_Some_2 msgs i (Hlt Hp)) as [m0 Hm0].
    destruct (Hf m0 Hm0)
      as [[_ Hnp] | [_ (externalID & raw & e & uErr & H1 & H2 & H3 & H4)]];
      [done|].
    exists m0, (MarkFailed raw m0), externalID, raw, e, uErr.
    split_and!; done.
  - intros i m0 Hm0 Hnp. destruct (Hinv i) as [_ Hf].
    by destruct (Hf m0 Hm0) as [[? _] | [? _]].
Qed.

(** Two pending items, a provider that answers 500, a database that is
    down; the second worker runs first. *)
Lemma transport_failure_marks_failed_witness :
  fst (ProcessBatch
         (Fixtures.svc [Fixtures.msgA; Fixtures.msgB] None "" "HTTP 500"
            (Some "non-2xx") (Some "db down") None)
         tt [1%nat; 0%nat] 0) = None /\
  messages
    (snd (ProcessBatch
            (Fixtures.svc [Fixtures.msgA; Fixtures.msgB] None "" "HTTP 500"
               (Some "non-2xx") (Some "db down") None)
            tt [1%nat; 0%nat] 0))
  = [MarkFailed "HTTP 500" Fixtures.msgA; MarkFailed "HTTP 500" Fixtures.msgB].
Proof.
  pose proof (transport_failure_marks_failed
                (Fixtures.svc [Fixtures.msgA; Fixtures.msgB] None "" "HTTP 500"
                   (Some "non-2xx") (Some "db down") None)
                tt [1%nat; 0%nat] 0 [Fixtures.msgA; Fixtures.msgB] 0) as H.
  destruct H as (H1 & _).
  - intros c to content w0. by exists "", "HTTP 500", "non-2xx", w0.
  - reflexivity.
  - unfold maxLen. simpl. lia.
  - split; [exact H1 | reflexivity].
Defined.

(** C4. [ProcessBatch] returns an error exactly when the initial fetch
    fails.  When the fetch returns no items it returns nil at once: no
    worker is started and nothing but the fetch is called.  When the fetch
    returns items it returns nil whatever the transport, the repository and
    the cache do with each item, and only after every worker has returned. *)
Theorem ProcessBatch_error_iff_fetch_fails {W C} (s : messageService W C)
    (ctx : C) (sched : list nat) (w : W) :
  (fst (ProcessBatch s ctx sched w) <> None <->
   snd (fst (GetPending (repo s) ctx (batchSize s) w)) <> None) /\
  (forall w', GetPending (repo s) ctx (batchSize s) w = (([], None), w') ->
     ProcessBatch s ctx sched w =
       (None,
        {| messages := []; workers := [];
           exec := {| world := w';
                      trace := [EvGetPending (batchSize s) 0 None;
                                EvLog LogNoPending] |};
           panicked := false |})) /\
  (forall msgs w',
     GetPending (repo s) ctx (batchSize s) w = ((msgs, None), w') ->
     Z.of_nat (length msgs) < maxLen ->
     fst (ProcessBatch s ctx sched w) = None /\
     joined (snd (ProcessBatch s ctx sched w)) /\
     panicked (snd (ProcessBatch s ctx sched w)) = false /\
     (msgs <> [] ->
      Z.of_nat (length (workers (snd (ProcessBatch s ctx sched w))))
      = Z.max 1 (Z.min (maxWorkers s) (Z.of_nat (length msgs))))).
Proof.
  split; [|split].
  - destruct (GetPending (repo s) ctx (batchSize s) w) as [[msgs [e|]] w']
      eqn:H; simpl.
    + by rewrite (ProcessBatch_fetch_failed s ctx sched w msgs e w' H).
    + destruct (decide (msgs = [])) as [-> | Hne].
      * by rewrite (ProcessBatch_nothing_pending s ctx sched w w' H).
      * by rewrite (ProcessBatch_pool s ctx sched w msgs w' H Hne).
  - intros w' H. by rewrite (ProcessBatch_nothing_pending s ctx sched w w' H).
  - intros msgs w' H Hmax.
    destruct (ProcessBatch_joins s ctx sched w msgs w' H Hmax)
      as (H1 & H2 & H3 & H4).
    split_and!; try done.
    intros Hne. rewrite (H4 Hne). apply workerCount_max_min.
Qed.

(** An empty queue; a failing fetch; and two items whose transport, status
    update and cache write all go through. *)
Lemma ProcessBatch_error_iff_fetch_fails_witness :
  ProcessBatch (Fixtures.svc [] None "X" "ok" None None None) tt [] 0
  = (None,
     {| messages := []; workers := [];
        exec := {| world := 0;
                   trace := [EvGetPending 2 0 None; EvLog LogNoPending] |};
        panicked := false |}) /\
  fst (ProcessBatch
         (Fixtures.svc [] (Some "connection refused") "X" "ok" None None None)
         tt [] 0) <> None /\
  joined
    (snd (ProcessBatch
            (Fixtures.svc [Fixtures.msgA; Fixtures.msgB] None "X" "ok"
               None None (Some (Fixtures.cacheOf None)))
            tt [0%nat] 0)).
Proof.
  split; [|split].
  - apply (ProcessBatch_error_iff_fetch_fails
             (Fixtures.svc [] None "X" "ok" None None None) tt [] 0).
    reflexivity.
  - apply (ProcessBatch_error_iff_fetch_fails
             (Fixtures.svc [] (Some "connection refused") "X" "ok"
                None None None) tt [] 0).
    simpl. discriminate.
  - apply (ProcessBatch_error_iff_fetch_fails
             (Fixtures.svc [Fixtures.msgA; Fixtures.msgB] None "X" "ok"
                None None (Some (Fixtures.cacheOf None))) tt [0%nat] 0)
      with (msgs := [Fixtures.msgA; Fixtures.msgB]) (w' := 0).
    + reflexivity.
    + unfold maxLen. simpl. lia.
Defined.

(** The arithmetic of the stride assignment.  For [N > 0] items
    [workerCount] is [max 1 (min maxWorkers N)]; the loop header of worker
    [k] yields exactly the indices below [N] that are congruent to [k]
    modulo the worker count, each once, and at most
    [ceil (N / workerCount)] of them; every index below [N] is in exactly
    one of these shares, and all shares together are a permutation of
    [0, N).  In a batch whose context is not cancelled a worker of the pool
    has, when [ProcessBatch] returns, taken up exactly its share. *)
Lemma stride_assignment_spec (N maxWorkers : Z) :
  0 < N -> N < maxLen ->
  workerCount N maxWorkers = Z.max 1 (Z.min maxWorkers N) /\
  (forall k, 0 <= k < workerCount N maxWorkers ->
     exists l,
       stride k N (workerCount N maxWorkers) = Some l /\
       (forall x, x ∈ l <->
          exists j, 0 <= j /\ x = k + j * workerCount N maxWorkers /\ x < N) /\
       (forall x, x ∈ l <-> 0 <= x < N /\ x mod workerCount N maxWorkers = k) /\
       NoDup l /\
       Z.of_nat (length l) <= ceilDiv N (workerCount N maxWorkers)) /\
  (forall x, 0 <= x < N ->
     exists k, (0 <= k < workerCount N maxWorkers /\
                exists l, stride k N (workerCount N maxWorkers) = Some l /\ x ∈ l)
               /\
               forall k', (0 <= k' < workerCount N maxWorkers /\
                  exists l, stride k' N (workerCount N maxWorkers) = Some l
                            /\ x ∈ l) -> k' = k) /\
  assignment N (workerCount N maxWorkers) ≡ₚ seqZ 0 N /\
  (forall (W C : Type) (s : messageService W C) ctx sched w msgs w' k wk,
     neverCancelled s ctx ->
     GetPending (repo s) ctx (batchSize s) w = ((msgs, None), w') ->
     Z.of_nat (length msgs) = N -> Service.maxWorkers s = maxWorkers ->
     workers (snd (ProcessBatch s ctx sched w)) !! k = Some wk ->
     stride (Z.of_nat k) N (workerCount N maxWorkers) = Some (visited wk)).
Proof.
  intros HN Hmax.
  pose proof (workerCount_bounds N maxWorkers HN) as Hwc.
  split_and!.
  5: { intros W C s ctx sched w msgs w' k wk Hnc H <- <- Hk.
       destruct (ProcessBatch_uncancelled s ctx sched w msgs w' Hnc H Hmax)
         as [_ Hv]. by apply Hv. }
  - apply workerCount_max_min.
  - intros k Hk.
    destruct (share_spec k N _ Hwc Hmax Hk) as (l & Hl & Hin & Hnd & Hlen).
    exists l. split_and!; try done.
    intros x. rewrite Hin. symmetry. apply stride_member; lia.
  - intros x Hx.
    pose proof (Z.mod_pos_bound x (workerCount N maxWorkers) ltac:(lia)) as Hm.
    exists (x mod workerCount N maxWorkers). split.
    + split; [lia|].
      destruct (share_spec _ N _ Hwc Hmax Hm) as (l & Hl & Hin & _).
      exists l. split; [done|]. by apply Hin.
    + intros k' (Hk' & l & Hl & Hxl).
      destruct (share_spec _ N _ Hwc Hmax Hk') as (l' & Hl' & Hin & _).
      rewrite Hl in Hl'. injection Hl' as <-.
      by apply Hin in Hxl as [_ <-].
  - apply NoDup_Permutation.
    + by apply assignment_NoDup.
    + apply NoDup_seqZ.
    + intros x. rewrite assignment_elem, elem_of_seqZ by done. lia.
Qed.

End BatchClaims.

(** ** The scheduler's loop *)

Module SchedulerFacts.
Import Scheduler.

Lemma run_app s tr1 tr2 :
  run s (tr1 ++ tr2) = match run s tr1 with
                       | Some s' => run s' tr2
                       | None => None
                       end.
Proof.
  revert s. induction tr1 as [|e tr1 IH]; intros s; simpl; [done|].
  destruct (step s e); [apply IH|done].
Qed.

Lemma reachable_step s e s' : reachable s -> step s e = Some s' -> reachable s'.
Proof.
  intros [tr Htr] He. exists (tr ++ [e]). rewrite run_app, Htr. simpl.
  by rewrite He.
Qed.

(** Induction over the runs of the system. *)
Lemma run_invariant (P : system -> Prop) :
  (forall s e s', P s -> step s e = Some s' -> P s') ->
  forall tr s0 s, P s0 -> run s0 tr = Some s -> P s.
Proof.
  intros Hstep tr. induction tr as [|e tr IH]; intros s0 s H0 Hrun; simpl in *.
  - by injection Hrun as <-.
  - destruct (step s0 e) as [s1|] eqn:He; [|done]. eauto.
Qed.

(** At the [select], with no batch executing and no ack held, every command
    is answered at once on its own reply channel. *)
Lemma onCtrl_at_select v m :
  inBatch v = false -> pendingStop v = None ->
  exists v' b,
    onCtrl v m = (v', [(resp m, b)]) /\
    inBatch v' = false /\ pendingStop v' = None /\
    match op m with
    | opStart => running v' = true
    | opStop => running v' = false
    | opStatus => v' = v /\ b = running v
    end.
Proof.
  intros Hb Hp. unfold onCtrl. destruct (op m); simpl.
  - eexists _, _. split; [done|]. simpl. by rewrite Hb, Hp.
  - rewrite Hb. destruct (running v) eqn:Hr; simpl.
    + eexists _, _. split; [done|]. simpl. by rewrite Hp.
    + eexists _, _. split; [done|]. by rewrite Hb, Hp, Hr.
  - eexists _, _. split; [done|]. by rewrite Hb, Hp.
Qed.

Lemma deliver_own m b :
  deliver [(resp m, b)] AtSelect (Awaiting m 0)
  = (AtSelect, Returned m (onReply (op m) b) 0).
Proof. simpl. by rewrite decide_True. Qed.

Lemma Inv_init : Inv init.
Proof. by repeat split. Qed.

Lemma Inv_step s e s' : Inv s -> step s e = Some s' -> Inv s'.
Proof.
  intros (Hp & Hh & Hsd & Hpc & Hc) Hstep.
  destruct e as [o | | | d | dt | err]; cbn [step] in Hstep.
  - (* a call begins *)
    assert (Hnew : Some
      {| vars := vars s; pc := pc s;
         client := Sending {| op := o; resp := nextChan s |} 0;
         nextChan := S (nextChan s); started := started s;
         finished := finished s;
         calledDuring :=
           match pc s with
           | InProcessBatch r => Some (started s, r)
           | _ => None
           end;
         held := held s; stopDuring := stopDuring s |} = Some s').
    { destruct (client s); done. }
    injection Hnew as <-. clear Hstep.
    split_and!; simpl; try done.
    unfold callInv; simpl. destruct (pc s) as [|r|]; [done| |done].
    split; [done|]. intros _. exists r. split; [done|lia].
  - (* the loop takes the command *)
    destruct (pc s) eqn:Hpcs; [|done..].
    destruct (client s) as [|m w| |] eqn:Hcl; try done.
    destruct Hpc as [Hb Hsf].
    destruct (onCtrl_at_select (vars s) m Hb Hp)
      as (v' & b & Hon & Hb' & Hp' & _).
    rewrite Hon, deliver_own in Hstep. injection Hstep as <-.
    split_and!; simpl; try done.
    + unfold answered. simpl. rewrite Hh.
      rewrite filter_cons_False; [done|].
      rewrite bool_decide_eq_true_2; [done|]. apply list_elem_of_here.
    + rewrite Hb, Hsd. by destruct (op m).
    + unfold callInv in *; simpl. rewrite Hpcs, Hcl in Hc.
      destruct (calledDuring s) as [[b0 d0]|]; [|done].
      destruct Hc as [Hle Hc]. split; [done|].
      intros Hlt. by destruct (Hc Hlt) as (? & ? & _).
  - (* a control timeout fires *)
    destruct (client s) as [|m w|m w|] eqn:Hcl; try done.
    + destruct (hasTimeout (op m) && bool_decide (controlTimeout <= w))
        eqn:Ht; [|done].
      injection Hstep as <-.
      apply andb_prop in Ht as [_ Ht%bool_decide_eq_true].
      split_and!; simpl; try done.
      unfold callInv in *; simpl. rewrite Hcl in Hc.
      destruct (calledDuring s) as [[b0 d0]|]; [|done].
      destruct Hc as [Hle Hc]. split; [done|].
      intros Hlt. destruct (Hc Hlt) as (r & Hr & Hsum).
      rewrite Hr in Hpc. split; [by eexists|]. lia.
    + destruct (hasTimeout (op m) && bool_decide (controlTimeout <= w))
        eqn:Ht; [|done].
      injection Hstep as <-.
      split_and!; simpl; try done.
      unfold callInv in *; simpl. rewrite Hcl in Hc.
      destruct (calledDuring s) as [[b0 d0]|]; [|done].
      destruct Hc as [Hle Hc]. split; [done|].
      intros Hlt. by destruct (Hc Hlt).
  - (* the loop takes a tick *)
    destruct (pc s) eqn:Hpcs; [|done..].
    destruct Hpc as [Hb Hsf].
    unfold onTick in Hstep.
    destruct (negb (running (vars s)) || inBatch (vars s)).
    + injection Hstep as <-. split_and!; try done. by rewrite Hpcs.
    + destruct (bool_decide (0 <= d)) eqn:Hd; [|done].
      apply bool_decide_eq_true in Hd. injection Hstep as <-.
      split_and!; simpl; try done; [by rewrite Hsf|].
      unfold callInv in *; simpl.
      destruct (calledDuring s) as [[b0 d0]|]; [|done].
      destruct Hc as [Hle Hc]. split; [lia|].
      intros Hlt. specialize (Hc Hlt).
      destruct (client s); try done.
      destruct Hc as (r & Hr & _). by rewrite Hpcs in Hr.
  - (* time passes *)
    destruct (bool_decide (0 < dt)) eqn:Hdt; [|done].
    apply bool_decide_eq_true in Hdt.
    destruct (waitMore (client s) dt) as [cl|] eqn:Hw; [|done].
    assert (Hcall : forall s1,
      vars s1 = vars s -> started s1 = started s ->
      finished s1 = finished s -> calledDuring s1 = calledDuring s ->
      client s1 = cl ->
      (forall r, pc s = InProcessBatch r -> pc s1 = InProcessBatch (r - dt)) ->
      callInv s1).
    { intros s1 Hv Hs Hf Hcd Hcl1 Hpc1. unfold callInv in *.
      rewrite Hcd, Hs, Hf.
      destruct (calledDuring s) as [[b0 d0]|]; [|done].
      destruct Hc as [Hle Hc]. split; [done|].
      intros Hlt. specialize (Hc Hlt). rewrite Hcl1.
      unfold waitMore in Hw.
      destruct (client s) as [|m w|m w|]; try done.
      - by injection Hw as <-.
      - destruct (hasTimeout (op m) && _); [done|]. injection Hw as <-.
        destruct Hc as (r & Hr & Hsum).
        exists (r - dt). split; [by apply Hpc1|lia].
      - by injection Hw as <-. }
    destruct (pc s) as [|r|c] eqn:Hpcs.
    + injection Hstep as <-. split_and!; simpl; try done.
      by apply Hcall.
    + destruct (bool_decide (dt <= r)) eqn:Hr; [|done].
      apply bool_decide_eq_true in Hr. injection Hstep as <-.
      destruct Hpc as (? & ? & ?).
      split_and!; simpl; try done.
      * split_and!; [done|lia|done].
      * apply Hcall; try done. by intros ? [= <-].
    + done.
  - (* the batch returns *)
    destruct (pc s) as [|r|c] eqn:Hpcs; [done| |done].
    destruct (bool_decide (r = 0)) eqn:Hr; [|done].
    unfold onBatchReturn in Hstep. rewrite Hp in Hstep. simpl in Hstep.
    injection Hstep as <-. destruct Hpc as (? & ? & Hsf).
    split_and!; simpl; try done.
    + by rewrite Hh.
    + unfold callInv in *; simpl.
      destruct (calledDuring s) as [[b0 d0]|]; [|done].
      destruct Hc as [Hle Hc]. split; [done|]. intros Hlt. lia.
Qed.

Lemma reachable_Inv s : reachable s -> Inv s.
Proof.
  intros [tr Htr]. eapply (run_invariant Inv); [|apply Inv_init|exact Htr].
  apply Inv_step.
Qed.

(** The deferred acknowledgement is never used: the loop takes commands
    only at its [select], where no batch is executing. *)
Lemma pendingStop_never_set s : reachable s -> pendingStop (vars s) = None.
Proof. by intros (? & _)%reachable_Inv. Qed.

Lemma heldOnlyInBatch_step s e s' :
  heldOnlyInBatch s -> step s e = Some s' -> heldOnlyInBatch s'.
Proof.
  unfold heldOnlyInBatch. intros HJ Hstep.
  destruct e as [o | | | d | dt | err]; cbn [step] in Hstep.
  - destruct (client s); simplify_eq; done.
  - destruct (pc s); [|done..]. destruct (client s) as [|m w| |]; try done.
    destruct (onCtrl (vars s) m) as [v rs] eqn:Hon.
    destruct (deliver rs AtSelect (Awaiting m 0)) as [pc' cl].
    injection Hstep as <-. simpl. unfold onCtrl in Hon.
    destruct (op m); simpl in *.
    + injection Hon as <- <-. simpl. done.
    + destruct (running (vars s)), (inBatch (vars s)) eqn:Hb; simpl in *;
        injection Hon as <- <-; simpl; intros Hp;
        first [ split; [done|apply orb_true_r]
              | destruct (HJ Hp) as [? _]; congruence ].
    + injection Hon as <- <-. done.
  - destruct (client s) as [|m w|m w|]; try done;
      destruct (hasTimeout (op m) && _); simplify_eq; done.
  - destruct (pc s); [|done..]. unfold onTick in Hstep.
    destruct (negb (running (vars s)) || inBatch (vars s)) eqn:Hg.
    + by injection Hstep as <-.
    + destruct (bool_decide (0 <= d)); [|done]. injection Hstep as <-. simpl.
      intros Hp. destruct (HJ Hp) as [Hb _].
      rewrite Hb, orb_true_r in Hg. done.
  - destruct (bool_decide (0 < dt)); [|done].
    destruct (waitMore (client s) dt); [|done].
    destruct (pc s) as [|r|c0]; [| |].
    + by injection Hstep as <-.
    + destruct (bool_decide (dt <= r)); [|done]. by injection Hstep as <-.
    + by injection Hstep as <-.
  - destruct (pc s) as [|r|c0]; [done| |done].
    destruct (bool_decide (r = 0)); [|done].
    destruct (onBatchReturn (vars s) err) as [v rs] eqn:Hon.
    destruct (deliver rs AtSelect (client s)) as [pc' cl].
    injection Hstep as <-. simpl. unfold onBatchReturn in Hon.
    destruct (pendingStop (vars s)); injection Hon as <- <-; done.
Qed.

End SchedulerFacts.

(** ** Claims about the scheduler *)

Module SchedulerClaims.
Import Scheduler SchedulerFacts.

(** C8. The stop-ack slot is non-empty only while [inBatch] is true and a
    Stop was requested during that batch: this holds initially and is kept
    by every step of the loop, so it holds in every reachable state; and
    in every reachable state the reply channels the loop has received and
    not answered are exactly the content of the slot, hence at most one. *)
Theorem pendingStop_only_in_batch :
  heldOnlyInBatch init /\
  (forall s e s', heldOnlyInBatch s -> step s e = Some s' ->
     heldOnlyInBatch s') /\
  (forall s, reachable s ->
     heldOnlyInBatch s /\
     held s = option_list (pendingStop (vars s)) /\
     (length (held s) <= 1)%nat).
Proof.
  split; [done|]. split; [apply heldOnlyInBatch_step|].
  intros s Hr. pose proof (reachable_Inv s Hr) as (Hp & Hh & _).
  split_and!.
  - unfold heldOnlyInBatch. by rewrite Hp.
  - by rewrite Hp, Hh.
  - rewrite Hh. simpl. lia.
Qed.

(** After a Stop served behind a batch; and one step from a state of the
    loop variables in which a Stop arrives while [inBatch] is set. *)
Lemma pendingStop_only_in_batch_witness :
  heldOnlyInBatch Fixtures.afterStopIsServed /\
  held Fixtures.afterStopIsServed = [] /\
  pendingStop
    (fst (onCtrl {| running := true; inBatch := true; pendingStop := None |}
            {| op := opStop; resp := 7%nat |})) = Some 7%nat.
Proof.
  destruct pendingStop_only_in_batch as (_ & _ & H).
  destruct (H Fixtures.afterStopIsServed) as (H1 & H2 & _).
  - exists Fixtures.stopIsServed. reflexivity.
  - split; [exact H1|]. split; [exact H2|reflexivity].
Defined.

(** Each step of the loop with its ticker is a step of the loop, or leaves
    the loop as it is. *)
Lemma tstep_sys cfg t e t' :
  tstep cfg t e = Some t' ->
  sys t' = sys t \/ exists e0, step (sys t) e0 = Some (sys t').
Proof.
  destruct e as [|d|e]; cbn [tstep]; intros H.
  - case_bool_decide; simplify_eq. by left.
  - destruct (tickHeld t); [|done].
    destruct (step (sys t) (EvTick d)) as [s'|] eqn:Hs; simplify_eq.
    right. by exists (EvTick d).
  - destruct e as [o| | |d|dt|err]; try done.
    + destruct (step (sys t) (EvCall o)) as [s'|] eqn:Hs; simplify_eq.
      right. by exists (EvCall o).
    + destruct (step (sys t) EvAccept) as [s'|] eqn:Hs; simplify_eq.
      right. by exists EvAccept.
    + destruct (step (sys t) EvTimeout) as [s'|] eqn:Hs; simplify_eq.
      right. by exists EvTimeout.
    + case_bool_decide; [|done].
      destruct (step (sys t) (EvElapse dt)) as [s'|] eqn:Hs; simplify_eq.
      right. by exists (EvElapse dt).
    + destruct (step (sys t) (EvBatchReturn err)) as [s'|] eqn:Hs; simplify_eq.
      right. by exists (EvBatchReturn err).
Qed.

Lemma trun_sys_reachable cfg tr :
  forall t t', reachable (sys t) -> trun cfg t tr = Some t' -> reachable (sys t').
Proof.
  induction tr as [|e tr IH]; intros t t' Hr H; cbn [trun] in H.
  - by simplify_eq.
  - destruct (tstep cfg t e) as [t1|] eqn:Hs; [|done].
    apply (IH t1 t'); [|done].
    destruct (tstep_sys _ _ _ _ Hs) as [-> | [e0 He0]]; [done|].
    by apply (reachable_step (sys t) e0).
Qed.

Lemma treachable_sys cfg t : treachable cfg t -> reachable (sys t).
Proof.
  intros [tr H]. apply (trun_sys_reachable cfg tr (tinit cfg) t); [|done].
  by exists [].
Qed.

(** What does hold of ticks.  With the ticker too, at most one batch is
    active at any time; the loop takes no tick while [ProcessBatch]
    executes; a held tick taken while the scheduler is not running is
    dropped and leaves the loop as it was; and a held tick stays held, while
    a batch executes, whatever else happens. *)
Lemma ticks_at_the_select cfg t :
  treachable cfg t ->
  (active (sys t) <= 1)%nat /\
  (forall r d, pc (sys t) = InProcessBatch r -> tstep cfg t (TRecv d) = None) /\
  (forall d, tickHeld t = true -> pc (sys t) = AtSelect ->
     running (vars (sys t)) = false ->
     tstep cfg t (TRecv d)
     = Some {| sys := sys t; tickHeld := false; untilFire := untilFire t |}) /\
  (forall r e t', tickHeld t = true -> pc (sys t) = InProcessBatch r ->
     tstep cfg t e = Some t' -> tickHeld t' = true).
Proof.
  intros Hr. apply treachable_sys in Hr.
  destruct (reachable_Inv _ Hr) as (_ & _ & _ & Hpc & _).
  split_and!.
  - unfold active. destruct (pc (sys t)); [| |done].
    + destruct Hpc as [_ ->]. lia.
    + destruct Hpc as (_ & _ & ->). lia.
  - intros r d Hp. cbn [tstep step]. rewrite Hp. by destruct (tickHeld t).
  - intros d Hh Hp Hrun. cbn [tstep step]. rewrite Hh, Hp.
    unfold onTick. by rewrite Hrun.
  - intros r e t' Hh Hp H. destruct e as [|d|e]; cbn [tstep] in H.
    + case_bool_decide; by simplify_eq.
    + rewrite Hh in H. cbn [step] in H. by rewrite Hp in H.
    + destruct e as [o| | |d|dt|err]; try done.
      * destruct (step (sys t) (EvCall o)); by simplify_eq.
      * destruct (step (sys t) EvAccept); by simplify_eq.
      * destruct (step (sys t) EvTimeout); by simplify_eq.
      * case_bool_decide; [|done].
        destruct (step (sys t) (EvElapse dt)); by simplify_eq.
      * destruct (step (sys t) (EvBatchReturn err)); by simplify_eq.
Qed.

(** C9, at the failing input.  The ticker fires every second and a batch
    takes a second and a half.  Batch 1 starts at the first tick.  The
    second tick fires while batch 1 has half a second left: it is not
    dropped but held in [ticker.C].  When batch 1 has returned the loop
    receives that tick and, still running, starts batch 2 at once, half a
    second before the ticker fires again.  The two batches do not overlap. *)
Theorem tick_fired_during_batch_starts_next :
  trun Fixtures.everySecond (tinit Fixtures.everySecond)
    Fixtures.secondTickFires = Some Fixtures.duringBatchOne /\
  pc (sys Fixtures.duringBatchOne) = InProcessBatch (500 * Millisecond) /\
  started (sys Fixtures.duringBatchOne) = 1%nat /\
  tickHeld Fixtures.duringBatchOne = false /\
  tstep Fixtures.everySecond Fixtures.duringBatchOne TFire
  = Some {| sys := sys Fixtures.duringBatchOne; tickHeld := true;
            untilFire := 1 * Second |} /\
  trun Fixtures.everySecond Fixtures.duringBatchOne
    (TFire :: Fixtures.batchOneReturns) = Some Fixtures.afterBatchOne /\
  started (sys Fixtures.afterBatchOne) = 2%nat /\
  finished (sys Fixtures.afterBatchOne) = 1%nat /\
  pc (sys Fixtures.afterBatchOne) = InProcessBatch (1500 * Millisecond) /\
  tickHeld Fixtures.afterBatchOne = false /\
  untilFire Fixtures.afterBatchOne = 500 * Millisecond.
Proof. split_and!; reflexivity. Qed.

(** C9, the claim as stated is false: the tick that fires during batch 1 is
    queued and starts batch 2, though the ticker does not fire again. *)
Lemma tick_during_batch_dropped_fails : ~ tick_during_batch_dropped.
Proof.
  intros H.
  specialize (H Fixtures.everySecond Fixtures.duringBatchOne).
  assert (Hr : treachable Fixtures.everySecond Fixtures.duringBatchOne)
    by (exists Fixtures.secondTickFires; reflexivity).
  specialize (H Hr ltac:(by eexists) Fixtures.batchOneReturns
                Fixtures.afterBatchOne eq_refl).
  assert (Hn : TFire ∉ Fixtures.batchOneReturns).
  { intros Hin. apply list_elem_of_In in Hin. simpl in Hin.
    intuition discriminate. }
  specialize (H Hn). discriminate H.
Qed.

(** What Stop does behind a batch.  A Stop issued while a batch is
    executing does not return nil before that batch's [ProcessBatch] has
    returned; it returns before that only with a control-timeout error,
    after having been blocked for [controlTimeout], which takes a batch with
    at least that long left to run. *)
Theorem Stop_returns_early_only_on_timeout s m res w b d0 :
  reachable s ->
  client s = Returned m res w -> op m = opStop ->
  calledDuring s = Some (b, d0) ->
  (res = RetNil -> (b <= finished s)%nat) /\
  (d0 < controlTimeout -> (b <= finished s)%nat) /\
  ((finished s < b)%nat ->
     (exists e, res = RetErr e) /\ controlTimeout <= w /\ controlTimeout <= d0).
Proof.
  intros Hr Hcl _ Hcd.
  pose proof (reachable_Inv s Hr) as (_ & _ & _ & _ & Hc).
  unfold callInv in Hc. rewrite Hcd, Hcl in Hc. destruct Hc as [_ Hc].
  split_and!.
  - intros ->. destruct (decide (b <= finished s)%nat) as [|Hn]; [done|].
    destruct Hc as [[e He] _]; [lia|done].
  - intros Hd. destruct (decide (b <= finished s)%nat) as [|Hn]; [done|].
    destruct Hc as [_ ?]; lia.
  - intros Hlt. destruct (Hc Hlt) as (? & ? & ?). split_and!; [done|lia|lia].
Qed.

(** Behind a 1-second batch Stop returns nil once the batch is over;
    behind a 3-second batch it returns an error after 2 seconds. *)
Lemma Stop_returns_early_only_on_timeout_witness :
  (1 <= finished Fixtures.afterStopIsServed)%nat /\
  ((finished Fixtures.afterStopTimesOut < 1)%nat ->
   (exists e, RetErr "[Scheduler] Stop: control loop not responding" = RetErr e)
   /\ controlTimeout <= 2 * Second /\ controlTimeout <= 3 * Second).
Proof.
  split.
  - apply (Stop_returns_early_only_on_timeout Fixtures.afterStopIsServed
             {| op := opStop; resp := 1%nat |} RetNil 0 1%nat (1 * Second));
      try reflexivity.
    exists Fixtures.stopIsServed. reflexivity.
  - apply (Stop_returns_early_only_on_timeout Fixtures.afterStopTimesOut
             {| op := opStop; resp := 1%nat |}
             (RetErr "[Scheduler] Stop: control loop not responding")
             (2 * Second) 1%nat (3 * Second)); try reflexivity.
    exists Fixtures.stopTimesOut. reflexivity.
Defined.

(** C1, at the failing input.  Stop is called as a 3-second batch begins.
    After 2 seconds it returns the error "control loop not responding" while
    [ProcessBatch], started as batch number 1, has another second to run and
    has not returned.  The loop never received the Stop: the scheduler is
    still running, and once the batch is over the next tick starts batch
    number 2. *)
Theorem Stop_gives_up_behind_batch :
  run init Fixtures.stopTimesOut = Some Fixtures.afterStopTimesOut /\
  client Fixtures.afterStopTimesOut
  = Returned {| op := opStop; resp := 1%nat |}
      (RetErr "[Scheduler] Stop: control loop not responding") (2 * Second) /\
  calledDuring Fixtures.afterStopTimesOut = Some (1%nat, 3 * Second) /\
  pc Fixtures.afterStopTimesOut = InProcessBatch (1 * Second) /\
  started Fixtures.afterStopTimesOut = 1%nat /\
  finished Fixtures.afterStopTimesOut = 0%nat /\
  running (vars Fixtures.afterStopTimesOut) = true /\
  exists s',
    run Fixtures.afterStopTimesOut
      [EvElapse (1 * Second); EvBatchReturn None; EvElapse (4 * Second);
       EvTick (1 * Second)] = Some s' /\
    running (vars s') = true /\ started s' = 2%nat.
Proof.
  split_and!; try reflexivity.
  eexists. split_and!; reflexivity.
Qed.

(** C1, the claim as stated is false.  Stop is called as a 3-second batch
    begins: after 2 seconds it returns, with an error, while [ProcessBatch]
    has another second to run. *)
Lemma Stop_outlasts_batch_fails : ~ Stop_outlasts_batch.
Proof.
  intros H.
  assert (Hr : reachable Fixtures.afterStopTimesOut)
    by (exists Fixtures.stopTimesOut; reflexivity).
  specialize (H _ Hr {| op := opStop; resp := 1%nat |}
                (RetErr "[Scheduler] Stop: control loop not responding")
                (2 * Second) 1%nat (3 * Second) eq_refl eq_refl eq_refl).
  simpl in H. lia.
Qed.

(** C2 (as amended). IsRunning has no timeout.  A caller blocked in it
    stays blocked under every event except the loop's taking its query at
    the [select], which answers at once with the value of [running]; so
    while the loop executes a batch no event ends the call, and the caller
    is blocked for all the time the batch has left, however long. *)
Theorem IsRunning_returns_only_when_served s m w :
  client s = Sending m w -> op m = opStatus ->
  (forall e s', step s e = Some s' ->
     (exists w', client s' = Sending m w' /\ w <= w') \/
     (e = EvAccept /\ pc s = AtSelect /\
      client s' = Returned m (RetBool (running (vars s))) 0)) /\
  (forall r e s', pc s = InProcessBatch r -> step s e = Some s' ->
     exists w', client s' = Sending m w' /\ w <= w') /\
  (forall r, pc s = InProcessBatch r -> 0 < r ->
     exists s', step s (EvElapse r) = Some s' /\
                client s' = Sending m (w + r) /\ pc s' = InProcessBatch 0).
Proof.
  intros Hcl Hop.
  assert (Hall : forall e s', step s e = Some s' ->
     (exists w', client s' = Sending m w' /\ w <= w') \/
     (e = EvAccept /\ pc s = AtSelect /\
      client s' = Returned m (RetBool (running (vars s))) 0)).
  { intros e s' Hstep.
    destruct e as [o | | | d | dt | err]; cbn [step] in Hstep;
      rewrite ?Hcl in Hstep.
    - done.
    - destruct (pc s) eqn:Hpc; [|done..]. right.
      unfold onCtrl in Hstep. rewrite Hop in Hstep.
      rewrite deliver_own, Hop in Hstep. injection Hstep as <-. done.
    - rewrite Hop in Hstep. done.
    - left. exists w. destruct (pc s); [|done..].
      destruct (onTick (vars s)).
      + destruct (bool_decide (0 <= d)); [|done]. injection Hstep as <-.
        done.
      + injection Hstep as <-. done.
    - left. destruct (bool_decide (0 < dt)) eqn:Hdt; [|done].
      apply bool_decide_eq_true in Hdt.
      unfold waitMore in Hstep. rewrite Hop in Hstep. simpl in Hstep.
      exists (w + dt). split; [|lia].
      destruct (pc s) as [|r|c].
      + by injection Hstep as <-.
      + destruct (bool_decide (dt <= r)); [|done]. by injection Hstep as <-.
      + by injection Hstep as <-.
    - left. exists w. destruct (pc s) as [|r|c]; [done| |done].
      destruct (bool_decide (r = 0)); [|done].
      unfold onBatchReturn in Hstep.
      destruct (pendingStop (vars s)); simpl in Hstep;
        injection Hstep as <-; done. }
  split_and!.
  - exact Hall.
  - intros r e s' Hpc Hstep.
    destruct (Hall e s' Hstep) as [? | (_ & Hpc' & _)]; [done|].
    by rewrite Hpc in Hpc'.
  - intros r Hpc Hr. cbn [step]. rewrite Hcl, Hpc. unfold waitMore.
    rewrite Hop. simpl.
    rewrite bool_decide_eq_true_2 by done.
    rewrite bool_decide_eq_true_2 by lia.
    eexists. split; [done|]. simpl. split; [done|]. f_equal. lia.
Qed.

(** Three seconds into a call of IsRunning behind a 5-second batch: the
    caller is still blocked two seconds later. *)
Lemma IsRunning_returns_only_when_served_witness :
  exists s',
    step Fixtures.whileStatusWaits (EvElapse (2 * Second)) = Some s' /\
    client s' = Sending {| op := opStatus; resp := 1%nat |}
                  (3 * Second + 2 * Second) /\
    pc s' = InProcessBatch 0.
Proof.
  destruct (IsRunning_returns_only_when_served Fixtures.whileStatusWaits
              {| op := opStatus; resp := 1%nat |} (3 * Second)
              eq_refl eq_refl) as (_ & _ & H).
  apply H; [reflexivity | reflexivity].
Defined.

(** C2, counterexample. IsRunning is called as a 5-second batch begins and
    is still blocked after 3 seconds, longer than [controlTimeout]. *)
Lemma IsRunning_bounded_fails : ~ IsRunning_bounded.
Proof.
  intros H.
  assert (Hr : reachable Fixtures.whileStatusWaits)
    by (exists Fixtures.statusWaits; reflexivity).
  specialize (H _ Hr {| op := opStatus; resp := 1%nat |} (3 * Second)
                eq_refl eq_refl).
  unfold controlTimeout, Second in H. lia.
Qed.

End SchedulerClaims.

(** ** What a control call does to the scheduler *)

Module ControlFacts.
Import Scheduler SchedulerFacts.

Lemma ackInv_step s e s' : Inv s -> ackInv s -> step s e = Some s' -> ackInv s'.
Proof.
  intros (Hp & _ & _ & Hpc & _) Ha Hstep. unfold ackInv in *.
  destruct e as [o | | | d | dt | err]; cbn [step] in Hstep.
  - destruct (client s); simplify_eq; simpl; try done.
    all: split; [lia|]; intros _; unfold controlTimeout, Second; lia.
  - destruct (pc s) eqn:Hpcs; [|done..].
    destruct (client s) as [|m w| |] eqn:Hcl; try done.
    destruct Hpc as [Hb _].
    destruct (onCtrl_at_select (vars s) m Hb Hp) as (v' & b & Hon & _).
    rewrite Hon, deliver_own in Hstep. injection Hstep as <-. simpl.
    by destruct (op m).
  - destruct (client s) as [|m w|m w|] eqn:Hcl; try done.
    destruct (hasTimeout (op m)) eqn:Ht; simpl in Hstep; [|done].
    destruct (bool_decide (controlTimeout <= w)) eqn:Hw; [|done].
    apply bool_decide_eq_true in Hw. injection Hstep as <-. simpl.
    destruct Ha as [? Hle]. specialize (Hle eq_refl). split_and!; [done..|lia].
  - destruct (pc s); [|done..]. destruct (onTick (vars s)).
    + destruct (bool_decide (0 <= d)); [|done]. by injection Hstep as <-.
    + by injection Hstep as <-.
  - destruct (bool_decide (0 < dt)) eqn:Hdt; [|done].
    apply bool_decide_eq_true in Hdt.
    destruct (waitMore (client s) dt) as [cl|] eqn:Hw; [|done].
    assert (Hcl : match cl with
                  | Idle => True
                  | Sending m w =>
                      0 <= w /\ (hasTimeout (op m) = true -> w <= controlTimeout)
                  | Awaiting _ _ => False
                  | Returned m res w =>
                      match res with
                      | RetErr e =>
                          hasTimeout (op m) = true /\
                          e = timeoutError (op m) true /\ w = controlTimeout
                      | RetNil => hasTimeout (op m) = true
                      | RetBool _ => op m = opStatus
                      end
                  end).
    { unfold waitMore in Hw. destruct (client s) as [|m w|m w|]; try done.
      - by injection Hw as <-.
      - destruct (hasTimeout (op m)) eqn:Ht; simpl in Hw.
        + destruct (bool_decide (controlTimeout < w + dt)) eqn:Hlt; [done|].
          apply bool_decide_eq_false in Hlt. injection Hw as <-.
          split; [lia|]. intros _. lia.
        + injection Hw as <-. split; [lia|intros; congruence].
      - by injection Hw as <-. }
    destruct (pc s) as [|r|c0].
    + by injection Hstep as <-.
    + destruct (bool_decide (dt <= r)); [|done]. by injection Hstep as <-.
    + by injection Hstep as <-.
  - destruct (pc s) as [|r|c0]; [done| |done].
    destruct (bool_decide (r = 0)); [|done].
    unfold onBatchReturn in Hstep. rewrite Hp in Hstep. simpl in Hstep.
    by injection Hstep as <-.
Qed.

Lemma reachable_ackInv s : reachable s -> ackInv s.
Proof.
  intros [tr Htr].
  assert (H : Inv s /\ ackInv s); [|by destruct H].
  eapply (run_invariant (fun s => Inv s /\ ackInv s)); [| |exact Htr].
  - intros s0 e s1 [HI HA] Hs. split; [by eapply Inv_step|by eapply ackInv_step].
  - split; [apply Inv_init|done].
Qed.

Lemma callTrack_step o c0 r0 s e s' :
  Inv s -> ackInv s -> callTrack o c0 r0 s -> step s e = Some s' ->
  callTrack o c0 r0 s'.
Proof.
  intros (Hp & _ & _ & Hpc & _) Ha [Hc Ht] Hstep. unfold callTrack, ackInv in *.
  destruct e as [o' | | | d | dt | err]; cbn [step] in Hstep.
  - destruct (client s); simplify_eq; simpl; (split; [lia|]); intros; lia.
  - destruct (pc s) eqn:Hpcs; [|done..].
    destruct (client s) as [|m w| |] eqn:Hcl; try done.
    destruct Hpc as [Hb _].
    destruct (onCtrl_at_select (vars s) m Hb Hp)
      as (v' & b & Hon & _ & _ & Hop).
    rewrite Hon, deliver_own in Hstep. injection Hstep as <-. simpl.
    split; [done|]. intros Hm. destruct (Ht Hm) as [<- Hr]. split; [done|].
    destruct (op m); simpl.
    + split_and!; done.
    + split_and!; done.
    + destruct Hop as [Hv Hb']. split_and!; congruence.
  - destruct (client s) as [|m w|m w|] eqn:Hcl; try done.
    destruct (hasTimeout (op m) && bool_decide (controlTimeout <= w));
      [|done].
    injection Hstep as <-. simpl. split; [done|]. intros Hm.
    by destruct (Ht Hm).
  - destruct (pc s) eqn:Hpcs; [|done..]. unfold onTick in Hstep.
    destruct (negb (running (vars s)) || inBatch (vars s)) eqn:Hg.
    + injection Hstep as <-. rewrite Hpcs. by split.
    + destruct (bool_decide (0 <= d)); [|done]. injection Hstep as <-. simpl.
      split; [done|].
      destruct (client s) as [|m w|m w|m res w]; try done.
      intros Hm. destruct (Ht Hm) as [Hop Hres]. split; [done|].
      destruct res; try done.
      destruct Hres as (Hns & Hr & Hsel). split_and!; try done.
      intros ->. simpl in Hr. rewrite Hr in Hg. done.
  - destruct (bool_decide (0 < dt)); [|done].
    destruct (waitMore (client s) dt) as [cl|] eqn:Hw; [|done].
    assert (Hcl : forall s1, nextChan s1 = nextChan s -> vars s1 = vars s ->
              client s1 = cl -> (pc s = AtSelect -> pc s1 = AtSelect) ->
              (c0 < nextChan s1)%nat /\
              match client s1 with
              | Idle => True
              | Sending m w =>
                  resp m = c0 -> op m = o /\ running (vars s1) = r0
              | Awaiting m w => resp m <> c0
              | Returned m res w =>
                  resp m = c0 ->
                  op m = o /\
                  match res with
                  | RetErr _ => running (vars s1) = r0
                  | RetNil =>
                      o <> opStatus /\
                      running (vars s1) = runningAfter o r0 /\
                      (o = opStop -> pc s1 = AtSelect)
                  | RetBool b =>
                      o = opStatus /\ b = r0 /\ running (vars s1) = r0
                  end
              end).
    { intros s1 Hn Hv Hc1 Hpc1. rewrite Hn, Hv, Hc1. split; [done|].
      unfold waitMore in Hw. destruct (client s) as [|m w|m w|m res w]; try done.
      - by injection Hw as <-.
      - destruct (hasTimeout (op m) && _); [done|]. by injection Hw as <-.
      - injection Hw as <-. intros Hm. destruct (Ht Hm) as [? Hres].
        split; [done|]. destruct res; try done.
        destruct Hres as (? & ? & Hsel). split_and!; auto. }
    destruct (pc s) as [|r|c1] eqn:Hpcs.
    + injection Hstep as <-. by apply Hcl.
    + destruct (bool_decide (dt <= r)); [|done]. injection Hstep as <-.
      by apply Hcl.
    + injection Hstep as <-. by apply Hcl.
  - destruct (pc s) as [|r|c1] eqn:Hpcs; [done| |done].
    destruct (bool_decide (r = 0)); [|done].
    unfold onBatchReturn in Hstep. rewrite Hp in Hstep. simpl in Hstep.
    injection Hstep as <-. simpl. split; [done|].
    destruct (client s) as [|m w|m w|m res w]; try done.
    intros Hm. destruct (Ht Hm) as [? Hres]. split; [done|].
    destruct res; try done.
    destruct Hres as (? & ? & Hsel). split_and!; auto.
Qed.

(** From the moment a call begins. *)
Lemma callTrack_run o s tr s' :
  reachable s -> run s (EvCall o :: tr) = Some s' ->
  callTrack o (nextChan s) (running (vars s)) s'.
Proof.
  intros Hr Hrun. cbn [run] in Hrun.
  destruct (step s (EvCall o)) as [s1|] eqn:Hs1; [|done].
  assert (H1 : reachable s1) by (by eapply reachable_step).
  assert (H : (Inv s' /\ ackInv s') /\
              callTrack o (nextChan s) (running (vars s)) s');
    [|by destruct H].
  eapply (run_invariant
            (fun x => (Inv x /\ ackInv x) /\
                      callTrack o (nextChan s) (running (vars s)) x));
    [| |exact Hrun].
  - intros x e x' [[HI HA] HT] Hx. split_and!.
    + by eapply Inv_step.
    + by eapply ackInv_step.
    + by eapply callTrack_step.
  - split; [split; [by apply reachable_Inv|by apply reachable_ackInv]|].
    cbn [step] in Hs1. unfold callTrack.
    destruct (client s); simplify_eq; simpl; (split; [lia|done]).
Qed.

Lemma reachable_run s tr s' : reachable s -> run s tr = Some s' -> reachable s'.
Proof.
  intros [tr0 H0] H. exists (tr0 ++ tr). by rewrite run_app, H0.
Qed.

(** X1. What a call of Start, Stop or IsRunning has done when it returns.
    If it returns an error the loop never saw it and [running] is what it
    was when the call began.  If Start or Stop returns nil, [running] is
    true or false accordingly, and after Stop no batch is executing.
    IsRunning returns the value [running] had when the call began and
    leaves it unchanged. *)
Theorem control_call_effect s o tr s' m res w :
  reachable s ->
  run s (EvCall o :: tr) = Some s' ->
  client s' = Returned m res w -> resp m = nextChan s ->
  op m = o /\
  match res with
  | RetErr _ => running (vars s') = running (vars s)
  | RetNil =>
      o <> opStatus /\
      running (vars s') = runningAfter o (running (vars s)) /\
      (o = opStop -> pc s' = AtSelect /\ active s' = 0%nat)
  | RetBool b =>
      o = opStatus /\ b = running (vars s) /\
      running (vars s') = running (vars s)
  end.
Proof.
  intros Hr Hrun Hcl Hm.
  pose proof (callTrack_run o s tr s' Hr Hrun) as [_ Ht].
  rewrite Hcl in Ht. destruct (Ht Hm) as [Hop Hres]. split; [done|].
  destruct res; try done.
  destruct Hres as (? & ? & Hsel). split_and!; try done.
  intros Ho. specialize (Hsel Ho). split; [done|].
  pose proof (reachable_Inv s' (reachable_run _ _ _ Hr Hrun))
    as (_ & _ & _ & Hpc & _).
  rewrite Hsel in Hpc. destruct Hpc as [_ Hsf]. unfold active. lia.
Qed.

(** A Stop that gives up behind a 3-second batch leaves the scheduler
    running. *)
Lemma control_call_effect_witness :
  running (vars Fixtures.afterStopTimesOut) = true.
Proof.
  destruct (control_call_effect
              (default init (run init (Fixtures.batchOf (3 * Second))))
              opStop [EvElapse (2 * Second); EvTimeout]
              Fixtures.afterStopTimesOut
              {| op := opStop; resp := 1%nat |}
              (RetErr "[Scheduler] Stop: control loop not responding")
              (2 * Second)) as [_ H].
  - exists (Fixtures.batchOf (3 * Second)). reflexivity.
  - reflexivity.
  - reflexivity.
  - reflexivity.
  - exact H.
Defined.

(** X2. Start() then IsRunning() gives true, Stop() then IsRunning() gives
    false: when Start or Stop has returned nil and the next call is an
    IsRunning that returns, it returns true after Start and false after
    Stop, whatever ticks, batches and waiting happen in between. *)
Theorem IsRunning_after_control s0 o tr1 s1 m1 w1 tr2 s2 m2 b w2 :
  reachable s0 ->
  run s0 (EvCall o :: tr1) = Some s1 ->
  client s1 = Returned m1 RetNil w1 -> resp m1 = nextChan s0 ->
  run s1 (EvCall opStatus :: tr2) = Some s2 ->
  client s2 = Returned m2 (RetBool b) w2 -> resp m2 = nextChan s1 ->
  (o = opStart -> b = true) /\ (o = opStop -> b = false).
Proof.
  intros Hr H1 Hc1 Hm1 H2 Hc2 Hm2.
  pose proof (callTrack_run o s0 tr1 s1 Hr H1) as [_ Ht1].
  rewrite Hc1 in Ht1. destruct (Ht1 Hm1) as (_ & _ & Hrun1 & _).
  pose proof (callTrack_run opStatus s1 tr2 s2 (reachable_run _ _ _ Hr H1) H2)
    as [_ Ht2].
  rewrite Hc2 in Ht2. destruct (Ht2 Hm2) as (_ & _ & Hb & _).
  rewrite Hb, Hrun1. by split; intros ->.
Qed.

(** Start from the initial state, then IsRunning. *)
Lemma IsRunning_after_control_witness :
  (opStart = opStart -> true = true) /\ (opStart = opStop -> true = false).
Proof.
  apply (IsRunning_after_control init opStart [EvAccept]
           (default init (run init [EvCall opStart; EvAccept]))
           {| op := opStart; resp := 0%nat |} 0
           [EvAccept]
           (default init (run init [EvCall opStart; EvAccept;
                                    EvCall opStatus; EvAccept]))
           {| op := opStatus; resp := 1%nat |} true 0).
  - exists []. reflexivity.
  - reflexivity.
  - reflexivity.
  - reflexivity.
  - reflexivity.
  - reflexivity.
  - reflexivity.
Defined.

(** X3. The loop never defers an acknowledgement.  In every reachable
    state the deferred-stop slot is empty, the loop is not blocked on a
    reply, and no caller is waiting for an acknowledgement of a command the
    loop has taken; hence the only error Start or Stop ever returns is
    "control loop not responding", after exactly [controlTimeout], and
    IsRunning never returns an error. *)
Theorem acknowledged_at_once s :
  reachable s ->
  pendingStop (vars s) = None /\
  (forall c, pc s <> BlockedOnReply c) /\
  (forall m w, client s <> Awaiting m w) /\
  (forall m e w, client s = Returned m (RetErr e) w ->
     op m <> opStatus /\ e = timeoutError (op m) true /\ w = controlTimeout).
Proof.
  intros Hr.
  pose proof (reachable_Inv s Hr) as HI.
  pose proof (reachable_ackInv s Hr) as HA.
  split_and!.
  - by destruct HI as (? & _).
  - intros c Hc. destruct HI as (_ & _ & _ & Hpc & _). by rewrite Hc in Hpc.
  - intros m w Hc. unfold ackInv in HA. by rewrite Hc in HA.
  - intros m e w Hc. unfold ackInv in HA. rewrite Hc in HA.
    destruct HA as (Ht & -> & ->). split_and!; try done.
    intros Ho. by rewrite Ho in Ht.
Qed.

Lemma acknowledged_at_once_witness :
  pendingStop (vars Fixtures.afterStopTimesOut) = None.
Proof.
  apply (acknowledged_at_once Fixtures.afterStopTimesOut).
  exists (Fixtures.stopTimesOut). reflexivity.
Defined.

Lemma deliver_sending rs :
  forall p cl m w, snd (deliver rs p cl) = Sending m w -> cl = Sending m w.
Proof.
  induction rs as [|[c b] rs IH]; intros p cl m w H; simpl in *; [done|].
  destruct p, cl; simpl in *; try done.
  case_decide; simpl in *; [|done]. by apply IH in H.
Qed.

Lemma stopped_step s e s' :
  running (vars s) = false -> notStarting s -> e <> EvCall opStart ->
  step s e = Some s' ->
  running (vars s') = false /\ notStarting s' /\ started s' = started s.
Proof.
  intros Hrun Hns He Hstep. unfold notStarting in *.
  destruct e as [o| | |d|dt|err]; cbn [step] in Hstep.
  - destruct (client s); simplify_eq; simpl; split_and!; congruence.
  - destruct (pc s); try done. destruct (client s) as [|m w| |]; try done.
    destruct (onCtrl (vars s) m) as [v rs] eqn:Hc.
    destruct (deliver rs AtSelect (Awaiting m 0)) as [pc' cl] eqn:Hd.
    simplify_eq. simpl. split_and!; [|  |done].
    + unfold onCtrl in Hc. destruct (op m); [done| |by simplify_eq].
      rewrite Hrun in Hc.
      destruct (inBatch (vars s)); simpl in Hc; simplify_eq; simpl; done.
    + destruct cl as [|m' w'| |]; try done.
      pose proof (deliver_sending rs AtSelect (Awaiting m 0) m' w') as Hs.
      rewrite Hd in Hs. by specialize (Hs eq_refl).
  - destruct (client s) as [|m w|m w|]; try done;
      destruct (hasTimeout (op m) && bool_decide (controlTimeout <= w));
      by simplify_eq.
  - destruct (pc s); try done. unfold onTick in Hstep. rewrite Hrun in Hstep.
    simpl in Hstep. by simplify_eq.
  - destruct (bool_decide (0 < dt)); [|done].
    destruct (waitMore (client s) dt) as [cl|] eqn:Hw; [|done].
    assert (Hcl : match cl with Sending m _ => op m <> opStart | _ => True end).
    { unfold waitMore in Hw. destruct (client s) as [|m w|m w|]; simplify_eq;
        try done; by destruct (_ && _); simplify_eq. }
    destruct (pc s) as [|r|c0]; [by simplify_eq| |by simplify_eq].
    destruct (bool_decide (dt <= r)); by simplify_eq.
  - destruct (pc s) as [|r|c0]; try done.
    destruct (bool_decide (r = 0)); [|done].
    destruct (onBatchReturn (vars s) err) as [v rs] eqn:Hb.
    destruct (deliver rs AtSelect (client s)) as [pc' cl] eqn:Hd.
    simplify_eq. simpl. split_and!; [| |done].
    + unfold onBatchReturn in Hb. by destruct (pendingStop (vars s)); simplify_eq.
    + destruct cl as [|m' w'| |]; try done.
      pose proof (deliver_sending rs AtSelect (client s) m' w') as Hs.
      rewrite Hd in Hs. specialize (Hs eq_refl). by rewrite Hs in Hns.
Qed.

(** X4. While stopped, no batch starts.  From a state in which [running]
    is false, as long as the caller does not call Start, [running] stays
    false and [ProcessBatch] is not called, whatever ticks arrive. *)
Theorem no_batch_while_stopped s tr s' :
  running (vars s) = false -> notStarting s ->
  EvCall opStart ∉ tr ->
  run s tr = Some s' ->
  running (vars s') = false /\ started s' = started s.
Proof.
  revert s. induction tr as [|e tr IH]; intros s Hrun Hns Htr H; cbn [run] in H.
  - by simplify_eq.
  - destruct (step s e) as [s1|] eqn:Hstep; [|done]. simpl in H.
    destruct (stopped_step s e s1 Hrun Hns) as (Hrun1 & Hns1 & Hst1); [|done|].
    { intros ->. apply Htr. by left. }
    destruct (IH s1 Hrun1 Hns1) as [? ?]; [|done|].
    { intros Hin. apply Htr. by right. }
    split; [done|congruence].
Qed.

(** After a served Stop, a tick and a call of IsRunning. *)
Lemma no_batch_while_stopped_witness :
  started (default init
             (run Fixtures.afterStopIsServed
                [EvTick (1 * Second); EvCall opStatus; EvAccept]))
  = started Fixtures.afterStopIsServed.
Proof.
  apply (no_batch_while_stopped Fixtures.afterStopIsServed
           [EvTick (1 * Second); EvCall opStatus; EvAccept]).
  - reflexivity.
  - exact I.
  - intros Hin. apply list_elem_of_In in Hin. simpl in Hin.
    intuition discriminate.
  - reflexivity.
Defined.

(** X5. Batches never overlap.  In every reachable state at most one call
    of [ProcessBatch] has not returned, and [inBatch] is true exactly while
    one is executing. *)
Theorem one_batch_at_a_time s :
  reachable s ->
  (active s <= 1)%nat /\
  (inBatch (vars s) = true <-> active s = 1%nat) /\
  (inBatch (vars s) = true <-> exists r, pc s = InProcessBatch r /\ 0 <= r).
Proof.
  intros Hr. destruct (reachable_Inv s Hr) as (_ & _ & _ & Hpc & _).
  unfold active. destruct (pc s) as [|r|c0]; [| |done].
  - destruct Hpc as [-> ->]. split_and!; [lia| |].
    + split; [done|lia].
    + split; [done|]. by intros (r & ? & _).
  - destruct Hpc as (-> & ? & ->). split_and!; [lia| |].
    + split; [lia|done].
    + split; [|done]. intros _. by exists r.
Qed.

Lemma one_batch_at_a_time_witness :
  (active Fixtures.whileStatusWaits <= 1)%nat.
Proof.
  apply (one_batch_at_a_time Fixtures.whileStatusWaits).
  exists Fixtures.statusWaits. reflexivity.
Defined.

End ControlFacts.

(** ** More on the worker pool: every interleaving, any cancellation *)

Module PoolExtras.
Import Domain Service StrideFacts MessageFacts PoolFacts.

Lemma procLog_app t1 t2 : procLog (t1 ++ t2) = procLog t1 ++ procLog t2.
Proof. apply omap_app. Qed.

Lemma sends_app t1 t2 : sends (t1 ++ t2) = (sends t1 + sends t2)%nat.
Proof. unfold sends. by rewrite List.filter_app, length_app. Qed.

Lemma processed_procLog {W} (p : pool W) i :
  processed p i <-> Z.of_nat i ∈ procLog (trace (exec p)).
Proof.
  unfold processed, procLog. rewrite list_elem_of_omap. split.
  - intros H. by exists (EvLog (LogWorkerIsProcessing (Z.of_nat i))).
  - intros (e & He & Heq). destruct e as [| | | | |l]; try done.
    destruct l; try done. by injection Heq as ->.
Qed.

Lemma evolved_refl m : evolved m m.
Proof. unfold evolved. split_and!; auto. Qed.

Lemma evolved_marked m0 m m' :
  evolved m0 m ->
  (exists raw, m' = MarkFailed raw m) \/
  (exists now externalID raw, m' = MarkSent now externalID raw m) ->
  evolved m0 m'.
Proof.
  intros (? & ? & ? & ? & ? & _) [(raw & ->) | (now & id & raw & ->)];
    unfold evolved; simpl; split_and!; auto.
Qed.

Section OneMessage.
Context {W C : Type} (s : messageService W C) (ctx : C) (msg : Message)
  (x : Exec W).

(** What one call of [processMessage] does, whichever way it goes: one
    [Send] for the item, then one [UpdateStatus] with the item as it is
    returned, marked by the result of [Send]; the error is nil exactly when
    both calls succeeded. *)
Lemma processMessage_outcome :
  exists externalID raw err uErr l,
    trace (snd (processMessage s ctx msg x)) = trace x ++ l /\
    procLog l = [] /\ sends l = 1%nat /\
    EvSend (To msg) (Content msg) externalID raw err ∈ l /\
    EvUpdateStatus (snd (fst (processMessage s ctx msg x))) uErr ∈ l /\
    match err with
    | Some _ => snd (fst (processMessage s ctx msg x)) = MarkFailed raw msg
    | None =>
        exists now,
          snd (fst (processMessage s ctx msg x))
          = MarkSent now externalID raw msg
    end /\
    (fst (fst (processMessage s ctx msg x)) = None <->
     err = None /\ uErr = None).
Proof.
  destruct (Send (smsClient s) ctx (To msg) (Content msg) (world x))
    as [[[externalID raw] [e|]] w1] eqn:HS.
  - destruct (UpdateStatus (repo s) ctx (MarkFailed raw msg) w1)
      as [uErr w2] eqn:HU.
    rewrite (processMessage_send_failed _ _ _ _ _ _ _ _ _ _ HS HU).
    exists externalID, raw, (Some e), uErr. eexists. simpl.
    split_and!; [done| | | | |done|].
    + by destruct uErr.
    + by destruct uErr.
    + in_trace.
    + in_trace.
    + split; [done|]. by intros [? _].
  - destruct (UpdateStatus (repo s) ctx
                (MarkSent (Now (runtime s) w1) externalID raw msg) w1)
      as [[ue|] w2] eqn:HU.
    + rewrite (processMessage_persist_failed _ _ _ _ _ _ _ _ _ HS HU).
      exists externalID, raw, None, (Some ue). eexists. simpl.
      split_and!; [done|done|done| | |by eexists|].
      * in_trace.
      * in_trace.
      * split; [done|]. by intros [_ ?].
    + destruct (cache s) as [c|] eqn:Hc; [destruct (decide (externalID = ""))|].
      * rewrite (processMessage_no_cache _ _ _ _ _ _ _ _ HS HU) by (by right).
        exists externalID, raw, None, None. eexists. simpl.
        split_and!; [done|done|done| | |by eexists|done]; in_trace.
      * destruct (Set_ c ctx ("sent_messages:" +:+ externalID)
                    (FormatRFC3339 (runtime s) (Now (runtime s) w1))
                    (24 * Hour) w2) as [cErr w3] eqn:HC.
        rewrite (processMessage_cached _ _ _ _ _ _ _ _ _ _ _ HS HU Hc
                   ltac:(done) HC).
        exists externalID, raw, None, None. eexists. simpl.
        split_and!; [done| | | | |by eexists|done].
        -- by destruct cErr.
        -- by destruct cErr.
        -- in_trace.
        -- in_trace.
      * rewrite (processMessage_no_cache _ _ _ _ _ _ _ _ HS HU) by (by left).
        exists externalID, raw, None, None. eexists. simpl.
        split_and!; [done|done|done| | |by eexists|done]; in_trace.
Qed.

End OneMessage.

Section Turns.
Context {W C : Type} (s : messageService W C) (ctx : C) (wc : Z).

(** The three kinds of turn: none (the worker has returned), the last one
    (the worker returns, having at most logged a cancellation), and one that
    takes up the item at the loop variable. *)
Lemma workerIter_cases k (p : pool W) :
  workerIter s ctx wc k p = p \/
  (exists wk l,
     workers p !! k = Some wk /\ exited wk = false /\
     messages (workerIter s ctx wc k p) = messages p /\
     workers (workerIter s ctx wc k p) = <[k := exit wk]> (workers p) /\
     world (exec (workerIter s ctx wc k p)) = world (exec p) /\
     trace (exec (workerIter s ctx wc k p)) = trace (exec p) ++ l /\
     (l = [] \/ l = [EvLog (LogWorkerCancelled (workerID wk))])) \/
  (exists wk msg externalID raw err uErr l m' x',
     workers p !! k = Some wk /\ exited wk = false /\
     0 <= next wk < Z.of_nat (length (messages p)) /\
     ctxErr (runtime s) ctx (world (exec p)) = false /\
     messages p !! Z.to_nat (next wk) = Some msg /\
     workerIter s ctx wc k p =
       {| messages := <[Z.to_nat (next wk) := m']> (messages p);
          workers :=
            <[k := {| workerID := workerID wk;
                      next := wrap64 (next wk + wc);
                      exited := false;
                      visited := visited wk ++ [next wk] |}]> (workers p);
          exec := x'; panicked := panicked p |} /\
     trace x' = trace (exec p) ++ l /\
     procLog l = [next wk] /\ sends l = 1%nat /\
     EvSend (To msg) (Content msg) externalID raw err ∈ l /\
     EvUpdateStatus m' uErr ∈ l /\
     match err with
     | Some _ => m' = MarkFailed raw msg
     | None => exists now, m' = MarkSent now externalID raw msg
     end).
Proof.
  unfold workerIter.
  destruct (workers p !! k) as [wk|] eqn:Hk; [|by left].
  destruct (exited wk) eqn:Hex; [by left|].
  right. case_decide as Hlt.
  - destruct (ctxErr _ _ _) eqn:Hctx.
    { left. exists wk, [EvLog (LogWorkerCancelled (workerID wk))]. simpl.
      split_and!; auto. }
    case_decide as Hi.
    + destruct (messages p !! Z.to_nat (next wk)) as [msg|] eqn:Hmsg.
      * right. rewrite workerBody. cbn zeta.
        set (msgCtx := WithTimeout _ _ _ _).
        set (x0 := {| world := world (exec p);
                      trace := trace (exec p)
                               ++ [EvLog (LogWorkerIsProcessing (next wk))] |}).
        destruct (processMessage_outcome s msgCtx msg x0)
          as (externalID & raw & err & uErr & l & Hl & Hpl & Hsl & HS & HU
              & Hm & _).
        exists wk, msg, externalID, raw, err, uErr.
        eexists ([EvLog (LogWorkerIsProcessing (next wk))] ++ l ++ _), _, _.
        split_and!; [done|done|lia|lia|done|done|done| | | | | |exact Hm].
        -- simpl. rewrite Hl. unfold x0. simpl.
           by rewrite <- !(assoc_L (++)).
        -- rewrite (procLog_app [_]), procLog_app, Hpl. simpl.
           by destruct (fst (fst _)).
        -- rewrite (sends_app [_]), sends_app, Hsl. simpl.
           by destruct (fst (fst _)).
        -- rewrite !elem_of_app. auto.
        -- rewrite !elem_of_app. auto.
      * left. exists wk, []. simpl. rewrite (right_id_L [] (++)).
        split_and!; auto.
    + left. exists wk, []. simpl. rewrite (right_id_L [] (++)).
      split_and!; auto.
  - left. exists wk, []. simpl. rewrite (right_id_L [] (++)).
    split_and!; auto.
Qed.

End Turns.

Section AnyBatch.
Context {W C : Type} (s : messageService W C) (ctx : C) (sched : list nat)
  (w : W).

(** What every turn keeps holds of the pool when all workers are done. *)
Lemma pool_invariant (P : pool W -> Prop) wc p :
  (forall k q, P q -> P (workerIter s ctx wc k q)) ->
  P p -> P (wait s ctx wc (runSchedule s ctx wc sched p)).
Proof.
  intros Hstep Hp. apply (wait_invariant s ctx wc P Hstep).
  by apply (runSchedule_invariant s ctx wc P Hstep).
Qed.

Lemma workerIter_evolved wc msgs k (p : pool W) :
  Forall2 evolved msgs (messages p) ->
  Forall2 evolved msgs (messages (workerIter s ctx wc k p)).
Proof.
  intros HF.
  destruct (workerIter_cases s ctx wc k p)
    as [-> | [(wk & l & _ & _ & -> & _)
             | (wk & msg & externalID & raw & err & uErr & l & m' & x' & _ & _
                & _ & _ & Hmsg & -> & _ & _ & _ & _ & _ & Hm)]]; [done|done|].
  simpl. destruct (Forall2_lookup_r _ _ _ _ _ HF Hmsg) as (m0 & Hm0 & Hev).
  rewrite <- (list_insert_id msgs (Z.to_nat (next wk)) m0) by done.
  apply Forall2_insert; [done|].
  apply (evolved_marked m0 msg); [done|].
  destruct err; [left; eauto|right].
  destruct Hm as [now ->]. eauto.
Qed.

(** X6. Whatever the transport, the repository, the cache and the context
    do, and however the workers interleave, [ProcessBatch] leaves each
    fetched item in its place with the same ID, recipient, content,
    CreatedAt and UpdatedAt; the item is either exactly as fetched or its
    status is SUCCESS or FAILED. *)
Theorem items_keep_identity msgs w' :
  GetPending (repo s) ctx (batchSize s) w = ((msgs, None), w') ->
  Forall2 evolved msgs (messages (snd (ProcessBatch s ctx sched w))).
Proof.
  intros H. destruct (decide (msgs = [])) as [-> | Hne].
  { rewrite (ProcessBatch_nothing_pending _ _ _ _ _ H). constructor. }
  rewrite (ProcessBatch_pool _ _ _ _ _ _ H Hne). cbn zeta. cbn [snd messages].
  apply (pool_invariant (fun q => Forall2 evolved msgs (messages q))).
  - intros k q. apply workerIter_evolved.
  - simpl. apply Forall_Forall2_diag, Forall_forall. intros m _.
    apply evolved_refl.
Qed.

(** X7. When the context is already cancelled and stays so, a batch whose
    fetch succeeds returns nil having called neither the transport, nor
    [UpdateStatus], nor the cache: the items and the world are as the fetch
    left them. *)
Theorem cancelled_batch_touches_nothing msgs w' :
  alwaysCancelled s ctx ->
  GetPending (repo s) ctx (batchSize s) w = ((msgs, None), w') ->
  fst (ProcessBatch s ctx sched w) = None /\
  messages (snd (ProcessBatch s ctx sched w)) = msgs /\
  world (exec (snd (ProcessBatch s ctx sched w))) = w' /\
  forall e, e ∈ trace (exec (snd (ProcessBatch s ctx sched w))) ->
            isItemCall e = false.
Proof.
  intros Hc H. destruct (decide (msgs = [])) as [-> | Hne].
  { rewrite (ProcessBatch_nothing_pending _ _ _ _ _ H). simpl.
    split_and!; [done..|]. intros e He. in_trace. }
  rewrite (ProcessBatch_pool _ _ _ _ _ _ H Hne). cbn zeta.
  cbn [fst snd messages exec world trace].
  set (P := fun q : pool W =>
              messages q = msgs /\ world (exec q) = w' /\
              forall e, e ∈ trace (exec q) -> isItemCall e = false).
  assert (HP : P (wait s ctx (workerCount (Z.of_nat (length msgs)) (maxWorkers s))
                    (runSchedule s ctx
                       (workerCount (Z.of_nat (length msgs)) (maxWorkers s)) sched
                       (spawn (workerCount (Z.of_nat (length msgs)) (maxWorkers s))
                          msgs
                          {| world := w';
                             trace := [EvGetPending (batchSize s) (length msgs) None;
                                       EvLog (LogProcessing
                                                (Z.of_nat (length msgs))
                                                (batchSize s) (maxWorkers s))] |})))).
  { apply (pool_invariant P).
    - intros k q (Hm & Hw & Ht).
      destruct (workerIter_cases s ctx
                  (workerCount (Z.of_nat (length msgs)) (maxWorkers s)) k q)
        as [-> | [(wk & l & _ & _ & Hm' & _ & Hw' & Ht' & Hl)
                 | (wk & msg & externalID & raw & err & uErr & l & m' & x' & _
                    & _ & _ & Hctx & _)]]; [done| |].
      + split_and!; [congruence|congruence|].
        intros e. rewrite Ht', elem_of_app. intros [He | He]; [auto|].
        destruct Hl as [-> | ->]; in_trace.
      + by rewrite Hc in Hctx.
    - split_and!; [done|done|]. unfold spawn. cbn [exec trace]. intros e.
      rewrite elem_of_app, list_elem_of_fmap.
      intros [He | (z & -> & _)]; [in_trace|done]. }
  destruct HP as (Hm & Hw & Ht). split_and!; [done..|].
  intros e. rewrite elem_of_app. intros [He | He]; [auto|in_trace].
Qed.

End AnyBatch.

(** Two pending items, every provider call succeeding. *)
Lemma items_keep_identity_witness :
  Forall2 evolved [Fixtures.msgA; Fixtures.msgB]
    (messages
       (snd (ProcessBatch
               (Fixtures.svc [Fixtures.msgA; Fixtures.msgB] None "X" "ok"
                  None None None)
               tt [1%nat; 0%nat] 0))).
Proof.
  apply (items_keep_identity
           (Fixtures.svc [Fixtures.msgA; Fixtures.msgB] None "X" "ok"
              None None None)
           tt [1%nat; 0%nat] 0 [Fixtures.msgA; Fixtures.msgB] 0).
  reflexivity.
Defined.

(** Two pending items, a cancelled context. *)
Lemma cancelled_batch_touches_nothing_witness :
  messages
    (snd (ProcessBatch
            (NewMessageService Fixtures.rtCancelled
               (Fixtures.repoOf [Fixtures.msgA; Fixtures.msgB] None None)
               (Fixtures.smsOf "X" "ok" None) None 2 2 (5 * Second))
            tt [] 0))
  = [Fixtures.msgA; Fixtures.msgB].
Proof.
  apply (cancelled_batch_touches_nothing
           (NewMessageService Fixtures.rtCancelled
              (Fixtures.repoOf [Fixtures.msgA; Fixtures.msgB] None None)
              (Fixtures.smsOf "X" "ok" None) None 2 2 (5 * Second))
           tt [] 0 [Fixtures.msgA; Fixtures.msgB] 0).
  - intros w0. reflexivity.
  - reflexivity.
Defined.

Section Bounded.
Context {W C : Type} (s : messageService W C) (ctx : C).
Context (wc n : Z) (Hwc : 1 <= wc <= n) (Hn : n < maxLen).

(** The index a worker is about to take up has not been taken up. *)
Lemma tracked_next_fresh (p : pool W) k wk :
  tracked wc n p -> workers p !! k = Some wk ->
  next wk ∉ procLog (trace (exec p)).
Proof.
  intros (Hlen & Hst & _ & Htaken & _) Hk Hin.
  destruct (Htaken _ Hin) as (_ & k0 & wk0 & Hk0 & Hv).
  destruct (Hst _ _ Hk) as (c & Hc & Hnx & _).
  destruct (Hst _ _ Hk0) as (c0 & Hc0 & Hnx0 & Hv0).
  rewrite Hv0 in Hv. apply elem_of_strideTake in Hv as (j & Hj & Hz).
  pose proof (lookup_lt_Some _ _ _ Hk) as Hklt.
  pose proof (lookup_lt_Some _ _ _ Hk0) as Hk0lt.
  assert (c = j) by nia. subst j.
  assert (k0 = k) by lia. subst k0.
  rewrite Hk0 in Hk. injection Hk as ->. nia.
Qed.

Lemma workerIter_tracked k (p : pool W) :
  wf n p -> tracked wc n p -> tracked wc n (workerIter s ctx wc k p).
Proof.
  intros Hwf Htr.
  destruct (workerIter_cases s ctx wc k p)
    as [-> | [(wk & l & Hk & _ & _ & Hw' & _ & Ht' & Hl)
             | (wk & msg & externalID & raw & err & uErr & l & m' & x' & Hk
                & _ & Hi & _ & _ & -> & Ht' & Hpl & Hsl & _)]]; [done| |].
  - destruct Htr as (Hlen & Hst & Hnd & Htaken & Hsends).
    assert (Hpl : procLog l = []) by (by destruct Hl as [-> | ->]).
    assert (Hsl : sends l = 0%nat) by (by destruct Hl as [-> | ->]).
    pose proof (lookup_lt_Some _ _ _ Hk) as Hklt.
    unfold tracked.
    rewrite Hw', Ht', procLog_app, sends_app, Hpl, Hsl, (right_id_L [] (++)).
    split_and!; [by rewrite length_insert| |done| |lia].
    + intros j wj Hj. destruct (decide (k = j)) as [<- | Hkj].
      * rewrite list_lookup_insert_eq in Hj by done. injection Hj as <-.
        exact (Hst _ _ Hk).
      * rewrite list_lookup_insert_ne in Hj by done. by apply Hst.
    + intros i Hin. destruct (Htaken i Hin) as (Hr & k0 & wk0 & Hk0 & Hv).
      split; [done|]. destruct (decide (k = k0)) as [<- | Hkk].
      * exists k, (exit wk). rewrite list_lookup_insert_eq by done.
        split; [done|]. rewrite Hk in Hk0. by injection Hk0 as <-.
      * exists k0, wk0. by rewrite list_lookup_insert_ne.
  - pose proof (tracked_next_fresh p k wk Htr Hk) as Hfresh.
    destruct Htr as (Hlen & Hst & Hnd & Htaken & Hsends).
    destruct Hwf as (Hlenp & _ & _).
    pose proof (lookup_lt_Some _ _ _ Hk) as Hklt.
    destruct (Hst _ _ Hk) as (c & Hc & Hnx & Hv).
    unfold tracked. cbn [workers exec].
    rewrite Ht', procLog_app, sends_app, Hpl, Hsl.
    split_and!.
    + by rewrite length_insert.
    + intros j wj Hj. destruct (decide (k = j)) as [<- | Hkj].
      * rewrite list_lookup_insert_eq in Hj by done. injection Hj as <-.
        exists (c + 1). cbn [next visited].
        rewrite wrap64_id by (unfold min_int64, max_int64, maxLen in *; lia).
        split_and!; [lia|lia|].
        rewrite strideTake_snoc by done. by rewrite Hv, Hnx.
      * rewrite list_lookup_insert_ne in Hj by done. by apply Hst.
    + apply NoDup_app. split_and!; [done| |apply NoDup_singleton].
      intros i Hin ->%list_elem_of_singleton. done.
    + intros i [Hin | ->%list_elem_of_singleton]%elem_of_app.
      * destruct (Htaken i Hin) as (Hr & k0 & wk0 & Hk0 & Hv0).
        split; [done|]. destruct (decide (k = k0)) as [<- | Hkk].
        -- eexists k, _. rewrite list_lookup_insert_eq by done.
           split; [done|]. cbn [visited]. apply elem_of_app. left.
           rewrite Hk in Hk0. by injection Hk0 as <-.
        -- exists k0, wk0. by rewrite list_lookup_insert_ne.
      * split; [lia|]. eexists k, _. rewrite list_lookup_insert_eq by done.
        split; [done|]. cbn [visited]. apply elem_of_app. right.
        apply list_elem_of_here.
    + rewrite length_app. simpl. lia.
Qed.

Lemma spawn_tracked (msgs : list Message) (x : Exec W) :
  procLog (trace x) = [] -> sends (trace x) = 0%nat ->
  tracked wc n (spawn wc msgs x).
Proof.
  intros Hpl Hsl.
  assert (Hgo : forall l : list Z,
            procLog ((fun w => EvGo (w + 1) w) <$> l) = [] /\
            sends ((fun w => EvGo (w + 1) w) <$> l) = 0%nat).
  { induction l as [|z l [IH1 IH2]]; [done|]. by split. }
  destruct (Hgo (seqZ 0 wc)) as [Hg1 Hg2].
  unfold tracked, spawn. cbn [workers exec trace].
  rewrite procLog_app, sends_app, Hpl, Hsl, Hg1, Hg2.
  split_and!; [|  |constructor| |done].
  - rewrite length_fmap, length_seqZ. lia.
  - intros k wk Hk. rewrite list_lookup_fmap in Hk.
    destruct (seqZ 0 wc !! k) as [z|] eqn:E; simpl in Hk; [|done].
    apply lookup_seqZ in E as [-> Hlt]. injection Hk as <-.
    exists 0. simpl. split_and!; [lia|lia|done].
  - by intros i ?%elem_of_nil.
Qed.

Lemma settledAt_mono (p p' : pool W) i m0 :
  messages p' !! i = messages p !! i ->
  (forall e, e ∈ trace (exec p) -> e ∈ trace (exec p')) ->
  settledAt p i m0 -> settledAt p' i m0.
Proof.
  intros Hm Ht (externalID & raw & err & uErr & m & H1 & H2 & H3 & H4).
  exists externalID, raw, err, uErr, m. rewrite Hm. split_and!; auto.
Qed.

(** A turn that adds nothing to the list of indices taken up and leaves
    the items alone keeps them settled. *)
Lemma settledSoFar_mono msgs (p p' : pool W) l :
  messages p' = messages p -> trace (exec p') = trace (exec p) ++ l ->
  procLog l = [] ->
  settledSoFar msgs p -> settledSoFar msgs p'.
Proof.
  intros Hm Ht Hpl Hs i m0 Hm0.
  assert (Hpr : processed p' i <-> processed p i).
  { rewrite !processed_procLog, Ht, procLog_app, Hpl, (right_id_L [] (++)).
    done. }
  destruct (Hs i m0 Hm0) as [[H1 H2] | [H1 H2]].
  - left. rewrite Hm, Hpr. done.
  - right. rewrite Hpr. split; [done|].
    eapply settledAt_mono; [| |exact H2].
    + by rewrite Hm.
    + intros e He. rewrite Ht. apply elem_of_app. by left.
Qed.

Lemma workerIter_settled msgs k (p : pool W) :
  wf n p -> tracked wc n p ->
  settledSoFar msgs p -> settledSoFar msgs (workerIter s ctx wc k p).
Proof.
  intros Hwf Htr Hs.
  destruct (workerIter_cases s ctx wc k p)
    as [-> | [(wk & l & Hk & _ & Hm' & _ & _ & Ht' & Hl)
             | (wk & msg & externalID & raw & err & uErr & l & m' & x' & Hk
                & _ & Hi & _ & Hmsg & Heq & Ht' & Hpl & Hsl & HS & HU & Hm)]];
    [done| |].
  - eapply settledSoFar_mono; [exact Hm'|exact Ht'| |exact Hs].
    by destruct Hl as [-> | ->].
  - pose proof (tracked_next_fresh p k wk Htr Hk) as Hfresh.
    rewrite Heq. intros i m0 Hm0.
    assert (Hpr : processed {| messages := <[Z.to_nat (next wk) := m']> (messages p);
                               workers := <[k := {| workerID := workerID wk;
                                                    next := wrap64 (next wk + wc);
                                                    exited := false;
                                                    visited := visited wk ++ [next wk] |}]>
                                            (workers p);
                               exec := x'; panicked := panicked p |} i
                  <-> processed p i \/ i = Z.to_nat (next wk)).
    { rewrite !processed_procLog. cbn [exec].
      rewrite Ht', procLog_app, Hpl, elem_of_app, list_elem_of_singleton.
      split; (intros [? | ?]; [by left|right; lia]). }
    rewrite Hpr. cbn [messages].
    destruct (decide (i = Z.to_nat (next wk))) as [-> | Hne].
    + right. split; [by right|].
      destruct (Hs _ m0 Hm0) as [[H1 _] | [H1 _]].
      2: { apply processed_procLog in H1. rewrite Z2Nat.id in H1 by lia. done. }
      rewrite Hmsg in H1. injection H1 as ->.
      exists externalID, raw, err, uErr, m'. cbn [messages exec].
      rewrite list_lookup_insert_eq by lia. rewrite Ht'.
      split_and!; [done| | |done]; apply elem_of_app; by right.
    + rewrite list_lookup_insert_ne by done.
      destruct (Hs i m0 Hm0) as [[H1 H2] | [H1 H2]].
      * left. split; [done|]. intros [? | ?]; done.
      * right. split; [by left|].
        eapply settledAt_mono; [| |exact H2]; cbn [messages exec].
        -- by rewrite list_lookup_insert_ne.
        -- intros e He. rewrite Ht'. apply elem_of_app. by left.
Qed.

End Bounded.

Section BoundedBatch.
Context {W C : Type} (s : messageService W C) (ctx : C) (sched : list nat)
  (w : W).

(** The pool at [wg.Wait()]'s return, for a fetch that returned items. *)
Lemma ProcessBatch_tracked msgs w' :
  GetPending (repo s) ctx (batchSize s) w = ((msgs, None), w') ->
  msgs <> [] -> Z.of_nat (length msgs) < maxLen ->
  exists p : pool W,
    ProcessBatch s ctx sched w =
      (None,
       {| messages := messages p; workers := workers p;
          exec := {| world := world (exec p);
                     trace := trace (exec p) ++ [EvLog LogPoolCompleted] |};
          panicked := panicked p |}) /\
    tracked (workerCount (Z.of_nat (length msgs)) (maxWorkers s))
      (Z.of_nat (length msgs)) p /\
    settledSoFar msgs p.
Proof.
  intros H Hne Hmax. rewrite (ProcessBatch_pool _ _ _ _ _ _ H Hne). cbn zeta.
  assert (Hpos : 0 < Z.of_nat (length msgs))
    by (destruct msgs; simpl; [done|lia]).
  pose proof (workerCount_bounds _ (maxWorkers s) Hpos) as Hwc.
  set (n := Z.of_nat (length msgs)) in *.
  set (wc := workerCount n (maxWorkers s)) in *.
  set (p0 := spawn wc msgs _).
  set (P := fun q : pool W => wf n q /\ tracked wc n q /\ settledSoFar msgs q).
  assert (HP : P (wait s ctx wc (runSchedule s ctx wc sched p0))).
  { apply (pool_invariant s ctx sched P).
    - intros k q (Hwf & Htr & Hs). split_and!.
      + by apply workerIter_wf.
      + by apply workerIter_tracked.
      + by apply (workerIter_settled s ctx wc n).
    - split_and!.
      + by apply (spawn_wf wc n).
      + by apply spawn_tracked.
      + intros i m0 Hm0. left. split; [done|].
        rewrite processed_procLog. unfold p0, spawn. cbn [exec trace].
        assert (Hgo : forall l : list Z,
                  procLog ((fun w => EvGo (w + 1) w) <$> l) = []).
        { induction l as [|z l IH]; [done|]. done. }
        rewrite procLog_app, Hgo. simpl. by intros ?%elem_of_nil. }
  destruct HP as (_ & Htr & Hs). eexists. split_and!; [done|done|done].
Qed.


(** X9. Every item ends as its own [Send] decided.  After a batch each
    fetched item is either untouched and never taken up, or it was taken up,
    [Send] was called with its recipient and content, and the item is
    FAILED with the raw response if that call failed, SUCCESS with the
    identifier and raw response it returned otherwise; and [UpdateStatus]
    was called with the item as it is at the end.  When the context is
    never cancelled no item is left untouched. *)
Theorem items_settled_by_transport msgs w' :
  GetPending (repo s) ctx (batchSize s) w = ((msgs, None), w') ->
  Z.of_nat (length msgs) < maxLen ->
  settledSoFar msgs (snd (ProcessBatch s ctx sched w)) /\
  (neverCancelled s ctx ->
   forall i m0, msgs !! i = Some m0 ->
     settledAt (snd (ProcessBatch s ctx sched w)) i m0).
Proof.
  intros H Hmax.
  assert (Hs : settledSoFar msgs (snd (ProcessBatch s ctx sched w))).
  { destruct (decide (msgs = [])) as [-> | Hne]; [by intros i m0 ?|].
    destruct (ProcessBatch_tracked msgs w' H Hne Hmax) as (p & -> & _ & Hs).
    cbn [snd]. eapply (settledSoFar_mono msgs p); [done|done| |done]. done. }
  split; [done|]. intros Hnc i m0 Hm0.
  destruct (Hs i m0 Hm0) as [[_ Hnp] | [_ ?]]; [|done].
  destruct (BatchClaims.ProcessBatch_uncancelled s ctx sched w msgs w'
              Hnc H Hmax) as [Hall _].
  destruct Hnp. apply Hall. by apply lookup_lt_Some in Hm0.
Qed.

End BoundedBatch.


(** Two pending items, a provider that accepts, a database that is down:
    both end SUCCESS in memory. *)
Lemma items_settled_by_transport_witness :
  settledAt
    (snd (ProcessBatch
            (Fixtures.svc [Fixtures.msgA; Fixtures.msgB] None "X" "ok"
               None (Some "db down") None)
            tt [1%nat; 0%nat] 0))
    1 Fixtures.msgB.
Proof.
  apply (items_settled_by_transport
           (Fixtures.svc [Fixtures.msgA; Fixtures.msgB] None "X" "ok"
              None (Some "db down") None)
           tt [1%nat; 0%nat] 0 [Fixtures.msgA; Fixtures.msgB] 0).
  - reflexivity.
  - unfold maxLen. simpl. lia.
  - intros w0. reflexivity.
  - reflexivity.
Defined.

End PoolExtras.

(** ** The webhook client, alone and under [processMessage] *)

Module SmsFacts.
Import Service MessageFacts.

Section Webhook.
Context {W C R Resp : Type} (L : Sms.Lib W C R Resp) (c : Sms.WebhookClient).

Lemma Send_ok_inv ctx to content w externalID raw w' :
  Sms.Send L c ctx to content w = ((externalID, raw, None), w') ->
  externalID <> "" /\
  exists parsed,
    Sms.Unmarshal L raw = inl parsed /\ Sms.MessageID parsed = externalID.
Proof.
  unfold Sms.Send. intros H.
  repeat case_match; simplify_eq; eauto.
Qed.

Lemma Send_err_inv ctx to content w externalID raw e w' :
  Sms.Send L c ctx to content w = ((externalID, raw, Some e), w') ->
  externalID = "".
Proof.
  unfold Sms.Send. intros H.
  repeat case_match; simplify_eq; eauto.
Qed.

(** X10. [Send] of the webhook client returns a nil error exactly when it
    returns a non-empty identifier, and that identifier is then the
    [messageId] parsed from the raw response it returns with it. *)
Theorem Send_id_iff_ok ctx to content w :
  (snd (fst (Sms.Send L c ctx to content w)) = None <->
   fst (fst (fst (Sms.Send L c ctx to content w))) <> "") /\
  (snd (fst (Sms.Send L c ctx to content w)) = None ->
   exists parsed,
     Sms.Unmarshal L (snd (fst (fst (Sms.Send L c ctx to content w))))
     = inl parsed /\
     Sms.MessageID parsed = fst (fst (fst (Sms.Send L c ctx to content w)))).
Proof.
  destruct (Sms.Send L c ctx to content w) as [[[externalID raw] [e|]] w']
    eqn:HS; simpl.
  - apply Send_err_inv in HS as ->. split; [|done]. split; done.
  - apply Send_ok_inv in HS as [Hid Hp]. split; [|done]. split; done.
Qed.

(** X11. With the webhook client as transport and a cache configured,
    whenever [processMessage] returns nil the item carries a non-empty
    external identifier and a cache record [sent_messages:<identifier>]
    with a 24-hour expiry was written: the guard on an empty identifier
    never holds a write back. *)
Theorem webhook_success_is_cached (s : messageService W C) cch ctx msg x :
  smsClient s = Sms.asClient L c -> cache s = Some cch ->
  fst (fst (processMessage s ctx msg x)) = None ->
  Domain.MessageID (snd (fst (processMessage s ctx msg x))) <> "" /\
  exists value cErr,
    EvCacheSet
      ("sent_messages:"
       +:+ Domain.MessageID (snd (fst (processMessage s ctx msg x))))
      value (24 * Hour) cErr
    ∈ since x (snd (processMessage s ctx msg x)).
Proof.
  intros Hsms Hc.
  destruct (Send (smsClient s) ctx (Domain.To msg) (Domain.Content msg) (world x))
    as [[[externalID raw] [e|]] w1] eqn:HS.
  { destruct (UpdateStatus (repo s) ctx (Domain.MarkFailed raw msg) w1)
      as [uErr w2] eqn:HU.
    by rewrite (processMessage_send_failed _ _ _ _ _ _ _ _ _ _ HS HU). }
  destruct (UpdateStatus (repo s) ctx
              (Domain.MarkSent (Now (runtime s) w1) externalID raw msg) w1)
    as [[ue|] w2] eqn:HU.
  { by rewrite (processMessage_persist_failed _ _ _ _ _ _ _ _ _ HS HU). }
  assert (Hid : externalID <> "").
  { rewrite Hsms in HS. simpl in HS. by apply Send_ok_inv in HS as [? _]. }
  destruct (Set_ cch ctx ("sent_messages:" +:+ externalID)
              (FormatRFC3339 (runtime s) (Now (runtime s) w1))
              (24 * Hour) w2) as [cErr w3] eqn:HC.
  rewrite (processMessage_cached _ _ _ _ _ _ _ _ _ _ _ HS HU Hc Hid HC).
  intros _. cbn [fst snd]. rewrite since_app. simpl.
  split; [done|]. eexists _, cErr. in_trace.
Qed.

(** X12. A provider answer outside 200..299 fails the item and is kept:
    under [processMessage] with the webhook client, when the request is
    sent and answered with such a status and body [raw], the item becomes
    FAILED with [raw] as its raw response, and the error names the status. *)
Theorem webhook_non2xx_marks_failed (s : messageService W C) ctx msg x
    body req resp raw w1 w2 :
  smsClient s = Sms.asClient L c ->
  Sms.Marshal L {| Sms.To := Domain.To msg; Sms.Content := Domain.Content msg |}
    = inl body ->
  Sms.NewRequestWithContext L (Sms.withTimeout L ctx (5 * Second) (world x))
    Sms.MethodPost (Sms.endpoint c) (Some body) = inl req ->
  Sms.Do L
    (Sms.withAuth L c (Sms.HeaderSet L req "Content-Type" "application/json"))
    (world x) = (inl resp, w1) ->
  Sms.ReadAll L resp w1 = (inl raw, w2) ->
  ~ (200 <= Sms.StatusCode L resp < 300) ->
  snd (fst (processMessage s ctx msg x)) = Domain.MarkFailed raw msg /\
  fst (fst (processMessage s ctx msg x))
  = Some ("send message " +:+ Domain.ID msg
          +:+ ": webhook returned non-2xx status: "
          +:+ Sms.formatInt L (Sms.StatusCode L resp)).
Proof.
  intros Hsms HM HR HD HA Hst.
  assert (HS : Send (smsClient s) ctx (Domain.To msg) (Domain.Content msg)
                 (world x)
               = (("", raw,
                   Some ("webhook returned non-2xx status: "
                         +:+ Sms.formatInt L (Sms.StatusCode L resp))), w2)).
  { rewrite Hsms. simpl. unfold Sms.Send. rewrite HM, HR, HD, HA.
    rewrite decide_True by lia. done. }
  destruct (UpdateStatus (repo s) ctx (Domain.MarkFailed raw msg) w2)
    as [uErr w3] eqn:HU.
  by rewrite (processMessage_send_failed _ _ _ _ _ _ _ _ _ _ HS HU).
Qed.

End Webhook.

(** The provider answers 202 with identifier X. *)
Lemma webhook_success_is_cached_witness :
  Domain.MessageID
    (snd (fst (processMessage
                 (Fixtures.svcOver 202 "{'messageId':'X'}" None
                    (Some (Fixtures.cacheOf None)))
                 tt Fixtures.msgA Fixtures.start))) <> "".
Proof.
  apply (webhook_success_is_cached (Fixtures.httpOf 202 "{'messageId':'X'}")
           Fixtures.hook
           (Fixtures.svcOver 202 "{'messageId':'X'}" None
              (Some (Fixtures.cacheOf None)))
           (Fixtures.cacheOf None) tt Fixtures.msgA Fixtures.start).
  - reflexivity.
  - reflexivity.
  - reflexivity.
Defined.

(** The provider answers 500. *)
Lemma webhook_non2xx_marks_failed_witness :
  snd (fst (processMessage
              (Fixtures.svcOver 500 "overloaded" None None)
              tt Fixtures.msgA Fixtures.start))
  = Domain.MarkFailed "overloaded" Fixtures.msgA.
Proof.
  apply (webhook_non2xx_marks_failed (Fixtures.httpOf 500 "overloaded")
           Fixtures.hook (Fixtures.svcOver 500 "overloaded" None None)
           tt Fixtures.msgA Fixtures.start
           "+100|hello" [] (500, "overloaded") "overloaded" 0 0).
  - reflexivity.
  - reflexivity.
  - reflexivity.
  - reflexivity.
  - reflexivity.
  - simpl. lia.
Defined.

End SmsFacts.

(** ** The HTTP side: mappers, handlers and the middleware chain *)

Module WebFacts.

(** A slice of the right length filled by [out[i] = g(src[i])] for every
    index is the image of [src]. *)
Lemma fill_from {A B} (g : A -> B) (src : list A) :
  forall off out, (off + length src <= length out)%nat ->
    foldl (fun out '(i, m) => <[i := g m]> out) out
      (zip (seq off (length src)) src)
    = take off out ++ (g <$> src) ++ drop (off + length src) out.
Proof.
  induction src as [|a src IH]; intros off out Hlen; simpl in *.
  - by rewrite Nat.add_0_r, take_drop.
  - rewrite IH by (rewrite length_insert; lia).
    rewrite (take_S_r _ _ (g a)) by (apply list_lookup_insert_eq; lia).
    rewrite take_insert_ge by lia.
    rewrite drop_insert_lt by lia.
    rewrite <- (assoc_L (++)). simpl.
    by replace (S (off + length src)) with (off + S (length src))%nat by lia.
Qed.

Lemma fill_map {A B} (g : A -> B) (src : list A) (out : list B) :
  length out = length src ->
  foldl (fun out '(i, m) => <[i := g m]> out) out
    (zip (seq 0 (length src)) src)
  = g <$> src.
Proof.
  intros Hlen. rewrite fill_from by (simpl; lia). simpl.
  rewrite drop_ge by lia. by rewrite (right_id_L [] (++)).
Qed.

Lemma toDomainMany_map models :
  Gorm.toDomainMany models = (fun m => Some (Gorm.toDomain m)) <$> models.
Proof.
  unfold Gorm.toDomainMany.
  apply (fill_map (fun m => Some (Gorm.toDomain m))). by rewrite length_replicate.
Qed.

Lemma FromDomainMessages_map msgs :
  Response.FromDomainMessages msgs = Response.dtoOf <$> msgs.
Proof.
  unfold Response.FromDomainMessages.
  apply (fill_map Response.dtoOf). by rewrite length_replicate.
Qed.

(** X13. The two mappers of the repository are inverse on what the domain
    holds: messages saved through [fromDomain] and read back through
    [toDomainMany] come out as they went in, in order, none left nil; and
    [fromDomain] after [toDomain] gives the row back with its deletion mark
    cleared. *)
Theorem mappers_round_trip :
  (forall ds, Gorm.toDomainMany (Gorm.fromDomain <$> ds) = Some <$> ds) /\
  (forall m, Gorm.fromDomain (Gorm.toDomain m)
             = {| Gorm.ID := Gorm.ID m; Gorm.To := Gorm.To m;
                  Gorm.Content := Gorm.Content m; Gorm.Status := Gorm.Status m;
                  Gorm.RawResponse := Gorm.RawResponse m;
                  Gorm.MessageID := Gorm.MessageID m;
                  Gorm.SentAt := Gorm.SentAt m;
                  Gorm.CreatedAt := Gorm.CreatedAt m;
                  Gorm.UpdatedAt := Gorm.UpdatedAt m;
                  Gorm.DeletedAt := None |}).
Proof.
  split; [|done].
  intros ds. rewrite toDomainMany_map, <- list_fmap_compose.
  apply list_fmap_ext. intros _ d _. simpl. by destruct d.
Qed.

Section Handlers.
Context {W C : Type} (L : Handler.Lib) (h : Handler.MessageHandler W C).
Import Handler Response.

(** X14. [GetSentMessages] calls the service once, with the page and the
    limit of the request: the page is the parsed [page] parameter when it
    parses to a positive number and 1 otherwise; the limit is the parsed
    [limit] parameter when it parses to a number from 1 to 100 and 20
    otherwise (a limit above 100 becomes 20, not 100).  So the page is at
    least 1 and the limit between 1 and 100.  It answers 500 with the
    service's error, or 200 with one DTO for each item in order and the page
    and limit it used. *)
Theorem GetSentMessages_reply ctx pageStr limitStr w :
  exists page limit,
    (forall v, Atoi L pageStr = Some v -> 0 < v -> page = v) /\
    (Atoi L pageStr = None \/ (exists v, Atoi L pageStr = Some v /\ v <= 0) ->
     page = 1) /\
    (forall v, Atoi L limitStr = Some v -> 0 < v <= 100 -> limit = v) /\
    (Atoi L limitStr = None \/
     (exists v, Atoi L limitStr = Some v /\ (v <= 0 \/ 100 < v)) ->
     limit = 20) /\
    1 <= page /\ 1 <= limit <= 100 /\
    (Atoi L pageStr = Some page \/ page = 1) /\
    (Atoi L limitStr = Some limit \/ limit = 20) /\
    (forall v, Atoi L limitStr = Some v -> v > 100 -> limit = 20) /\
    GetSentMessages L h ctx pageStr limitStr w =
      match GetSent (msgSvc h) ctx page limit w with
      | ((items, total, None), w') =>
          (RespondJSON 200
             (SentMessagesPayload (dtoOf <$> items) total page limit), w')
      | ((_, _, Some e), w') => (RespondError 500 e, w')
      end.
Proof.
  unfold GetSentMessages.
  set (page := match Atoi L pageStr with
               | Some v => if decide (v > 0) then v else 1
               | None => 1
               end).
  set (limit := match Atoi L limitStr with
                | Some v => if decide (v > 0 /\ v <= 100) then v else 20
                | None => 20
                end).
  exists page, limit. split_and!.
  - intros v Hv Hpos. unfold page. rewrite Hv. by rewrite decide_True by lia.
  - intros [Hn | (v & Hv & Hle)]; unfold page.
    + by rewrite Hn.
    + rewrite Hv. by rewrite decide_False by lia.
  - intros v Hv Hr. unfold limit. rewrite Hv. by rewrite decide_True by lia.
  - intros [Hn | (v & Hv & Hle)]; unfold limit.
    + by rewrite Hn.
    + rewrite Hv. by rewrite decide_False by lia.
  - unfold page. repeat case_match; lia.
  - unfold limit. repeat case_match; lia.
  - unfold limit. repeat case_match; lia.
  - unfold page. repeat case_match; auto.
  - unfold limit. repeat case_match; auto.
  - intros v Hv Hgt. unfold limit. rewrite Hv. case_decide; [lia|done].
  - destruct (GetSent (msgSvc h) ctx page limit w) as [[[items total] [e|]] w'];
      [done|]. by rewrite FromDomainMessages_map.
Qed.

(** X15. [StartStopScheduler] answers 200 or 400, and 200 exactly when the
    body decodes to the action start or stop and the scheduler call for it
    returned nil; an error of the scheduler is passed on as the message of a
    400.  When the body does not decode or names another action the
    scheduler is not called. *)
Theorem StartStopScheduler_reply body w :
  (statusOf (fst (StartStopScheduler L h body w)) = 200 \/
   statusOf (fst (StartStopScheduler L h body w)) = 400) /\
  (statusOf (fst (StartStopScheduler L h body w)) = 200 <->
   exists req, Decode L body = inl req /\
     ((Action req = "start" /\ fst (Start (schSvc h) w) = None) \/
      (Action req = "stop" /\ fst (Stop (schSvc h) w) = None))) /\
  (forall req e, Decode L body = inl req ->
     (Action req = "start" /\ fst (Start (schSvc h) w) = Some e) \/
     (Action req = "stop" /\ fst (Stop (schSvc h) w) = Some e) ->
     fst (StartStopScheduler L h body w) = RespondError 400 e) /\
  ((forall req, Decode L body = inl req ->
      Action req <> "start" /\ Action req <> "stop") ->
   snd (StartStopScheduler L h body w) = w).
Proof.
  unfold StartStopScheduler.
  destruct (Decode L body) as [req|e0] eqn:HD.
  2: { split_and!; [by right| |done|done].
       split; [done|]. by intros (req & ? & _). }
  destruct (decide (Action req = "start")) as [Ha|Ha].
  { destruct (Start (schSvc h) w) as [[e|] w'] eqn:HS; simpl.
    - split_and!; [by right| | |].
      + split; [done|]. intros (req' & [= <-] & [[_ ?] | [Hb _]]); [done|].
        by rewrite Ha in Hb.
      + intros req' e' [= <-] [[_ [= ->]] | [Hb _]]; [done|].
        by rewrite Ha in Hb.
      + intros Hn. by destruct (Hn req eq_refl).
    - split_and!; [by left| | |].
      + split; [|done]. intros _. exists req. split; [done|]. by left.
      + intros req' e' [= <-] [[_ ?] | [Hb _]]; [done|]. by rewrite Ha in Hb.
      + intros Hn. by destruct (Hn req eq_refl). }
  destruct (decide (Action req = "stop")) as [Hb|Hb].
  { destruct (Stop (schSvc h) w) as [[e|] w'] eqn:HS; simpl.
    - split_and!; [by right| | |].
      + split; [done|]. intros (req' & [= <-] & [[? _] | [_ ?]]); done.
      + intros req' e' [= <-] [[? _] | [_ [= ->]]]; done.
      + intros Hn. by destruct (Hn req eq_refl).
    - split_and!; [by left| | |].
      + split; [|done]. intros _. exists req. split; [done|]. by right.
      + intros req' e' [= <-] [[? _] | [_ ?]]; done.
      + intros Hn. by destruct (Hn req eq_refl). }
  simpl. split_and!; [by right| | |done].
  - split; [done|]. intros (req' & [= <-] & [[? _] | [? _]]); done.
  - intros req' e' [= <-] [[? _] | [? _]]; done.
Qed.

End Handlers.

Lemma chainLoop_take {H : Type} (m : list (H -> H)) :
  forall k h, (k <= length m)%nat ->
    Server.chainLoop k h m = foldr (fun mi acc => mi acc) h (take k m).
Proof.
  induction k as [|i IH]; intros h Hk; [by rewrite take_0|]. simpl.
  destruct (lookup_lt_is_Some_2 m i) as [mi Hmi]; [lia|].
  rewrite Hmi, IH by lia.
  rewrite (take_S_r _ _ mi) by done. by rewrite foldr_app.
Qed.

(** X16. [Chain] wraps the handler in the middleware from the last listed
    to the first, so the first listed is outermost:
    [Chain h [m1; ...; mn]] is [m1 (... (mn h))]. *)
Theorem Chain_foldr {H : Type} (h : H) (m : list (H -> H)) :
  Server.Chain h m = foldr (fun mi acc => mi acc) h m.
Proof.
  unfold Server.Chain. rewrite chainLoop_take by done. by rewrite take_ge.
Qed.

End WebFacts.

(** ** Settings in force, cache keys and new messages *)

Module SettingsFacts.
Import Config Service Scheduler Main ConfigFacts.

Section Settings.
Context {W C : Type} (rt : Runtime W C) (repo : Repository W C)
  (sms : SmsClient W C) (cache : option (Cache W C)).
Context (L : Lib) (env : gmap string string).

(** X17. Whatever the environment holds and whatever the parsers make of
    it, the five settings in force after start-up are positive. *)
Theorem effective_settings_positive :
  0 < tickInterval (effective (wire rt repo sms cache L env)) /\
  0 < batchDeadline (effective (wire rt repo sms cache L env)) /\
  0 < batchSize_ (effective (wire rt repo sms cache L env)) /\
  0 < maxWorkers_ (effective (wire rt repo sms cache L env)) /\
  0 < perItemTimeout (effective (wire rt repo sms cache L env)).
Proof.
  unfold effective, wire, NewSchedulerService, NewMessageService,
    DefaultInterval, DefaultBatchTimeout, Minute, Second. simpl.
  split_and!; case_decide; lia.
Qed.

(** X18. A variable that is set and parses to a positive value is the
    setting in force, for each of the five. *)
Theorem parsed_positive_takes_effect :
  (forall d, parsesTo L (ParseDuration L) env "SCHEDULER_INTERVAL" d -> 0 < d ->
     tickInterval (effective (wire rt repo sms cache L env)) = d) /\
  (forall d, parsesTo L (ParseDuration L) env "SCHEDULER_BATCH_TIMEOUT" d ->
     0 < d ->
     batchDeadline (effective (wire rt repo sms cache L env)) = d) /\
  (forall z, parsesTo L (Atoi L) env "MESSAGE_BATCH_SIZE" z -> 0 < z ->
     batchSize_ (effective (wire rt repo sms cache L env)) = z) /\
  (forall z, parsesTo L (Atoi L) env "MESSAGE_MAX_WORKERS" z -> 0 < z ->
     maxWorkers_ (effective (wire rt repo sms cache L env)) = z) /\
  (forall d, parsesTo L (ParseDuration L) env "MESSAGE_PER_MESSAGE_TIMEOUT" d ->
     0 < d ->
     perItemTimeout (effective (wire rt repo sms cache L env)) = d).
Proof.
  unfold effective, wire, NewSchedulerService, NewMessageService. simpl.
  split_and!; intros v H Hpos.
  - rewrite (getDuration_parsed _ _ _ _ _ H). case_decide; [lia|done].
  - rewrite (getDuration_parsed _ _ _ _ _ H). case_decide; [lia|done].
  - rewrite (getInt_parsed _ _ _ _ _ H). case_decide; [lia|done].
  - rewrite (getInt_parsed _ _ _ _ _ H). case_decide; [lia|done].
  - rewrite (getDuration_parsed _ _ _ _ _ H). case_decide; [lia|done].
Qed.

End Settings.

(** MESSAGE_MAX_WORKERS set to 2. *)
Lemma parsed_positive_takes_effect_witness :
  maxWorkers_
    (effective (wire Fixtures.rt (Fixtures.repoOf [] None None)
                  (Fixtures.smsOf "" "" None) None Fixtures.lib
                  {[ "MESSAGE_MAX_WORKERS" := "2" ]}))
  = 2.
Proof.
  pose proof (parsed_positive_takes_effect Fixtures.rt
                (Fixtures.repoOf [] None None) (Fixtures.smsOf "" "" None) None
                Fixtures.lib {[ "MESSAGE_MAX_WORKERS" := "2" ]})
    as (_ & _ & _ & H & _).
  apply H; [|lia]. split; [|reflexivity]. simpl. discriminate.
Defined.

End SettingsFacts.

Module DomainFacts.
Import Domain.

Lemma append_inj_r (s a b : string) : s +:+ a = s +:+ b -> a = b.
Proof. induction s as [|c s IH]; simpl; [done|]. intros [= H]. auto. Qed.

(** X19. Under one prefix, different identifiers have different cache
    keys. *)
Theorem Key_injective p id1 id2 :
  CacheKeys.Key p id1 = CacheKeys.Key p id2 -> id1 = id2.
Proof.
  unfold CacheKeys.Key. intros H.
  apply append_inj_r in H. by apply append_inj_r in H.
Qed.

Lemma Key_injective_witness : "X" = "X".
Proof.
  apply (Key_injective CacheKeys.SentMessages "X" "X"). reflexivity.
Defined.

(** X20. [NewMessage] checks the trimmed recipient, then the trimmed
    content, then its length, and returns the first error met; the message
    it returns otherwise is PENDING with the trimmed recipient and content,
    both non-empty, the content at most 255 bytes long, no external
    identifier, no raw response and no sending time. *)
Theorem NewMessage_rules (TrimSpace : string -> string) newID now to content :
  match NewMessage TrimSpace newID now to content with
  | inl m =>
      ID m = newID /\ To m = TrimSpace to /\ Content m = TrimSpace content /\
      To m <> "" /\ Content m <> "" /\
      Z.of_nat (String.length (Content m)) <= 255 /\
      Status_ m = StatusPending /\ MessageID m = "" /\ RawResponse m = "" /\
      SentAt m = None /\ CreatedAt m = now
  | inr e =>
      (e = ErrEmptyRecipient /\ TrimSpace to = "") \/
      (e = ErrEmptyContent /\ TrimSpace to <> "" /\ TrimSpace content = "") \/
      (e = ErrContentTooLong /\ TrimSpace to <> "" /\
       TrimSpace content <> "" /\
       Z.of_nat (String.length (TrimSpace content)) > 255)
  end.
Proof.
  unfold NewMessage, MaxContentLength.
  destruct (decide (TrimSpace to = "")) as [Ht|Ht]; [by left|].
  destruct (decide (TrimSpace content = "")) as [Hc|Hc]; [right; by left|].
  destruct (decide (Z.of_nat (String.length (TrimSpace content)) > 255))
    as [Hl|Hl]; [right; right; done|].
  simpl. split_and!; auto; lia.
Qed.

End DomainFacts.

(** ** The stride partition, of the pool that [ProcessBatch] runs *)

Module StrideClaims.
Import Domain Service StrideFacts MessageFacts PoolFacts PoolExtras.

Section Batch.
Context {W C : Type} (s : messageService W C) (ctx : C) (sched : list nat)
  (w : W).

(** The goroutines [ProcessBatch] starts, as [go func(workerID, start)] is
    called for them. *)
Lemma ProcessBatch_go msgs w' k :
  GetPending (repo s) ctx (batchSize s) w = ((msgs, None), w') ->
  msgs <> [] -> Z.of_nat (length msgs) < maxLen ->
  0 <= k < workerCount (Z.of_nat (length msgs)) (maxWorkers s) ->
  EvGo (k + 1) k ∈ trace (exec (snd (ProcessBatch s ctx sched w))).
Proof.
  intros H Hne Hmax Hk. rewrite (ProcessBatch_pool _ _ _ _ _ _ H Hne).
  cbn zeta. cbn [snd exec trace].
  assert (Hpos : 0 < Z.of_nat (length msgs))
    by (destruct msgs; simpl; [done|lia]).
  pose proof (workerCount_bounds _ (maxWorkers s) Hpos) as Hwc.
  set (n := Z.of_nat (length msgs)) in *.
  set (wc := workerCount n (maxWorkers s)) in *.
  set (p0 := spawn wc msgs _).
  set (P := fun q : pool W => wf n q /\ EvGo (k + 1) k ∈ trace (exec q)).
  assert (HP : P (wait s ctx wc (runSchedule s ctx wc sched p0))).
  { apply (pool_invariant s ctx sched P).
    - intros j q [Hwf Hin]. split.
      + by apply workerIter_wf.
      + by apply (workerIter_trace_mono s ctx wc n).
    - split; [by apply (spawn_wf wc n)|].
      unfold p0, spawn. cbn [exec trace]. apply elem_of_app. right.
      apply list_elem_of_fmap. exists k. split; [done|].
      apply elem_of_seqZ. lia. }
  destruct HP as [_ Hin]. apply elem_of_app. by left.
Qed.

(** C3. For every batch of [N > 0] fetched items, [workerCount] is
    [max 1 (min maxWorkers N)], and [ProcessBatch] runs its pool with
    exactly that many workers, started as goroutine [k + 1] from index [k]
    for every [k] below [workerCount], and all returned at the end.  The
    loop header of worker [k] yields exactly the indices
    [k, k + workerCount, k + 2 workerCount, ...] below [N], each once, at
    most [ceil (N / workerCount)] of them; every index below [N] is in the
    share of exactly one worker, and the shares together are a permutation
    of [0, N).  In every batch no index is taken up twice, and none outside
    [0, N).  When the context is not cancelled, worker [k] has taken up
    exactly its share when [ProcessBatch] returns, and the indices taken up
    are every index below [N], each exactly once. *)
Theorem stride_partition msgs w' :
  GetPending (repo s) ctx (batchSize s) w = ((msgs, None), w') ->
  0 < Z.of_nat (length msgs) -> Z.of_nat (length msgs) < maxLen ->
  workerCount (Z.of_nat (length msgs)) (maxWorkers s)
  = Z.max 1 (Z.min (maxWorkers s) (Z.of_nat (length msgs))) /\
  Z.of_nat (length (workers (snd (ProcessBatch s ctx sched w))))
  = workerCount (Z.of_nat (length msgs)) (maxWorkers s) /\
  joined (snd (ProcessBatch s ctx sched w)) /\
  (forall k, 0 <= k < workerCount (Z.of_nat (length msgs)) (maxWorkers s) ->
     EvGo (k + 1) k ∈ trace (exec (snd (ProcessBatch s ctx sched w)))) /\
  (forall k, 0 <= k < workerCount (Z.of_nat (length msgs)) (maxWorkers s) ->
     exists l,
       stride k (Z.of_nat (length msgs))
         (workerCount (Z.of_nat (length msgs)) (maxWorkers s)) = Some l /\
       (forall x, x ∈ l <->
          exists j, 0 <= j /\
            x = k + j * workerCount (Z.of_nat (length msgs)) (maxWorkers s) /\
            x < Z.of_nat (length msgs)) /\
       (forall x, x ∈ l <->
          0 <= x < Z.of_nat (length msgs) /\
          x mod workerCount (Z.of_nat (length msgs)) (maxWorkers s) = k) /\
       NoDup l /\
       Z.of_nat (length l)
       <= ceilDiv (Z.of_nat (length msgs))
            (workerCount (Z.of_nat (length msgs)) (maxWorkers s))) /\
  (forall x, 0 <= x < Z.of_nat (length msgs) ->
     exists k,
       (0 <= k < workerCount (Z.of_nat (length msgs)) (maxWorkers s) /\
        exists l,
          stride k (Z.of_nat (length msgs))
            (workerCount (Z.of_nat (length msgs)) (maxWorkers s)) = Some l /\
          x ∈ l) /\
       forall k',
         (0 <= k' < workerCount (Z.of_nat (length msgs)) (maxWorkers s) /\
          exists l,
            stride k' (Z.of_nat (length msgs))
              (workerCount (Z.of_nat (length msgs)) (maxWorkers s)) = Some l /\
            x ∈ l) -> k' = k) /\
  assignment (Z.of_nat (length msgs))
    (workerCount (Z.of_nat (length msgs)) (maxWorkers s))
  ≡ₚ seqZ 0 (Z.of_nat (length msgs)) /\
  NoDup (procLog (trace (exec (snd (ProcessBatch s ctx sched w))))) /\
  (forall i, i ∈ procLog (trace (exec (snd (ProcessBatch s ctx sched w)))) ->
     0 <= i < Z.of_nat (length msgs)) /\
  (neverCancelled s ctx ->
   (forall k, 0 <= k < workerCount (Z.of_nat (length msgs)) (maxWorkers s) ->
      exists wk,
        workers (snd (ProcessBatch s ctx sched w)) !! Z.to_nat k = Some wk /\
        stride k (Z.of_nat (length msgs))
          (workerCount (Z.of_nat (length msgs)) (maxWorkers s))
        = Some (visited wk)) /\
   procLog (trace (exec (snd (ProcessBatch s ctx sched w))))
   ≡ₚ seqZ 0 (Z.of_nat (length msgs))).
Proof.
  intros H Hpos Hmax.
  assert (Hne : msgs <> []) by (intros ->; simpl in Hpos; lia).
  destruct (BatchClaims.stride_assignment_spec (Z.of_nat (length msgs))
              (maxWorkers s) Hpos Hmax) as (A1 & A2 & A3 & A4 & _).
  destruct (ProcessBatch_joins s ctx sched w msgs w' H Hmax)
    as (_ & Hj & _ & Hlen).
  specialize (Hlen Hne).
  assert (Hlog : NoDup (procLog (trace (exec (snd (ProcessBatch s ctx sched w)))))
                 /\ (forall i,
                       i ∈ procLog (trace (exec (snd (ProcessBatch s ctx sched w))))
                       -> 0 <= i < Z.of_nat (length msgs))).
  { destruct (ProcessBatch_tracked s ctx sched w msgs w' H Hne Hmax)
      as (p & -> & (_ & _ & Hnd & Htaken & _) & _).
    cbn [snd exec trace]. rewrite procLog_app.
    change (procLog [EvLog LogPoolCompleted]) with (@nil Z).
    rewrite (right_id_L [] (++)).
    split; [done|]. intros i Hi. by apply Htaken. }
  destruct Hlog as [Hnd Hr].
  split_and!; try done.
  - intros k Hk. by apply (ProcessBatch_go msgs w').
  - intros Hnc.
    destruct (BatchClaims.ProcessBatch_uncancelled s ctx sched w msgs w'
                Hnc H Hmax) as [Hall Hv].
    split.
    + intros k Hk.
      destruct (lookup_lt_is_Some_2
                  (workers (snd (ProcessBatch s ctx sched w))) (Z.to_nat k))
        as [wk Hwk]; [lia|].
      exists wk. split; [done|].
      specialize (Hv _ _ Hwk). by rewrite Z2Nat.id in Hv by lia.
    + apply NoDup_Permutation; [done|apply NoDup_seqZ|].
      intros i. rewrite elem_of_seqZ. split.
      * intros Hi. specialize (Hr i Hi). lia.
      * intros Hi. specialize (Hall (Z.to_nat i) ltac:(lia)).
        apply processed_procLog in Hall. by rewrite Z2Nat.id in Hall by lia.
Qed.

End Batch.

(** Two pending items and at most two workers, the second worker first:
    two workers, the second of which takes up index 1, and the log lists
    both indices. *)
Lemma stride_partition_witness :
  Z.of_nat (length (workers (snd (ProcessBatch
     (Fixtures.svc [Fixtures.msgA; Fixtures.msgB] None "X" "ok" None None None)
     tt [1%nat; 0%nat] 0)))) = 2 /\
  procLog (trace (exec (snd (ProcessBatch
     (Fixtures.svc [Fixtures.msgA; Fixtures.msgB] None "X" "ok" None None None)
     tt [1%nat; 0%nat] 0)))) ≡ₚ [0; 1].
Proof.
  destruct (stride_partition
              (Fixtures.svc [Fixtures.msgA; Fixtures.msgB] None "X" "ok"
                 None None None)
              tt [1%nat; 0%nat] 0 [Fixtures.msgA; Fixtures.msgB] 0)
    as (_ & H2 & _ & _ & _ & _ & _ & _ & _ & H10).
  - reflexivity.
  - simpl. lia.
  - unfold maxLen. simpl. lia.
  - split; [exact H2|].
    destruct H10 as [_ Hp]; [intros w0; reflexivity|]. exact Hp.
Defined.

End StrideClaims.
